(** * Shallow embedding of the metrics pipeline of youtube_dashboard.py

    The dashboard script loads three tables with [pd.read_sql], converts
    their date columns, filters the video table by a date range, coerces
    the four count columns, derives [engagement_rate], and computes top-N
    rankings, rollups and channel KPIs.  A pandas cell is modelled by
    [cell]; a table by its column list and its rows; a row as an
    association list from column names to cells.  Numbers are rationals
    ([Q]); timestamps are nanoseconds since the epoch (pandas' unit). *)

From Stdlib Require Import ZArith QArith Qminmax Qabs List String Ascii Bool Lia
  Permutation Sorted.
Import ListNotations.

Open Scope string_scope.
Open Scope list_scope.
Open Scope Z_scope.

(** ** Cells, rows, tables *)

Inductive cell : Type :=
| CNum (q : Q)          (* int64 / float64 value *)
| CStr (s : string)     (* object (text) value *)
| CTime (t : Z)         (* datetime64[ns] value *)
| CNull.                (* None / NaN / NaT *)

Definition row := list (string * cell).

Record table := mk_table { cols : list string; rows : list row }.

Definition has_col (t : table) (c : string) : bool :=
  existsb (String.eqb c) (cols t).

(** [df[c]] read on one row: a column the row does not carry is null. *)
Fixpoint get (r : row) (c : string) : cell :=
  match r with
  | [] => CNull
  | (k, v) :: r' => if String.eqb k c then v else get r' c
  end.

(** [df[c] = ...] on one row: overwrite the cell, or append the column. *)
Fixpoint put (r : row) (c : string) (v : cell) : row :=
  match r with
  | [] => [(c, v)]
  | (k, w) :: r' => if String.eqb k c then (k, v) :: r' else (k, w) :: put r' c v
  end.

(** ** Option monad for code that raises *)

Definition bind {A B} (m : option A) (f : A -> option B) : option B :=
  match m with Some a => f a | None => None end.
Notation "x <- m ;; k" := (bind m (fun x => k))
  (at level 61, m at next level, right associativity).

Fixpoint mapM {A B} (f : A -> option B) (l : list A) : option (list B) :=
  match l with
  | [] => Some []
  | x :: l' => y <- f x ;; ys <- mapM f l' ;; Some (y :: ys)
  end.

(** ** Character-level parsing used by [pd.to_datetime] and [pd.to_numeric] *)

Definition digit (a : ascii) : option Z :=
  let n := Z.of_nat (nat_of_ascii a) in
  if (48 <=? n) && (n <=? 57) then Some (n - 48) else None.

(** Exactly [k] decimal digits. *)
Fixpoint digits_n (k : nat) (s : string) : option (Z * string) :=
  match k with
  | O => Some (0, s)
  | S k' =>
      match s with
      | EmptyString => None
      | String a s' =>
          d <- digit a ;;
          p <- digits_n k' s' ;;
          let '(v, rest) := p in Some (d * 10 ^ Z.of_nat k' + v, rest)
      end
  end.

Definition expect (a : ascii) (s : string) : option string :=
  match s with
  | String b s' => if Ascii.eqb a b then Some s' else None
  | EmptyString => None
  end.

(** Days from 1970-01-01 of a proleptic Gregorian date. *)
Definition days_from_civil (y m d : Z) : Z :=
  let y := if m <=? 2 then y - 1 else y in
  let era := y / 400 in
  let yoe := y - era * 400 in
  let mp := if 2 <? m then m - 3 else m + 9 in
  let doy := (153 * mp + 2) / 5 + d - 1 in
  let doe := yoe * 365 + yoe / 4 - yoe / 100 + doy in
  era * 146097 + doe - 719468.

Definition is_leap (y : Z) : bool :=
  (Z.eqb (y mod 4) 0 && negb (Z.eqb (y mod 100) 0)) || Z.eqb (y mod 400) 0.

Definition days_in_month (y m : Z) : Z :=
  if Z.eqb m 2 then (if is_leap y then 29 else 28)
  else if (Z.eqb m 4 || Z.eqb m 6 || Z.eqb m 9 || Z.eqb m 11) then 30 else 31.

Definition day_ns : Z := 86400 * 1000000000.
Definition sec_ns : Z := 1000000000.

(** ISO date strings ["YYYY-MM-DD"]: the one text form of a date that the
    converter of the examples ([to_datetime_cell]) reads, where it makes
    the other spellings raise.  [pd.to_datetime] reads many more (a time
    of day, ["20240105"], ["2024/01/05"], ...); the run of the script is
    stated for any column converter ([run_with]). *)
Definition parse_iso_date (s : string) : option Z :=
  p1 <- digits_n 4 s ;; let '(y, s1) := p1 in
  s2 <- expect "-"%char s1 ;;
  p2 <- digits_n 2 s2 ;; let '(m, s3) := p2 in
  s4 <- expect "-"%char s3 ;;
  p3 <- digits_n 2 s4 ;; let '(d, s5) := p3 in
  match s5 with
  | EmptyString =>
      if (1 <=? m) && (m <=? 12) && (1 <=? d) && (d <=? days_in_month y m)
      then Some (days_from_civil y m d * day_ns) else None
  | _ => None
  end.

(** [pd.to_datetime] on one cell; [None] means the call raises.  Numbers
    are read as nanoseconds since the epoch. *)
Definition to_datetime_cell (v : cell) : option cell :=
  match v with
  | CTime t => Some (CTime t)
  | CNull => Some CNull
  | CNum q => Some (CTime (Z.quot (Qnum q) (Zpos (Qden q))))
  | CStr s => t <- parse_iso_date s ;; Some (CTime t)
  end.

(** [df[c] = pd.to_datetime(df[c])]: every row of the table is rewritten. *)
Definition to_datetime_col (t : table) (c : string) : option table :=
  rs <- mapM (fun r => v <- to_datetime_cell (get r c) ;; Some (put r c v)) (rows t) ;;
  Some (mk_table (cols t) rs).

(** *** [pd.to_numeric] on text

    [pd.to_numeric(s, errors="coerce")] on an object column goes through
    pandas' [maybe_convert_numeric], which reads each string with
    [floatify] (pandas/_libs/src/parse_helper.h): [to_double], i.e.
    [precise_xstrtod] of pandas/_libs/src/parser/tokenizer.c with
    [skip_trailing], must consume the whole string; otherwise the exact
    spellings [inf], [+inf], [-inf], [infinity], [+infinity], [-infinity]
    (any case) give an infinite float, and anything else is a parse error,
    NaN under [errors="coerce"]. *)

(** A float64 value: a finite number, an infinity (the flag is the sign:
    [true] for [-inf]), or NaN. *)
Inductive num := NFin (q : Q) | NInf (neg : bool) | NNaN.

(** [isspace_ascii]: space, tab, newline, vertical tab, form feed, return. *)
Definition is_space (a : ascii) : bool :=
  let n := nat_of_ascii a in ((n =? 32) || ((9 <=? n) && (n <=? 13)))%nat.

Fixpoint skip_ws (s : string) : string :=
  match s with
  | String a s' => if is_space a then skip_ws s' else s
  | EmptyString => s
  end.

(** The bytes C reads: the string up to its first NUL byte. *)
Fixpoint c_str (s : string) : string :=
  match s with
  | String a s' => if Ascii.eqb a "000"%char then EmptyString else String a (c_str s')
  | EmptyString => EmptyString
  end.

(** The optional sign: [-] sets [negative], [+] is skipped. *)
Definition sign_of (s : string) : bool * string :=
  match s with
  | String a s' =>
      if Ascii.eqb a "-"%char then (true, s')
      else if Ascii.eqb a "+"%char then (false, s') else (false, s)
  | EmptyString => (false, s)
  end.

Definition max_digits : nat := 17.

(** The integer digits: the first [max_digits] of them accumulate into
    [number]; each further one increments [exponent]. *)
Fixpoint int_part (s : string) (number : Z) (num_digits : nat) (exponent : Z)
  : Z * nat * Z * string :=
  match s with
  | String a s' =>
      match digit a with
      | Some d =>
          if (num_digits <? max_digits)%nat
          then int_part s' (number * 10 + d) (S num_digits) exponent
          else int_part s' number num_digits (exponent + 1)
      | None => (number, num_digits, exponent, s)
      end
  | EmptyString => (number, num_digits, exponent, s)
  end.

(** The digits after the decimal point: they accumulate while
    [num_digits < max_digits] (each one decrements the exponent, as
    [exponent -= num_decimals] does); later ones are skipped. *)
Fixpoint frac_part (s : string) (number : Z) (num_digits : nat) (exponent : Z)
  : Z * nat * Z * string :=
  match s with
  | String a s' =>
      match digit a with
      | Some d =>
          if (num_digits <? max_digits)%nat
          then frac_part s' (number * 10 + d) (S num_digits) (exponent - 1)
          else frac_part s' number num_digits exponent
      | None => (number, num_digits, exponent, s)
      end
  | EmptyString => (number, num_digits, exponent, s)
  end.

(** The exponent digits, at most [k] of them ([max_int_decimal_digits] is 8). *)
Fixpoint exp_digits (k : nat) (s : string) (n : Z) (num_digits : nat) : Z * nat * string :=
  match k, s with
  | S k', String a s' =>
      match digit a with
      | Some d => exp_digits k' s' (n * 10 + d) (S num_digits)
      | None => (n, num_digits, s)
      end
  | _, _ => (n, num_digits, s)
  end.

(** [number * 10^exponent] *)
Definition dec_value (number exponent : Z) : Q :=
  if exponent <? 0 then Qmake number (Z.to_pos (10 ^ (- exponent)))
  else inject_Z (number * 10 ^ exponent).

(** The result is [HUGE_VAL]: the value rounds to an infinite float64
    (its magnitude reaches [2^1024 - 2^970], halfway past [DBL_MAX]). *)
Definition dbl_overflow (x : Q) : bool :=
  Qle_bool (inject_Z (2 ^ 1024 - 2 ^ 970)) (Qabs x).

(** The value rounds to 0 in float64 (at most half the least subnormal). *)
Definition dbl_underflow (x : Q) : bool :=
  Qle_bool (Qabs x) (Qmake 1 (Z.to_pos (2 ^ 1075))).

(** [to_double(s, &result, 'E', '.', &maybe_int)]: [Some] value when it
    succeeds.  The value is the one [precise_xstrtod] computes before
    rounding to float64, except that values of float64 overflow fail
    ([ERANGE]) and values below the subnormal range are 0; an [e] or [E]
    not followed by a digit is given back, and then the string is not
    consumed to its end. *)
Definition precise_xstrtod (s : string) : option Q :=
  let '(negative, s) := sign_of (skip_ws s) in
  let '(number, num_digits, exponent, s) := int_part s 0 0 0 in
  let '(number, num_digits, exponent, s) :=
    match s with
    | String a s' =>
        if Ascii.eqb a "."%char then frac_part s' number num_digits exponent
        else (number, num_digits, exponent, s)
    | EmptyString => (number, num_digits, exponent, s)
    end in
  if (num_digits =? 0)%nat then None
  else
    let number := if negative then - number else number in
    e <- match s with
         | String a s' =>
             if Ascii.eqb a "e"%char || Ascii.eqb a "E"%char then
               let '(eneg, s1) := sign_of s' in
               let '(n, k, s2) := exp_digits 8 s1 0 0 in
               if (k =? 0)%nat then None
               else Some ((if eneg then exponent - n else exponent + n), s2)
             else Some (exponent, s)
         | EmptyString => Some (exponent, s)
         end ;;
    let '(exponent, s) := e in
    if 308 <? exponent then None
    else
      let x := if exponent <? -616 then 0%Q else dec_value number exponent in
      if dbl_overflow x then None
      else match skip_ws s with
           | EmptyString => Some (if dbl_underflow x then 0%Q else x)
           | String _ _ => None
           end.

(** ASCII lower case, as [strcasecmp] compares. *)
Definition lower (a : ascii) : ascii :=
  let n := nat_of_ascii a in
  if ((65 <=? n) && (n <=? 90))%nat then ascii_of_nat (n + 32) else a.

Fixpoint lower_str (s : string) : string :=
  match s with String a s' => String (lower a) (lower_str s') | EmptyString => EmptyString end.

(** The infinity spellings [floatify] accepts when [to_double] fails. *)
Definition inf_word (s : string) : option bool :=
  let l := lower_str s in
  if String.eqb l "inf" || String.eqb l "+inf" || String.eqb l "infinity"
     || String.eqb l "+infinity" then Some false
  else if String.eqb l "-inf" || String.eqb l "-infinity" then Some true
  else None.

(** [floatify] under [errors="coerce"]: a parse error is NaN.  A numeral
    with neither a point nor an exponent is an integer for pandas, which
    keeps [int(s)] exactly when the whole column is integral; that value
    differs from the one here only for numerals of more than 17 digits. *)
Definition parse_number (s : string) : num :=
  let data := c_str s in
  match precise_xstrtod data with
  | Some q => NFin q
  | None => match inf_word data with Some neg => NInf neg | None => NNaN end
  end.

(** [pd.to_numeric(x, errors="coerce")] on one cell.  Numbers are kept,
    timestamps read as nanoseconds, nulls are NaN. *)
Definition to_numeric_cell (v : cell) : num :=
  match v with
  | CNum q => NFin q
  | CStr s => parse_number s
  | CTime t => NFin (inject_Z t)
  | CNull => NNaN
  end.

(** [.fillna(0)] on a float column. *)
Definition fillna0_num (x : num) : num :=
  match x with NNaN => NFin 0%Q | _ => x end.

(** [.fillna(0)] on a column that may hold [pd.NA] ([None] here). *)
Definition fillna0 (x : option Q) : Q :=
  match x with Some q => q | None => 0%Q end.

(** ** Numeric coercion and engagement rate (lines 81-91) *)

Definition numeric_cols : list string := ["views"; "likes"; "dislikes"; "comments"].

(** One pass of the loop body:
<<
    if col not in filtered_videos.columns:
        filtered_videos[col] = 0
    filtered_videos[col] = pd.to_numeric(filtered_videos[col], errors="coerce").fillna(0)
>>  The cells of this model hold finite numbers only.  pandas keeps a count
    it reads as [inf] or [-inf] ([fillna] leaves it), and the model has no
    cell for it: such a column gives [None].  The script does not raise
    here; it does at lines 126-129, where [int()] of the column's sum
    ([inf], [-inf] or NaN) raises, and [run] stops there. *)
Definition coerce_col (t : table) (c : string) : option table :=
  let t := if has_col t c then t
           else mk_table (cols t ++ [c]) (map (fun r => put r c (CNum 0%Q)) (rows t)) in
  rs <- mapM (fun r =>
          match fillna0_num (to_numeric_cell (get r c)) with
          | NFin q => Some (put r c (CNum q))
          | _ => None
          end) (rows t) ;;
  Some (mk_table (cols t) rs).

(** [for col in [...]: ...] *)
Fixpoint coerce_cols (cs : list string) (t : table) : option table :=
  match cs with
  | [] => Some t
  | c :: cs' => t' <- coerce_col t c ;; coerce_cols cs' t'
  end.

Definition coerce_numeric (t : table) : option table := coerce_cols numeric_cols t.

(** The value line 85 gives to count [c] of row [r] of table [t]. *)
Definition count_value (t : table) (c : string) (r : row) : num :=
  if has_col t c then fillna0_num (to_numeric_cell (get r c)) else NFin 0%Q.

(** The value of a count cell once coerced (every count cell is then a
    [CNum]). *)
Definition num_value (v : cell) : Q :=
  match v with CNum q => q | _ => 0%Q end.

(** [views.replace({0: pd.NA})] *)
Definition replace_zero_na (x : Q) : option Q :=
  if Qeq_bool x 0 then None else Some x.

(** Division propagating [pd.NA]. *)
Definition div_na (a : Q) (b : option Q) : option Q :=
  match b with Some b => Some (a / b)%Q | None => None end.

(** [((likes + comments) / views.replace({0: pd.NA})).fillna(0)] on one row *)
Definition engagement_of (r : row) : Q :=
  fillna0 (div_na (num_value (get r "likes") + num_value (get r "comments"))%Q
                  (replace_zero_na (num_value (get r "views")))).

(** [filtered_videos["engagement_rate"] = ...] *)
Definition add_engagement (t : table) : table :=
  mk_table (if has_col t "engagement_rate" then cols t else cols t ++ ["engagement_rate"])
    (map (fun r => put r "engagement_rate" (CNum (engagement_of r))) (rows t)).

(** ** Date-range control and date filtering (lines 47-59 and 72-79) *)

(** [date_col = "published_at" if "published_at" in videos_df.columns else "fetched_at"] *)
Definition date_col_of (t : table) : string :=
  if has_col t "published_at" then "published_at" else "fetched_at".

(** [videos_df[date_col].isnull().all()] *)
Definition all_null (t : table) (c : string) : bool :=
  forallb (fun r => match get r c with CNull => true | _ => false end) (rows t).

(** [Series.min()] / [Series.max()] of a datetime column, skipping NaT. *)
Definition col_extreme (pick : Z -> Z -> Z) (t : table) (c : string) : option Z :=
  fold_left (fun acc r =>
    match get r c, acc with
    | CTime x, Some m => Some (pick m x)
    | CTime x, None => Some x
    | _, _ => acc
    end) (rows t) None.

(** [Timestamp.date()], as a day number since 1970-01-01. *)
Definition ts_date (ts : Z) : Z := ts / day_ns.

(** [pd.to_datetime(date)]: midnight of a day number. *)
Definition date_ts (d : Z) : Z := d * day_ns.

(** The sidebar block.  [ui] is what [st.sidebar.date_input] hands back:
    [None] while the widget still shows its default [[min_date, max_date]],
    [Some l] for the dates the user picked (one date while a range is
    being chosen, two once it is complete).  The result is
    [(start_date, end_date)], or [None] for [start_date, end_date = None, None]. *)
Definition sidebar_dates (t : table) (ui : option (list Z)) : option (Z * Z) :=
  let c := date_col_of t in
  if has_col t c && negb (all_null t c) then
    let min_date := ts_date (match col_extreme Z.min t c with Some m => m | None => 0 end) in
    let max_date := ts_date (match col_extreme Z.max t c with Some m => m | None => 0 end) in
    let date_range := match ui with Some l => l | None => [min_date; max_date] end in
    match date_range with
    | [s; e] => Some (s, e)
    | _ => Some (min_date, max_date)
    end
  else None.

(** [series >= ts] and [series <= ts] on one cell: NaT compares false. *)
Definition ts_ge (v : cell) (ts : Z) : bool :=
  match v with CTime x => ts <=? x | _ => false end.
Definition ts_le (v : cell) (ts : Z) : bool :=
  match v with CTime x => x <=? ts | _ => false end.

(** Lines 73-79:
<<
    filtered_videos = videos_df.copy()
    if start_date and end_date and date_col in filtered_videos.columns:
        start_ts = pd.to_datetime(start_date)
        end_ts = pd.to_datetime(end_date) + pd.Timedelta(days=1) - pd.Timedelta(seconds=1)
        filtered_videos = filtered_videos[(filtered_videos[date_col] >= start_ts)
                                          & (filtered_videos[date_col] <= end_ts)]
>>  (a [datetime.date] is always truthy). *)
Definition filter_by_date (t : table) (date_col : string) (dates : option (Z * Z)) : table :=
  match dates with
  | Some (start_date, end_date) =>
      if has_col t date_col then
        let start_ts := date_ts start_date in
        let end_ts := date_ts end_date + day_ns - sec_ns in
        mk_table (cols t)
          (filter (fun r => ts_ge (get r date_col) start_ts && ts_le (get r date_col) end_ts)
                  (rows t))
      else t
  | None => t
  end.

(** ** Sorting: numpy's [argsort(kind="quicksort")] and pandas' descending sorts

    [DataFrame.sort_values(col, ascending=False)] (default
    [kind="quicksort"]) goes through pandas' [nargsort], which calls numpy's
    [argsort(kind="quicksort")]: the introsort [aquicksort_] of
    numpy/_core/src/npysort/quicksort.cpp (median-of-three partition,
    insertion sort below [SMALL_QUICKSORT] elements, heapsort [aheapsort_]
    past the depth limit).  It is transcribed below on an index array [a]
    over a value array [v]; [less] is numpy's [Tag::less].  This is the
    portable path; CPUs on which numpy dispatches argsort to its vectorised
    kernels order equal keys differently, and not stably either. *)

Section Argsort.
Variable A : Type.
Variable less : A -> A -> bool.
Variable v : list A.
Variable dflt : A.

(** [tosort[i] = x] *)
Fixpoint upd (a : list nat) (i x : nat) : list nat :=
  match a, i with
  | [], _ => []
  | _ :: a', O => x :: a'
  | y :: a', S i' => y :: upd a' i' x
  end.

Definition at_ (a : list nat) (i : nat) : nat := nth i a 0%nat.

(** [v[tosort[i]]] *)
Definition val (a : list nat) (i : nat) : A := nth (at_ a i) v dflt.

(** [INTP_SWAP(tosort[i], tosort[j])] *)
Definition swap (a : list nat) (i j : nat) : list nat :=
  let ai := at_ a i in let aj := at_ a j in upd (upd a i aj) j ai.

(** [do ++pi; while (Tag::less(v[*pi], vp));] *)
Fixpoint scan_up (fuel : nat) (a : list nat) (vp : A) (pi : nat) : nat :=
  match fuel with
  | O => pi
  | S f => let pi := S pi in if less (val a pi) vp then scan_up f a vp pi else pi
  end.

(** [do --pj; while (Tag::less(vp, v[*pj]));] *)
Fixpoint scan_down (fuel : nat) (a : list nat) (vp : A) (pj : nat) : nat :=
  match fuel with
  | O => pj
  | S f => let pj := pred pj in if less vp (val a pj) then scan_down f a vp pj else pj
  end.

(** The [for (;;)] partition loop. *)
Fixpoint part_loop (fuel : nat) (a : list nat) (vp : A) (pi pj : nat) : list nat * nat :=
  match fuel with
  | O => (a, pi)
  | S f =>
      let pi := scan_up fuel a vp pi in
      let pj := scan_down fuel a vp pj in
      if pj <=? pi then (a, pi) else part_loop f (swap a pi pj) vp pi pj
  end%nat.

(** Median-of-three partition of [tosort[pl..pr]]; returns the pivot slot. *)
Definition partition (fuel : nat) (a : list nat) (pl pr : nat) : list nat * nat :=
  let pm := (pl + (pr - pl) / 2)%nat in
  let a := if less (val a pm) (val a pl) then swap a pm pl else a in
  let a := if less (val a pr) (val a pm) then swap a pr pm else a in
  let a := if less (val a pm) (val a pl) then swap a pm pl else a in
  let vp := val a pm in
  let pj := (pr - 1)%nat in
  let a := swap a pm pj in
  let '(a, pi) := part_loop fuel a vp pl pj in
  (swap a pi (pr - 1)%nat, pi).

Definition SMALL_QUICKSORT : nat := 16.

(** [while ((pr - pl) > SMALL_QUICKSORT) { partition; push larger part }] *)
Fixpoint qs_inner (fuel : nat) (a : list nat) (pl pr : nat) (stk : list (nat * nat * Z))
  (cdepth : Z) : list nat * nat * nat * list (nat * nat * Z) :=
  match fuel with
  | O => (a, pl, pr, stk)
  | S f =>
      if (SMALL_QUICKSORT <? pr - pl)%nat then
        let '(a, pi) := partition fuel a pl pr in
        let cdepth := cdepth - 1 in
        if (pi - pl <? pr - pi)%nat
        then qs_inner f a pl (pi - 1)%nat ((S pi, pr, cdepth) :: stk) cdepth
        else qs_inner f a (S pi) pr ((pl, (pi - 1)%nat, cdepth) :: stk) cdepth
      else (a, pl, pr, stk)
  end.

(** Inner loop of the insertion sort:
    [while (pj > pl && Tag::less(vp, v[*pk])) { *pj-- = *pk--; } *pj = vi;] *)
Fixpoint ins_shift (fuel : nat) (a : list nat) (vp : A) (pj pl vi : nat) : list nat :=
  match fuel with
  | O => upd a pj vi
  | S f =>
      if (pl <? pj)%nat && less vp (val a (pj - 1))
      then ins_shift f (upd a pj (at_ a (pj - 1))) vp (pj - 1) pl vi
      else upd a pj vi
  end%nat.

(** [for (pi = pl + 1; pi <= pr; ++pi) ...] *)
Definition ins_sort (a : list nat) (pl pr : nat) : list nat :=
  fold_left (fun a pi => let vi := at_ a pi in ins_shift (pi - pl) a (nth vi v dflt) pi pl vi)
    (seq (S pl) (pr - pl)) a.

(** [aheapsort_] on [tosort[pl .. pl+n-1]], indexed from 1. *)
Definition hget (a : list nat) (pl k : nat) : nat := at_ a (pl + k - 1).
Definition hset (a : list nat) (pl k x : nat) : list nat := upd a (pl + k - 1) x.

Fixpoint sift (fuel : nat) (a : list nat) (pl n tmp i j : nat) : list nat :=
  match fuel with
  | O => hset a pl i tmp
  | S f =>
      if (j <=? n)%nat then
        let j := if (j <? n)%nat &&
                    less (nth (hget a pl j) v dflt) (nth (hget a pl (S j)) v dflt)
                 then S j else j in
        if less (nth tmp v dflt) (nth (hget a pl j) v dflt)
        then sift f (hset a pl i (hget a pl j)) pl n tmp j (j + j)
        else hset a pl i tmp
      else hset a pl i tmp
  end.

Definition aheapsort (a : list nat) (pl n : nat) : list nat :=
  let a := fold_left (fun a l => sift n a pl n (hget a pl l) l (l + l))
             (rev (seq 1 (n / 2))) a in
  fold_left (fun a k =>
      let tmp := hget a pl k in
      let a := hset a pl k (hget a pl 1) in
      sift k a pl (k - 1) tmp 1 2)
    (rev (seq 2 (n - 1))) a.

(** The [for (;;)] loop of [aquicksort_]: heapsort past the depth limit,
    otherwise partition then insertion sort, then pop the stack. *)
Fixpoint qs_outer (fuel : nat) (a : list nat) (pl pr : nat) (stk : list (nat * nat * Z))
  (cdepth : Z) : list nat :=
  match fuel with
  | O => a
  | S f =>
      let '(a, stk) :=
        if cdepth <? 0 then (aheapsort a pl (pr - pl + 1), stk)
        else let '(a, pl, pr, stk) := qs_inner fuel a pl pr stk cdepth in
             (ins_sort a pl pr, stk) in
      match stk with
      | [] => a
      | (pl, pr, cd) :: stk => qs_outer f a pl pr stk cd
      end
  end.

(** [npy_get_msb] *)
Definition npy_get_msb (n : nat) : Z := Z.log2 (Z.of_nat n).

(** [np.argsort(v, kind="quicksort")] *)
Definition aquicksort : list nat :=
  let num := List.length v in
  let fuel := (2 * num + 2)%nat in
  qs_outer fuel (seq 0 num) 0 (num - 1) [] (npy_get_msb num * 2).

End Argsort.

(** [Tag::less] on float64 / Python numbers (no NaN after [fillna]). *)
Definition Qltb (x y : Q) : bool := negb (Qle_bool y x).

(** pandas' [nargsort(items, kind="quicksort", ascending=False)] with no
    missing values: reverse, argsort, map back, reverse. *)
Definition nargsort_desc (argsort : list Q -> list nat) (items : list Q) : list nat :=
  let non_nans := rev items in
  let non_nan_idx := rev (seq 0 (List.length items)) in
  let indexer := map (fun k => nth k non_nan_idx 0%nat) (argsort non_nans) in
  rev indexer.

Definition np_argsort_quicksort (items : list Q) : list nat := aquicksort Q Qltb items 0%Q.

(** The values of column [c], as the numbers they are after coercion. *)
Definition keys (t : table) (c : string) : list Q := map (fun r => num_value (get r c)) (rows t).

Definition take_rows (t : table) (idx : list nat) : table :=
  mk_table (cols t) (map (fun i => nth i (rows t) []) idx).

(** [df.sort_values(c, ascending=False)] *)
Definition sort_values_desc (t : table) (c : string) : table :=
  take_rows t (nargsort_desc np_argsort_quicksort (keys t c)).

(** [df.head(n)] *)
Definition head (n : nat) (t : table) : table := mk_table (cols t) (firstn n (rows t)).

(** Stable insertion sort by a key, ascending: the order numpy's
    [argsort(kind="mergesort")] (a stable sort) produces. *)
Fixpoint insert_by {B} (key : B -> Q) (x : B) (l : list B) : list B :=
  match l with
  | [] => [x]
  | y :: l' => if Qltb (key x) (key y) then x :: y :: l' else y :: insert_by key x l'
  end.

Definition stable_sort_by {B} (key : B -> Q) (l : list B) : list B :=
  fold_left (fun acc x => insert_by key x acc) l [].

(** [libalgos.kth_smallest(arr, k)]: the k-th smallest value (0-based). *)
Definition kth_smallest (arr : list Q) (k : nat) : Q := nth k (stable_sort_by id arr) 0%Q.

(** [df.nlargest(n, c)] (keep="first"), i.e. [SelectNSeries.compute] on
    the one column: the slow path [sort_values(ascending=False).head(n)]
    when [n >= len], otherwise the selection of all values
    [-x <= kth_smallest(-x, n-1)] followed by a stable mergesort.  (For an
    integer column pandas also subtracts 1 from [-x]; a strictly increasing
    shift of [arr] leaves every comparison and the selection unchanged.) *)
Definition nlargest (n : nat) (t : table) (c : string) : table :=
  let ks := keys t c in
  let len := List.length ks in
  if (n =? 0)%nat then head 0 t
  else if (len <=? n)%nat then head n (sort_values_desc t c)
  else
    let arr := map Qopp ks in
    let kth_val := kth_smallest arr (n - 1) in
    let ns := filter (fun i => Qle_bool (nth i arr 0%Q) kth_val) (seq 0 len) in
    let inds := stable_sort_by (fun i => nth i arr 0%Q) ns in
    take_rows t (firstn n inds).

(** ** What a top-N selection is expected to return *)

(** numpy's contract for [argsort]: a permutation of [0 .. len-1] that
    lists the items in ascending order (checked on a given input). *)
Fixpoint sorted_asc_b (key : nat -> Q) (l : list nat) : bool :=
  match l with
  | x :: ((y :: _) as l') => Qle_bool (key x) (key y) && sorted_asc_b key l'
  | _ => true
  end.

Definition is_index_perm (idx : list nat) (len : nat) : bool :=
  (List.length idx =? len)%nat && forallb (fun i => existsb (Nat.eqb i) idx) (seq 0 len).

Definition argsort_ok (s : list nat) (items : list Q) : bool :=
  is_index_perm s (List.length items) && sorted_asc_b (fun i => nth i items 0%Q) s.

(** ** Invariants of numpy's introsort on the index array *)

(** [b] is [a] after a sequence of [INTP_SWAP]s between slots of [l .. r]. *)
Inductive swaps (l r : nat) (a : list nat) : list nat -> Prop :=
| swaps_refl : swaps l r a a
| swaps_step b i j : (l <= i <= r)%nat -> (l <= j <= r)%nat -> swaps l r a b ->
    swaps l r a (swap b i j).

(** Two slot ranges that do not overlap. *)
Definition apart (s t : nat * nat) : Prop := (snd s < fst t \/ snd t < fst s)%nat.

Fixpoint segs_disj (segs : list (nat * nat)) : Prop :=
  match segs with
  | [] => True
  | s :: ss => Forall (apart s) ss /\ segs_disj ss
  end.

(** Slots [i] and [j] lie in one range of [segs]. *)
Definition same_seg (segs : list (nat * nat)) (i j : nat) : Prop :=
  exists s, In s segs /\ (fst s <= i /\ j <= snd s)%nat.

(** Number of slots in the ranges still to be sorted. *)
Definition phi (segs : list (nat * nat)) : nat :=
  list_sum (map (fun s => S (snd s - fst s)) segs).

(** The ranges of the explicit stack [sptr]. *)
Definition segs_of (stk : list (nat * nat * Z)) : list (nat * nat) :=
  map (fun x => (fst (fst x), snd (fst x))) stk.

Section ArgsortInvariant.
Variable A : Type.
Variable less : A -> A -> bool.
Variable v : list A.
Variable dflt : A.

(** [!Tag::less(y, x)] *)
Definition le_ (x y : A) : Prop := less y x = false.

(** [v[tosort[l]] <= ... <= v[tosort[r]]] *)
Definition sorted_seg (a : list nat) (l r : nat) : Prop :=
  forall i j, (l <= i)%nat -> (i < j)%nat -> (j <= r)%nat -> le_ (val A v dflt a i) (val A v dflt a j).

(** The max-heap property of [aheapsort_] on [tosort[pl .. pl+m-1]], indexed
    from 1, for every parent at index [lo] or beyond. *)
Definition heap_from (a : list nat) (pl m lo : nat) : Prop :=
  forall c, (2 <= c <= m)%nat -> (lo <= c / 2)%nat ->
    le_ (val A v dflt a (pl + c - 1)) (val A v dflt a (pl + c / 2 - 1)).

(** The loop invariant of [aquicksort_]: [tosort] is a permutation of
    [0 .. n-1], the pending ranges are disjoint, and any two slots not in
    one pending range are in order. *)
Definition qs_inv (n : nat) (a : list nat) (segs : list (nat * nat)) : Prop :=
  List.length a = n /\
  (forall x, (x < n)%nat -> exists k, (k < n)%nat /\ at_ a k = x) /\
  Forall (fun s => (fst s <= snd s < n)%nat) segs /\
  segs_disj segs /\
  (forall i j, (i < j < n)%nat -> ~ same_seg segs i j -> le_ (val A v dflt a i) (val A v dflt a j)).

End ArgsortInvariant.

(** [out] holds [min(n, len)] distinct rows of [t], listed in non-increasing
    order of column [c], each at least as large in [c] as every row left out. *)
Definition top_spec (t : table) (c : string) (n : nat) (out : table) : Prop :=
  let key i := nth i (keys t c) 0%Q in
  let len := List.length (rows t) in
  exists sel : list nat,
    rows out = map (fun i => nth i (rows t) []) sel /\
    NoDup sel /\
    List.length sel = Nat.min n len /\
    (forall i, In i sel -> (i < len)%nat) /\
    Sorted (fun i j => key j <= key i)%Q sel /\
    (forall i j, In i sel -> (j < len)%nat -> ~ In j sel -> key j <= key i)%Q.

(** ** Channel KPI: average views per video (lines 115-120) *)

(** Result of a [st.metric] value: a number, or the ["N/A"] of the
    [except] branch. *)
Inductive kpi := KVal (q : Q) | KNA.

(** [df[c].iloc[0]]: [None] when it raises (missing column, no row). *)
Definition iloc0 (t : table) (c : string) : option cell :=
  if has_col t c then match rows t with r :: _ => Some (get r c) | [] => None end
  else None.

(** Python's [max(a, b)]: [a] unless [b > a]. *)
Definition py_max (a b : Q) : Q := if Qltb a b then b else a.

(** [avg_views = channel_df['total_views'].iloc[0] / max(channel_df['total_videos'].iloc[0], 1)]
    inside [try ... except Exception: "N/A"].  [channel_df] is the one row
    of [SELECT ... LIMIT 1]: [read_sql] keeps a SQL NULL there as [None],
    and [max(None, 1)] or [None / x] raises [TypeError], as text and
    timestamp operands do. *)
Definition avg_views_kpi (channel_df : table) : kpi :=
  match iloc0 channel_df "total_views", iloc0 channel_df "total_videos" with
  | Some (CNum tv), Some (CNum vids) => KVal (tv / py_max vids 1)
  | _, _ => KNA
  end.

(** ** Rollups (lines 126-151) *)

Definition sum_q (l : list Q) : Q := fold_left Qplus l 0%Q.

(** Python's [int(x)]: truncation toward zero. *)
Definition py_int (q : Q) : Z := Z.quot (Qnum q) (Zpos (Qden q)).

(** [Series.idxmax()] on a column without missing values: the first
    position holding the maximum; [None] on an empty column. *)
Fixpoint idxmax_aux (ks : list Q) (i : nat) (best : option (nat * Q)) : option nat :=
  match ks with
  | [] => option_map fst best
  | k :: ks' =>
      match best with
      | Some (j, m) => if Qltb m k then idxmax_aux ks' (S i) (Some (i, k))
                       else idxmax_aux ks' (S i) best
      | None => idxmax_aux ks' (S i) (Some (i, k))
      end
  end.
Definition idxmax (ks : list Q) : option nat := idxmax_aux ks 0 None.

(** An argmax result: absent ([None] in the script), a row, or an
    exception escaping the script. *)
Inductive pick := Absent | Found (r : row) | Raised.

(** [df.loc[df[c].idxmax()]] on a coerced table. *)
Definition pick_max (t : table) (c : string) : pick :=
  match idxmax (keys t c) with Some i => Found (nth i (rows t) []) | None => Raised end.

(** Python's [<] on [str]: code points compared in order, a proper prefix
    first (UTF-8 bytes compare in the same order as code points). *)
Fixpoint str_ltb (a b : string) : bool :=
  match a, b with
  | EmptyString, String _ _ => true
  | String x a', String y b' =>
      if (nat_of_ascii x <? nat_of_ascii y)%nat then true
      else if Ascii.eqb x y then str_ltb a' b' else false
  | _, EmptyString => false
  end.

(** numpy's [OBJECT_argmax] on text: the first position holding the
    largest string ([>] against the running maximum). *)
Fixpoint str_idxmax_aux (l : list string) (i : nat) (best : option (nat * string))
  : option nat :=
  match l with
  | [] => option_map fst best
  | x :: l' =>
      match best with
      | Some (j, m) => if str_ltb m x then str_idxmax_aux l' (S i) (Some (i, x))
                       else str_idxmax_aux l' (S i) best
      | None => str_idxmax_aux l' (S i) (Some (i, x))
      end
  end.
Definition str_idxmax (l : list string) : option nat := str_idxmax_aux l 0 None.

Definition is_text (v : cell) : bool := match v with CStr _ => true | _ => false end.
Definition is_number (v : cell) : bool := match v with CNum _ => true | _ => false end.
Definition is_time (v : cell) : bool := match v with CTime _ => true | _ => false end.
Definition is_null (v : cell) : bool := match v with CNull => true | _ => false end.
Definition text_of (v : cell) : string := match v with CStr s => s | _ => EmptyString end.

(** The order [idxmax] compares numbers and timestamps in. *)
Definition order_key (v : cell) : Q :=
  match v with CNum q => q | CTime t => inject_Z t | _ => 0%Q end.

(** The same on the uncoerced [videos_df] (pandas 2.1 or later).  A
    missing column raises [KeyError].  A column holding text is of object
    dtype: [nanargmax] puts the float [-inf] in place of nulls and numpy
    compares the objects with [>], so text next to anything else (a null
    included) raises [TypeError], and text alone gives the first largest
    string.  Numbers next to timestamps raise as well.  Otherwise (numbers
    and nulls, or timestamps and nulls) the nulls are skipped and the first
    largest value wins; with no value left, [idxmax] gives NaN and [.loc]
    raises. *)
Definition raw_pick_max (t : table) (c : string) : pick :=
  if has_col t c then
    let vs := map (fun r => get r c) (rows t) in
    if existsb is_text vs then
      if forallb is_text vs then
        match str_idxmax (map text_of vs) with
        | Some i => Found (nth i (rows t) [])
        | None => Raised
        end
      else Raised
    else if existsb is_number vs && existsb is_time vs then Raised
    else
      let valued := filter (fun ir => negb (is_null (get (snd ir) c)))
                      (combine (seq 0 (List.length (rows t))) (rows t)) in
      match idxmax (map (fun ir => order_key (get (snd ir) c)) valued) with
      | Some k => Found (snd (nth k valued (0%nat, [])))
      | None => Raised
      end
  else Raised.

(** [DataFrame.empty]: one of the axes has length 0. *)
Definition df_empty (t : table) : bool :=
  match rows t, cols t with [], _ | _, [] => true | _, _ => false end.

(** Lines 144-151: argmax over the filtered table, falling back to the
    whole [videos_df] when the filtered table is empty. *)
Definition most (filtered videos : table) (c : string) : pick :=
  if negb (df_empty filtered) then pick_max filtered c
  else if negb (df_empty videos) then raw_pick_max videos c
  else Absent.

(** ** Sidebar slider (line 61) *)

(** [st.sidebar.slider(..., min_value, max_value, value, step=1)]: the
    default [value] until the user moves the handle; the handle cannot
    leave the track [[min_value, max_value]]. *)
Definition st_slider (min_value max_value value : Z) (ui : option Z) : Z :=
  match ui with None => value | Some x => Z.max min_value (Z.min max_value x) end.

Definition top_n_of (ui : option Z) : Z := st_slider 3 50 10 ui.

(** ** One run of the script *)

Record store := mk_store {
  channel_df : table;            (* latest channel_stats row *)
  channel_history_df : table;    (* all channel_stats rows *)
  videos_df : table }.           (* video_stats rows *)

(** [df[c]] as the list of its cells. *)
Definition col_values (t : table) (c : string) : list cell := map (fun r => get r c) (rows t).

(** [df[c] = values], [values] a column of the table's length. *)
Definition set_col (t : table) (c : string) (vs : list cell) : table :=
  mk_table (cols t) (map (fun rv => put (fst rv) c (snd rv)) (combine (rows t) vs)).

Record outputs := mk_outputs {
  o_top_n : Z;
  o_filtered : table;
  o_df_top_n : table;
  o_top_eng : table;
  o_top_likes : table;
  o_top_dislikes : option table;
  o_total_likes : Z;
  o_total_dislikes : Z;
  o_total_comments : Z;
  o_total_views : Z;
  o_avg_engagement : Q;
  o_mv : pick;
  o_ml : pick;
  o_md : pick;
  o_avg_views : kpi }.

(** Lines 41-151, from the tables as lines 34-39 leave them and the
    sidebar inputs to the final tables and values; [None] if an exception
    escapes (with a count that [pd.to_numeric] reads as infinite, [int()]
    raises at lines 126-129).  [avg_engagement] is the exact mean of the
    rates; the script's float64 mean may differ from it by rounding. *)
Definition derive (s : store) (ui_dates : option (list Z)) (ui_top_n : option Z)
  : option outputs :=
  let videos := videos_df s in
  let date_col := date_col_of videos in
  let dates := sidebar_dates videos ui_dates in
  let top_n := top_n_of ui_top_n in
  let n := Z.to_nat top_n in
  fv0 <- coerce_numeric (filter_by_date videos date_col dates) ;;
  let fv := add_engagement fv0 in
  let avg_engagement :=
    if df_empty fv then 0%Q
    else (sum_q (keys fv "engagement_rate") / inject_Z (Z.of_nat (List.length (rows fv))))%Q in
  Some (mk_outputs
    top_n
    fv
    (nlargest n fv "views")
    (head n (sort_values_desc fv "engagement_rate"))
    (nlargest 10 fv "likes")
    (if Qltb 0 (sum_q (keys fv "dislikes")) then Some (nlargest 10 fv "dislikes") else None)
    (py_int (sum_q (keys fv "likes")))
    (py_int (sum_q (keys fv "dislikes")))
    (py_int (sum_q (keys fv "comments")))
    (py_int (sum_q (keys fv "views")))
    avg_engagement
    (most fv videos "views")
    (most fv videos "likes")
    (most fv videos "dislikes")
    (avg_views_kpi (channel_df s))).

Section Run.

(** [pd.to_datetime] on a whole column: the converted cells, or [None]
    when it raises.  pandas reads a column of strings with the one format
    it infers from the first of them, so what a cell becomes depends on
    the rest of the column; [to_datetime_values] below is the converter
    the examples use. *)
Variable to_datetime : list cell -> option (list cell).

(** Lines 34-39: [if c in df.columns: df[c] = pd.to_datetime(df[c])]. *)
Definition ensure_datetime_with (t : table) (c : string) : option table :=
  if has_col t c then vs <- to_datetime (col_values t c) ;; Some (set_col t c vs)
  else Some t.

Definition ensure_datetimes_with (s : store) : option store :=
  ch <- ensure_datetime_with (channel_history_df s) "fetched_at" ;;
  v1 <- ensure_datetime_with (videos_df s) "fetched_at" ;;
  v2 <- ensure_datetime_with v1 "published_at" ;;
  Some (mk_store (channel_df s) ch v2).

(** The metrics of the script; [None] if an exception escapes.  The
    store returned is the tables as the script leaves them. *)
Definition run_with (s : store) (ui_dates : option (list Z)) (ui_top_n : option Z)
  : option (store * outputs) :=
  s <- ensure_datetimes_with s ;;
  o <- derive s ui_dates ui_top_n ;;
  Some (s, o).

End Run.

(** The column converter of the examples: each cell on its own, by
    [to_datetime_cell]. *)
Definition to_datetime_values (vs : list cell) : option (list cell) := mapM to_datetime_cell vs.

Definition ensure_datetime (t : table) (c : string) : option table :=
  ensure_datetime_with to_datetime_values t c.

Definition ensure_datetimes (s : store) : option store := ensure_datetimes_with to_datetime_values s.

Definition run (s : store) (ui_dates : option (list Z)) (ui_top_n : option Z)
  : option (store * outputs) :=
  run_with to_datetime_values s ui_dates ui_top_n.

(** ** Number display: [f"{n:,}"] on an [int] (lines 102-112, 133-139, 155-163) *)

(** The decimal digits of [n >= 0], most significant first, as [str(n)]
    writes them ([log2 n + 1] steps are more than enough). *)
Fixpoint digits_fuel (fuel : nat) (n : Z) : list Z :=
  match fuel with
  | O => [n]
  | S f => if n <? 10 then [n] else digits_fuel f (n / 10) ++ [n mod 10]
  end.

Definition dec_digits (n : Z) : list Z := digits_fuel (S (Z.to_nat (Z.log2 n))) n.

Definition digit_char (d : Z) : ascii := ascii_of_nat (Z.to_nat (48 + d)).

(** The value a list of decimal digits denotes. *)
Definition digits_value (ds : list Z) : Z := fold_left (fun acc d => acc * 10 + d) ds 0.

(** The [","] option of Python's format mini-language: a comma between
    every group of three digits, counted from the right.  [group3_rev]
    works on the reversed digit string. *)
Fixpoint group3_rev (l : list ascii) : list ascii :=
  match l with
  | a :: b :: c :: ((_ :: _) as l') => a :: b :: c :: ","%char :: group3_rev l'
  | _ => l
  end.

Definition fmt_thousands (n : Z) : string :=
  (if n <? 0 then "-" else "") ++
  string_of_list_ascii (rev (group3_rev (rev (map digit_char (dec_digits (Z.abs n)))))).

(** Splitting into comma-separated groups and joining them back. *)
Fixpoint join_commas (gs : list (list ascii)) : list ascii :=
  match gs with
  | [] => []
  | [g] => g
  | g :: gs' => g ++ ","%char :: join_commas gs'
  end.

(** ** Latest video table (lines 240-242) *)

(** [table_cols]: the date column is shown when the filtered table has it. *)
Definition table_cols (filtered : table) (date_col : string) : list string :=
  if has_col filtered date_col
  then ["title"; "views"; "likes"; "dislikes"; "comments"; date_col]
  else ["title"; "views"; "likes"; "dislikes"; "comments"].

(** [df[cs]]: [KeyError] ([None]) when one of the columns is missing. *)
Definition select_cols (t : table) (cs : list string) : option table :=
  if forallb (has_col t) cs
  then Some (mk_table cs (map (fun r => map (fun c => (c, get r c)) cs) (rows t)))
  else None.

(** [st.dataframe(filtered_videos[table_cols].reset_index(drop=True))] *)
Definition latest_table (filtered : table) (date_col : string) : option table :=
  select_cols filtered (table_cols filtered date_col).

(** ** Chart titles (lines 194 and 206) *)

(** [f"Top {top_n} Videos by Views"] and
    [f"Top {min(top_n, len(top_eng))} Videos by Engagement Rate"]: the
    numbers the two titles show. *)
Definition views_title_count (top_n : Z) : Z := top_n.
Definition eng_title_count (top_n : Z) (top_eng : table) : Z :=
  Z.min top_n (Z.of_nat (List.length (rows top_eng))).

(** ** Subscriber growth, monthly points (lines 170-185) *)

(** The calendar date of a day number (inverse of [days_from_civil]):
    year, month 1-12, day 1-31. *)
Definition civil_from_days (z : Z) : Z * Z * Z :=
  let z := z + 719468 in
  let era := z / 146097 in
  let doe := z - era * 146097 in
  let yoe := (doe - doe / 1460 + doe / 36524 - doe / 146096) / 365 in
  let y := yoe + era * 400 in
  let doy := doe - (365 * yoe + yoe / 4 - yoe / 100) in
  let mp := (5 * doy + 2) / 153 in
  let d := doy - (153 * mp + 2) / 5 + 1 in
  let m := if mp <? 10 then mp + 3 else mp - 9 in
  (if m <=? 2 then y + 1 else y, m, d).

(** [Series.dt.to_period("M")] on a timestamp: the ordinal of its month,
    months since 1970-01. *)
Definition month_of_ts (ts : Z) : Z :=
  let '(y, m, _) := civil_from_days (ts_date ts) in (y - 1970) * 12 + (m - 1).

(** [PeriodIndex.to_timestamp()]: midnight of the first day of the month. *)
Definition month_start (p : Z) : Z := days_from_civil (1970 + p / 12) (p mod 12 + 1) 1 * day_ns.

(** The sorted list of distinct group keys ([groupby] sorts its keys). *)
Fixpoint insert_key (k : Z) (l : list Z) : list Z :=
  match l with
  | [] => [k]
  | x :: l' => if k <? x then k :: l else if k =? x then l else x :: insert_key k l'
  end.

Definition group_keys (ks : list (option Z)) : list Z :=
  fold_left (fun acc k => match k with Some k => insert_key k acc | None => acc end) ks [].

(** [GroupBy.last()] on one group: its last non-null value, null if none. *)
Definition last_valid (vs : list cell) : cell :=
  fold_left (fun acc v => match v with CNull => acc | _ => v end) vs CNull.

(** Lines 171-185 as far as the data go:
<<
    if not channel_history_df.empty and "fetched_at" in channel_history_df.columns:
        ch = channel_history_df.copy()
        ch["fetched_at"] = pd.to_datetime(ch["fetched_at"])
        ...
        ch["month"] = ch["fetched_at"].dt.to_period("M")
        monthly_subs = ch.groupby("month")["subscribers"].last().reset_index()
        monthly_subs["month"] = monthly_subs["month"].dt.to_timestamp()
>>  The result is [None] if the conversion raises, [Some None] for the
    "No channel history" branch, and otherwise the points (month start,
    subscribers) of the monthly chart.  A snapshot with no timestamp has no
    month, and [groupby] leaves it out. *)
Definition monthly_subs (channel_history_df : table) : option (option (list (Z * cell))) :=
  if negb (df_empty channel_history_df) && has_col channel_history_df "fetched_at" then
    ch <- to_datetime_col channel_history_df "fetched_at" ;;
    let month r := match get r "fetched_at" with CTime t => Some (month_of_ts t) | _ => None end in
    let months := group_keys (map month (rows ch)) in
    if negb (has_col ch "subscribers") then None else
    Some (Some (map (fun p =>
      (month_start p,
       last_valid (map (fun r => get r "subscribers")
                       (filter (fun r => match month r with
                                         | Some q => Z.eqb q p | None => false end) (rows ch)))))
      months))
  else Some None.

(** A row whose column [c] is already what [pd.to_datetime] makes of it. *)
Definition converted (c : string) (r : row) : Prop :=
  In c (map fst r) /\ to_datetime_cell (get r c) = Some (get r c).

(** Checking a decidable property of the integers [lo], ..., [lo + n - 1]
    one by one; the calendar proofs use it over one 400-year cycle. *)
Fixpoint all_from (f : Z -> bool) (lo : Z) (n : nat) : bool :=
  match n with
  | O => true
  | S n' => f lo && all_from f (lo + 1) n'
  end.

(** ** Concrete inputs used by the witnesses and counterexamples *)

Definition video_cols : list string :=
  ["title"; "views"; "likes"; "dislikes"; "comments"; "published_at"].

Definition one_channel : table :=
  mk_table ["subscribers"; "total_views"; "total_videos"; "fetched_at"]
    [[("subscribers", CNum 1200); ("total_views", CNum 50000); ("total_videos", CNum 0);
      ("fetched_at", CStr "2024-01-05")]].

(** Two videos published on 2024-01-01 and 2024-01-03. *)
Definition two_videos : table :=
  mk_table video_cols
  [[("title", CStr "A"); ("views", CNum 100); ("likes", CNum 10); ("dislikes", CNum 1);
    ("comments", CStr "5"); ("published_at", CStr "2024-01-01")];
   [("title", CStr "B"); ("views", CNum 0); ("likes", CNum 0); ("dislikes", CNull);
    ("comments", CNum 0); ("published_at", CStr "2024-01-03")]].

Definition two_videos_store : store := mk_store one_channel one_channel two_videos.


(** Two videos, one of them with no publication date. *)
Definition dated_and_undated : table :=
  mk_table video_cols
  [[("title", CStr "A"); ("views", CNum 100); ("likes", CNum 10); ("dislikes", CNum 1);
    ("comments", CNum 5); ("published_at", CTime (days_from_civil 2024 1 1 * day_ns))];
   [("title", CStr "B"); ("views", CNum 7); ("likes", CNum 1); ("dislikes", CNum 0);
    ("comments", CNum 0); ("published_at", CNull)]].

(** Eighteen videos, one per day of January 2024, none of them viewed yet:
    every engagement rate is 0. *)
Definition tie_videos : table :=
  mk_table video_cols
  [
   [("title", CStr "v0"); ("views", CNum 0); ("likes", CNum 0); ("dislikes", CNum 0);
    ("comments", CNum 0); ("published_at", CStr "2024-01-01")];
   [("title", CStr "v1"); ("views", CNum 0); ("likes", CNum 0); ("dislikes", CNum 0);
    ("comments", CNum 0); ("published_at", CStr "2024-01-02")];
   [("title", CStr "v2"); ("views", CNum 0); ("likes", CNum 0); ("dislikes", CNum 0);
    ("comments", CNum 0); ("published_at", CStr "2024-01-03")];
   [("title", CStr "v3"); ("views", CNum 0); ("likes", CNum 0); ("dislikes", CNum 0);
    ("comments", CNum 0); ("published_at", CStr "2024-01-04")];
   [("title", CStr "v4"); ("views", CNum 0); ("likes", CNum 0); ("dislikes", CNum 0);
    ("comments", CNum 0); ("published_at", CStr "2024-01-05")];
   [("title", CStr "v5"); ("views", CNum 0); ("likes", CNum 0); ("dislikes", CNum 0);
    ("comments", CNum 0); ("published_at", CStr "2024-01-06")];
   [("title", CStr "v6"); ("views", CNum 0); ("likes", CNum 0); ("dislikes", CNum 0);
    ("comments", CNum 0); ("published_at", CStr "2024-01-07")];
   [("title", CStr "v7"); ("views", CNum 0); ("likes", CNum 0); ("dislikes", CNum 0);
    ("comments", CNum 0); ("published_at", CStr "2024-01-08")];
   [("title", CStr "v8"); ("views", CNum 0); ("likes", CNum 0); ("dislikes", CNum 0);
    ("comments", CNum 0); ("published_at", CStr "2024-01-09")];
   [("title", CStr "v9"); ("views", CNum 0); ("likes", CNum 0); ("dislikes", CNum 0);
    ("comments", CNum 0); ("published_at", CStr "2024-01-10")];
   [("title", CStr "v10"); ("views", CNum 0); ("likes", CNum 0); ("dislikes", CNum 0);
    ("comments", CNum 0); ("published_at", CStr "2024-01-11")];
   [("title", CStr "v11"); ("views", CNum 0); ("likes", CNum 0); ("dislikes", CNum 0);
    ("comments", CNum 0); ("published_at", CStr "2024-01-12")];
   [("title", CStr "v12"); ("views", CNum 0); ("likes", CNum 0); ("dislikes", CNum 0);
    ("comments", CNum 0); ("published_at", CStr "2024-01-13")];
   [("title", CStr "v13"); ("views", CNum 0); ("likes", CNum 0); ("dislikes", CNum 0);
    ("comments", CNum 0); ("published_at", CStr "2024-01-14")];
   [("title", CStr "v14"); ("views", CNum 0); ("likes", CNum 0); ("dislikes", CNum 0);
    ("comments", CNum 0); ("published_at", CStr "2024-01-15")];
   [("title", CStr "v15"); ("views", CNum 0); ("likes", CNum 0); ("dislikes", CNum 0);
    ("comments", CNum 0); ("published_at", CStr "2024-01-16")];
   [("title", CStr "v16"); ("views", CNum 0); ("likes", CNum 0); ("dislikes", CNum 0);
    ("comments", CNum 0); ("published_at", CStr "2024-01-17")];
   [("title", CStr "v17"); ("views", CNum 0); ("likes", CNum 0); ("dislikes", CNum 0);
    ("comments", CNum 0); ("published_at", CStr "2024-01-18")]].

Definition tie_store : store := mk_store one_channel one_channel tie_videos.

(** Five videos with distinct like counts. *)
Definition five_videos : table :=
  mk_table video_cols
  (map (fun k => [("title", CStr "v"); ("views", CNum (inject_Z (100 * k)));
                  ("likes", CNum (inject_Z k)); ("dislikes", CNum 0); ("comments", CNum 0);
                  ("published_at", CStr "2024-01-01")]) [1; 2; 3; 4; 5]).

Definition five_store : store := mk_store one_channel one_channel five_videos.

(** Channel snapshots over three months: two in January, two in February
    (the later one without a subscriber count), one in March without a
    count, and one without a timestamp. *)
Definition history : table :=
  mk_table ["subscribers"; "fetched_at"]
  [[("subscribers", CNum 100); ("fetched_at", CStr "2024-01-05")];
   [("subscribers", CNum 120); ("fetched_at", CStr "2024-01-20")];
   [("subscribers", CNum 150); ("fetched_at", CStr "2024-02-03")];
   [("subscribers", CNull); ("fetched_at", CStr "2024-02-29")];
   [("subscribers", CNull); ("fetched_at", CStr "2024-03-01")];
   [("subscribers", CNum 90); ("fetched_at", CNull)]].

(** * Proofs *)

Lemma get_put_same (r : row) (c : string) (v : cell) : get (put r c v) c = v.
Proof.
  induction r as [| [k w] r IH]; simpl.
  - now rewrite String.eqb_refl.
  - destruct (String.eqb_spec k c) as [-> | Hne]; simpl.
    + now rewrite String.eqb_refl.
    + apply String.eqb_neq in Hne. now rewrite Hne.
Qed.

Lemma get_put_other (r : row) (c d : string) (v : cell) :
  c <> d -> get (put r c v) d = get r d.
Proof.
  intros Hcd. induction r as [| [k w] r IH]; simpl.
  - apply String.eqb_neq in Hcd. now rewrite Hcd.
  - destruct (String.eqb_spec k c) as [-> | Hne]; simpl.
    + apply String.eqb_neq in Hcd. now rewrite Hcd.
    + now rewrite IH.
Qed.

Lemma mapM_Forall2 {B C} (f : B -> option C) (l : list B) (l' : list C) :
  mapM f l = Some l' -> Forall2 (fun x y => f x = Some y) l l'.
Proof.
  revert l'. induction l as [| x l IH]; simpl; intros l' H.
  - injection H as <-. constructor.
  - destruct (f x) as [y |] eqn:Ef; simpl in H; [| discriminate].
    destruct (mapM f l) as [ys |] eqn:Em; simpl in H; [| discriminate].
    injection H as <-. constructor; auto.
Qed.


Lemma Forall2_map_l {B C D} (R : C -> D -> Prop) (f : B -> C) (l : list B) (l' : list D) :
  Forall2 R (map f l) l' -> Forall2 (fun x y => R (f x) y) l l'.
Proof.
  revert l'. induction l as [| x l IH]; intros l' H; inversion H; subst; constructor; auto.
Qed.


Lemma Forall2_compose {A B C} (R : A -> B -> Prop) (S : B -> C -> Prop) (T : A -> C -> Prop)
  l1 l2 l3 :
  (forall a b c, R a b -> S b c -> T a c) ->
  Forall2 R l1 l2 -> Forall2 S l2 l3 -> Forall2 T l1 l3.
Proof.
  intros HT H12. revert l3. induction H12; intros l3 H23; inversion H23; subst; eauto.
Qed.


Lemma coerce_col_some (t t' : table) (c : string) :
  coerce_col t c = Some t' ->
  cols t' = (if has_col t c then cols t else cols t ++ [c]) /\
  Forall2 (fun r r' =>
    count_value t c r = NFin (num_value (get r' c)) /\ is_number (get r' c) = true /\
    forall d, c <> d -> get r' d = get r d)
    (rows t) (rows t').
Proof.
  unfold coerce_col, count_value. destruct (has_col t c) eqn:Hc; cbn [cols rows].
  - destruct (mapM _ (rows t)) as [rs |] eqn:Em; simpl; [| discriminate].
    intros H. injection H as <-. split; [reflexivity |]. simpl.
    apply mapM_Forall2 in Em. eapply Forall2_impl; [| exact Em].
    intros r r' Hr. cbv beta in Hr.
    destruct (fillna0_num (to_numeric_cell (get r c))) as [q | b |]; try discriminate.
    injection Hr as <-. rewrite get_put_same. split; [reflexivity |].
    split; [reflexivity |]. intros d Hd. now apply get_put_other.
  - destruct (mapM _ (map _ (rows t))) as [rs |] eqn:Em; simpl; [| discriminate].
    intros H. injection H as <-. split; [reflexivity |]. simpl.
    apply mapM_Forall2, Forall2_map_l in Em. eapply Forall2_impl; [| exact Em].
    intros r r' Hr. cbv beta in Hr. rewrite get_put_same in Hr. simpl in Hr.
    injection Hr as <-. rewrite get_put_same. split; [reflexivity |].
    split; [reflexivity |]. intros d Hd. now rewrite !get_put_other.
Qed.


Lemma has_col_coerce_col (t t' : table) (c d : string) :
  coerce_col t c = Some t' -> has_col t' d = has_col t d || String.eqb d c.
Proof.
  intros H. apply coerce_col_some in H as [Hc _]. unfold has_col in *. rewrite Hc.
  destruct (existsb (String.eqb c) (cols t)) eqn:Ec.
  - destruct (String.eqb_spec d c) as [-> | _]; [now rewrite Ec | now rewrite orb_false_r].
  - rewrite existsb_app. simpl. now rewrite orb_false_r.
Qed.





Lemma has_col_coerce_cols (cs : list string) (t t' : table) (d : string) :
  coerce_cols cs t = Some t' -> has_col t' d = has_col t d || existsb (String.eqb d) cs.
Proof.
  revert t. induction cs as [| c cs IH]; intros t; simpl.
  - intros H. injection H as <-. now rewrite orb_false_r.
  - destruct (coerce_col t c) as [t1 |] eqn:E1; simpl; [| discriminate]. intros H.
    rewrite (IH _ H), (has_col_coerce_col _ _ _ _ E1). now rewrite orb_assoc.
Qed.









Lemma sidebar_dates_has_col (t : table) (ui : option (list Z)) (sd ed : Z) :
  sidebar_dates t ui = Some (sd, ed) ->
  has_col t (date_col_of t) = true /\ all_null t (date_col_of t) = false.
Proof.
  unfold sidebar_dates.
  destruct (has_col t (date_col_of t)), (all_null t (date_col_of t)); simpl;
    intros H; try discriminate; auto.
Qed.

(** Claim C4.  When the date control yields start = end = D, the filtered
    table is exactly the rows whose timestamp in the chosen date column lies
    in [[D 00:00:00, D 23:59:59]]: the end bound reaches the last second of
    day D, not only its midnight. *)
Theorem filter_single_day (t : table) (ui : option (list Z)) (D : Z) :
  sidebar_dates t ui = Some (D, D) ->
  rows (filter_by_date t (date_col_of t) (sidebar_dates t ui)) =
  filter (fun r => match get r (date_col_of t) with
                   | CTime ts =>
                       (D * day_ns <=? ts) &&
                       (ts <=? D * day_ns + (23 * 3600 + 59 * 60 + 59) * sec_ns)
                   | _ => false
                   end) (rows t).
Proof.
  intros Hd. pose proof (sidebar_dates_has_col _ _ _ _ Hd) as [Hc _].
  rewrite Hd. unfold filter_by_date. rewrite Hc. simpl.
  apply filter_ext. intros r. unfold ts_ge, ts_le, date_ts.
  destruct (get r (date_col_of t)); try reflexivity.
  f_equal. unfold day_ns, sec_ns. f_equal. lia.
Qed.

(** Claim C9.  Once both dates are present (so the date column exists and is
    not entirely null), a row whose date cell is null is never kept by the
    date filter. *)
Theorem filter_drops_null_dates (t : table) (ui : option (list Z)) (sd ed : Z) (r : row) :
  sidebar_dates t ui = Some (sd, ed) ->
  In r (rows t) -> get r (date_col_of t) = CNull ->
  all_null t (date_col_of t) = false /\
  ~ In r (rows (filter_by_date t (date_col_of t) (Some (sd, ed)))).
Proof.
  intros Hd Hr Hnull. pose proof (sidebar_dates_has_col _ _ _ _ Hd) as [Hc Hn].
  split; [exact Hn |].
  unfold filter_by_date. rewrite Hc. simpl.
  rewrite filter_In, Hnull. simpl. intros [_ H]. discriminate.
Qed.

(** ** Sortedness and permutation toolkit *)

Section SortFacts.
Variable B : Type.
Variable R : B -> B -> Prop.

Lemma SS_app_inv_l (l1 l2 : list B) : StronglySorted R (l1 ++ l2) -> StronglySorted R l1.
Proof.
  induction l1 as [| a l1 IH]; simpl; intros H; [constructor |].
  inversion H as [| ? ? Hs Hf]; subst. constructor; [now apply IH |].
  rewrite Forall_forall in *. intros x Hx. apply Hf, in_or_app. now left.
Qed.

Lemma SS_app_in (l1 l2 : list B) x y :
  StronglySorted R (l1 ++ l2) -> In x l1 -> In y l2 -> R x y.
Proof.
  induction l1 as [| a l1 IH]; simpl; [tauto |].
  intros H Hx Hy. inversion H as [| ? ? Hs Hf]; subst.
  destruct Hx as [-> | Hx].
  - rewrite Forall_forall in Hf. apply Hf, in_or_app. now right.
  - now apply IH.
Qed.

Lemma SS_app (l1 l2 : list B) :
  StronglySorted R l1 -> StronglySorted R l2 ->
  (forall x y, In x l1 -> In y l2 -> R x y) -> StronglySorted R (l1 ++ l2).
Proof.
  induction l1 as [| a l1 IH]; simpl; intros H1 H2 H; auto.
  inversion H1 as [| ? ? Hs Hf]; subst. constructor.
  - apply IH; auto.
  - apply Forall_forall. intros z Hz. apply in_app_or in Hz as [Hz | Hz].
    + rewrite Forall_forall in Hf. now apply Hf.
    + apply H; simpl; auto.
Qed.

Lemma SS_impl_in (S : B -> B -> Prop) (l : list B) :
  (forall x y, In x l -> In y l -> R x y -> S x y) ->
  StronglySorted R l -> StronglySorted S l.
Proof.
  intros H Hs. induction Hs as [| a l Hs IH Hf]; constructor.
  - apply IH. intros x y Hx Hy. apply H; simpl; auto.
  - rewrite Forall_forall in *. intros x Hx. apply H; simpl; auto.
Qed.

Lemma SS_firstn (n : nat) (l : list B) : StronglySorted R l -> StronglySorted R (firstn n l).
Proof.
  intros H. rewrite <- (firstn_skipn n l) in H. eapply SS_app_inv_l; eauto.
Qed.

End SortFacts.

Lemma SS_rev {B} (R : B -> B -> Prop) (l : list B) :
  StronglySorted R l -> StronglySorted (fun x y => R y x) (rev l).
Proof.
  induction 1 as [| a l Hs IH Hf]; simpl; [constructor |].
  apply (SS_app B (fun x y => R y x)); auto.
  - repeat constructor.
  - intros x y Hx [<- | []]. apply in_rev in Hx. rewrite Forall_forall in Hf. now apply Hf.
Qed.

Lemma SS_map {B C} (R : C -> C -> Prop) (f : B -> C) (l : list B) :
  StronglySorted (fun x y => R (f x) (f y)) l -> StronglySorted R (map f l).
Proof.
  induction 1 as [| a l Hs IH Hf]; simpl; constructor; auto.
  rewrite Forall_forall in *. intros y Hy. apply in_map_iff in Hy as (x & <- & Hx). auto.
Qed.

Lemma sorted_asc_b_sound (key : nat -> Q) (l : list nat) :
  sorted_asc_b key l = true -> Sorted (fun x y => key x <= key y)%Q l.
Proof.
  induction l as [| x l IH]; simpl; intros H; [constructor |].
  destruct l as [| y l]; [repeat constructor |].
  apply andb_true_iff in H as [Hxy H]. constructor; [now apply IH |].
  constructor. now apply Qle_bool_iff.
Qed.

Lemma Qle_trans_rel (key : nat -> Q) : Transitive (fun x y => key x <= key y)%Q.
Proof. intros x y z; apply Qle_trans. Qed.

Lemma is_index_perm_sound (idx : list nat) (len : nat) :
  is_index_perm idx len = true -> Permutation (seq 0 len) idx.
Proof.
  unfold is_index_perm. intros H. apply andb_true_iff in H as [Hl Hin].
  apply Nat.eqb_eq in Hl. apply NoDup_Permutation_bis.
  - apply seq_NoDup.
  - rewrite length_seq. lia.
  - intros i Hi. rewrite forallb_forall in Hin. specialize (Hin i Hi).
    apply existsb_exists in Hin as (j & Hj & Heq). apply Nat.eqb_eq in Heq. now subst.
Qed.

Lemma length_filter_perm {B} (f : B -> bool) (l l' : list B) :
  Permutation l l' -> List.length (filter f l) = List.length (filter f l').
Proof.
  induction 1; simpl; auto.
  - destruct (f x); simpl; auto.
  - destruct (f x), (f y); simpl; auto.
  - congruence.
Qed.

Lemma keys_length (t : table) (c : string) : List.length (keys t c) = List.length (rows t).
Proof. unfold keys. apply length_map. Qed.

Lemma in_firstn_in {B} (n : nat) (l : list B) x : In x (firstn n l) -> In x l.
Proof. intros H. rewrite <- (firstn_skipn n l). apply in_or_app. now left. Qed.

Lemma NoDup_firstn' {B} (n : nat) (l : list B) : NoDup l -> NoDup (firstn n l).
Proof. intros H. rewrite <- (firstn_skipn n l) in H. eapply NoDup_app_remove_r; eauto. Qed.

(** Taking the first [n] entries of a permutation of the row indices listed
    in non-increasing order of [c] meets [top_spec]. *)
Lemma prefix_top_spec (t : table) (c : string) (n : nat) (idx : list nat) :
  Permutation (seq 0 (List.length (rows t))) idx ->
  StronglySorted (fun i j => nth j (keys t c) 0 <= nth i (keys t c) 0)%Q idx ->
  top_spec t c n (take_rows t (firstn n idx)).
Proof.
  intros Hp Hs. unfold top_spec, take_rows. cbv zeta. simpl.
  assert (Hnd : NoDup idx) by (eapply Permutation_NoDup; [exact Hp | apply seq_NoDup]).
  assert (Hin : forall i, In i idx -> (i < List.length (rows t))%nat).
  { intros i Hi. apply Permutation_sym in Hp. apply (Permutation_in _ Hp) in Hi.
    apply in_seq in Hi. lia. }
  exists (firstn n idx). repeat split.
  - now apply NoDup_firstn'.
  - rewrite length_firstn, <- (Permutation_length Hp), length_seq. reflexivity.
  - intros i Hi. apply Hin. eapply in_firstn_in; eauto.
  - apply StronglySorted_Sorted. now apply SS_firstn.
  - intros i j Hi Hj Hnj.
    assert (Hj' : In j idx).
    { apply (Permutation_in _ Hp). apply in_seq. lia. }
    rewrite <- (firstn_skipn n idx) in Hj', Hs.
    apply in_app_or in Hj' as [Hj' | Hj']; [contradiction |].
    exact (SS_app_in _ _ _ _ _ _ Hs Hi Hj').
Qed.

Lemma nth_rev_seq (len k : nat) : (k < len)%nat -> nth k (rev (seq 0 len)) 0%nat = (len - S k)%nat.
Proof.
  intros Hk. rewrite rev_nth by (rewrite length_seq; lia).
  rewrite length_seq, seq_nth by lia. lia.
Qed.

(** pandas' [nargsort(..., ascending=False)] turns any argsort meeting
    numpy's contract on the reversed items into a permutation of the row
    indices in non-increasing order of the items. *)
Lemma nargsort_desc_sorted (argsort : list Q -> list nat) (ks : list Q) :
  argsort_ok (argsort (rev ks)) (rev ks) = true ->
  Permutation (seq 0 (List.length ks)) (nargsort_desc argsort ks) /\
  StronglySorted (fun i j => nth j ks 0 <= nth i ks 0)%Q (nargsort_desc argsort ks).
Proof.
  unfold argsort_ok, nargsort_desc. rewrite length_rev.
  set (len := List.length ks). set (s := argsort (rev ks)).
  intros H. apply andb_true_iff in H as [Hp Hs].
  apply is_index_perm_sound in Hp. apply sorted_asc_b_sound in Hs.
  apply Sorted_StronglySorted in Hs; [| apply Qle_trans_rel].
  assert (Hr : forall k, In k s -> (k < len)%nat).
  { intros k Hk. apply Permutation_sym in Hp. apply (Permutation_in _ Hp) in Hk.
    apply in_seq in Hk. lia. }
  assert (Hmap : map (fun k => nth k (rev (seq 0 len)) 0%nat) s = map (fun k => (len - S k)%nat) s).
  { apply map_ext_in. intros k Hk. apply nth_rev_seq, Hr, Hk. }
  rewrite Hmap. split.
  - apply Permutation_trans with (map (fun k => (len - S k)%nat) s);
      [| apply Permutation_rev].
    apply NoDup_Permutation_bis.
    + apply seq_NoDup.
    + rewrite length_map, <- (Permutation_length Hp), length_seq. lia.
    + intros i Hi. apply in_seq in Hi. apply in_map_iff. exists (len - S i)%nat.
      split; [lia |]. apply (Permutation_in _ Hp). apply in_seq. lia.
  - apply (SS_rev (fun i j => nth i ks 0 <= nth j ks 0)%Q).
    apply SS_map. eapply SS_impl_in; [| exact Hs].
    intros x y Hx Hy. apply Hr in Hx, Hy.
    cbv beta. rewrite !rev_nth by (unfold len in *; lia). fold len. auto.
Qed.

(** ** The stable sort and the k-th smallest value *)

Lemma insert_by_perm {B} (key : B -> Q) (x : B) (l : list B) :
  Permutation (x :: l) (insert_by key x l).
Proof.
  induction l as [| y l IH]; simpl; [auto |].
  destruct (Qltb (key x) (key y)); [auto |].
  eapply Permutation_trans; [apply perm_swap | constructor; exact IH].
Qed.

Lemma Qltb_false (x y : Q) : Qltb x y = false -> (y <= x)%Q.
Proof. unfold Qltb. intros H. apply negb_false_iff, Qle_bool_iff in H. exact H. Qed.

Lemma Qltb_true (x y : Q) : Qltb x y = true -> (x <= y)%Q.
Proof.
  unfold Qltb. intros H. apply negb_true_iff in H.
  apply Qlt_le_weak, Qnot_le_lt. intros Hle. apply Qle_bool_iff in Hle. congruence.
Qed.

Lemma insert_by_sorted {B} (key : B -> Q) (x : B) (l : list B) :
  StronglySorted (fun a b => key a <= key b)%Q l ->
  StronglySorted (fun a b => key a <= key b)%Q (insert_by key x l).
Proof.
  induction l as [| y l IH]; simpl; intros H; [repeat constructor |].
  inversion H as [| ? ? Hs Hf]; subst.
  destruct (Qltb (key x) (key y)) eqn:E.
  - apply Qltb_true in E. constructor; [exact H |].
    constructor; [exact E |]. rewrite Forall_forall in *.
    intros z Hz. eapply Qle_trans; [exact E | auto].
  - apply Qltb_false in E. constructor; [now apply IH |].
    rewrite Forall_forall in *. intros z Hz.
    apply (Permutation_in _ (Permutation_sym (insert_by_perm key x l))) in Hz.
    destruct Hz as [<- | Hz]; auto.
Qed.

Lemma stable_sort_by_spec {B} (key : B -> Q) (l : list B) :
  Permutation l (stable_sort_by key l) /\
  StronglySorted (fun a b => key a <= key b)%Q (stable_sort_by key l).
Proof.
  unfold stable_sort_by.
  assert (G : forall acc, StronglySorted (fun a b => key a <= key b)%Q acc ->
    Permutation (l ++ acc) (fold_left (fun acc x => insert_by key x acc) l acc) /\
    StronglySorted (fun a b => key a <= key b)%Q
      (fold_left (fun acc x => insert_by key x acc) l acc)).
  { induction l as [| x l IH]; simpl; intros acc Hacc; [auto |].
    destruct (IH (insert_by key x acc)) as [Hp Hs]; [now apply insert_by_sorted |].
    split; [| exact Hs].
    eapply Permutation_trans; [| exact Hp].
    eapply Permutation_trans; [apply Permutation_middle |].
    apply Permutation_app_head, insert_by_perm. }
  destruct (G [] (SSorted_nil _)) as [Hp Hs]. rewrite app_nil_r in Hp. auto.
Qed.

Lemma skipn_nth {B} (l : list B) (k : nat) (d : B) :
  (k < List.length l)%nat -> skipn k l = nth k l d :: skipn (S k) l.
Proof.
  revert k. induction l as [| x l IH]; intros [| k] Hk; simpl in *; try lia; auto.
  apply IH. lia.
Qed.

Lemma filter_all {B} (f : B -> bool) (l : list B) :
  (forall x, In x l -> f x = true) -> filter f l = l.
Proof.
  induction l as [| x l IH]; simpl; intros H; auto.
  rewrite H by auto. f_equal. auto.
Qed.

(** At least [k+1] values are [<=] the k-th smallest one. *)
Lemma kth_smallest_count (arr : list Q) (k : nat) :
  (k < List.length arr)%nat ->
  (S k <= List.length (filter (fun q => Qle_bool q (kth_smallest arr k)) arr))%nat.
Proof.
  intros Hk. unfold kth_smallest.
  destruct (stable_sort_by_spec id arr) as [Hp Hs].
  set (sl := stable_sort_by id arr) in *.
  rewrite (length_filter_perm _ _ _ Hp).
  assert (Hlen : List.length sl = List.length arr) by (symmetry; now apply Permutation_length).
  set (kth := nth k sl 0%Q).
  assert (Hall : filter (fun q => Qle_bool q kth) (firstn (S k) sl) = firstn (S k) sl).
  { apply filter_all. intros q Hq. apply Qle_bool_iff. unfold kth.
    pose proof (firstn_skipn k sl) as Hsplit. rewrite (skipn_nth sl k 0%Q) in Hsplit by lia.
    assert (Hfs : firstn (S k) sl = firstn k sl ++ [nth k sl 0%Q]).
    { rewrite <- Hsplit at 1. rewrite firstn_app, length_firstn.
      replace (S k - Nat.min k (List.length sl))%nat with 1%nat by lia.
      rewrite firstn_all2 by (rewrite length_firstn; lia). reflexivity. }
    rewrite Hfs in Hq. apply in_app_or in Hq as [Hq | [<- | []]]; [| apply Qle_refl].
    rewrite <- Hsplit in Hs.
    exact (SS_app_in _ _ _ _ _ _ Hs Hq (or_introl eq_refl)). }
  rewrite <- (firstn_skipn (S k) sl). rewrite filter_app, length_app.
  rewrite Hall, length_firstn. lia.
Qed.

Lemma length_filter_map {B C} (g : C -> bool) (h : B -> C) (l : list B) :
  List.length (filter g (map h l)) = List.length (filter (fun x => g (h x)) l).
Proof. induction l as [| x l IH]; simpl; [auto |]. destruct (g (h x)); simpl; auto. Qed.

Lemma length_filter_seq_nth {B} (f : B -> bool) (l : list B) (d : B) :
  List.length (filter (fun i => f (nth i l d)) (seq 0 (List.length l))) =
  List.length (filter f l).
Proof.
  induction l as [| x l IH]; simpl; [auto |].
  destruct (f x); simpl; rewrite <- seq_shift, length_filter_map; simpl; auto.
Qed.

Lemma nth_map_opp (ks : list Q) (i : nat) : nth i (map Qopp ks) 0%Q = Qopp (nth i ks 0%Q).
Proof. exact (map_nth Qopp ks 0%Q i). Qed.

Lemma Qopp_le_rev (x y : Q) : (- x <= - y)%Q -> (y <= x)%Q.
Proof. unfold Qle. simpl. lia. Qed.

(** ** The two top-N selections meet [top_spec] *)

Lemma head_take_rows (n : nat) (t : table) (idx : list nat) :
  head n (take_rows t idx) = take_rows t (firstn n idx).
Proof. unfold head, take_rows. simpl. now rewrite firstn_map. Qed.

(** [df.sort_values(c, ascending=False).head(n)], given that numpy's
    quicksort argsort returns a sorting permutation on this input. *)
Lemma sort_head_spec (t : table) (c : string) (n : nat) :
  argsort_ok (np_argsort_quicksort (rev (keys t c))) (rev (keys t c)) = true ->
  top_spec t c n (head n (sort_values_desc t c)).
Proof.
  intros H. unfold sort_values_desc. rewrite head_take_rows.
  destruct (nargsort_desc_sorted _ _ H) as [Hp Hs].
  rewrite keys_length in Hp. now apply prefix_top_spec.
Qed.

Lemma nlargest_fast_spec (t : table) (c : string) (n : nat) :
  (0 < n)%nat -> (n < List.length (rows t))%nat ->
  let arr := map Qopp (keys t c) in
  let kth_val := kth_smallest arr (n - 1) in
  let ns := filter (fun i => Qle_bool (nth i arr 0%Q) kth_val)
              (seq 0 (List.length (keys t c))) in
  top_spec t c n (take_rows t (firstn n (stable_sort_by (fun i => nth i arr 0%Q) ns))).
Proof.
  intros Hn0 Hnl arr kth_val ns.
  set (a := fun i => nth i arr 0%Q).
  set (inds := stable_sort_by a ns).
  assert (Ha : forall i, a i = Qopp (nth i (keys t c) 0%Q)) by (intros i; apply nth_map_opp).
  assert (Harr : List.length arr = List.length (rows t)).
  { unfold arr. now rewrite length_map, keys_length. }
  destruct (stable_sort_by_spec a ns) as [Hp Hs]. fold inds in Hp, Hs.
  assert (Hns : forall i, In i ns <-> (i < List.length (rows t))%nat /\ (a i <= kth_val)%Q).
  { intros i. unfold ns. rewrite filter_In, in_seq, keys_length, Qle_bool_iff.
    split; intros [H1 H2]; split; auto; lia. }
  assert (Hcount : (n <= List.length ns)%nat).
  { unfold ns. rewrite keys_length, <- Harr.
    pose proof (length_filter_seq_nth (fun q => Qle_bool q kth_val) arr 0%Q) as E.
    cbv beta in E. rewrite E.
    pose proof (kth_smallest_count arr (n - 1) ltac:(lia)) as K.
    unfold kth_val. lia. }
  assert (Hnd : NoDup inds).
  { eapply Permutation_NoDup; [exact Hp |]. apply NoDup_filter, seq_NoDup. }
  assert (Hin : forall i, In i inds -> In i ns).
  { intros i Hi. exact (Permutation_in _ (Permutation_sym Hp) Hi). }
  unfold top_spec, take_rows. cbv zeta. simpl.
  exists (firstn n inds). repeat split.
  - now apply NoDup_firstn'.
  - rewrite length_firstn, <- (Permutation_length Hp). lia.
  - intros i Hi. apply in_firstn_in, Hin, Hns in Hi. tauto.
  - apply StronglySorted_Sorted, SS_firstn.
    eapply SS_impl_in; [| exact Hs]. intros x y _ _ Hxy.
    change (a x <= a y)%Q in Hxy. rewrite !Ha in Hxy. now apply Qopp_le_rev.
  - intros i j Hi Hj Hnj.
    assert (Hi' : In i ns) by (apply Hin; eapply in_firstn_in; eauto).
    apply Hns in Hi' as [_ Hik].
    assert (Hij : (a i <= a j)%Q).
    { destruct (Qle_bool (a j) kth_val) eqn:E.
      - assert (Hj' : In j inds).
        { apply (Permutation_in _ Hp). apply Hns. split; [exact Hj |]. now apply Qle_bool_iff. }
        rewrite <- (firstn_skipn n inds) in Hj', Hs.
        apply in_app_or in Hj' as [Hj' | Hj']; [contradiction |].
        exact (SS_app_in _ _ _ _ _ _ Hs Hi Hj').
      - eapply Qle_trans; [exact Hik |]. apply Qlt_le_weak, Qnot_le_lt.
        intros Hle. apply Qle_bool_iff in Hle. congruence. }
    rewrite !Ha in Hij. now apply Qopp_le_rev.
Qed.

Lemma nlargest_spec (t : table) (c : string) (n : nat) :
  argsort_ok (np_argsort_quicksort (rev (keys t c))) (rev (keys t c)) = true ->
  top_spec t c n (nlargest n t c).
Proof.
  intros H. unfold nlargest. pose proof (keys_length t c) as Hk.
  destruct (Nat.eqb_spec n 0) as [-> | Hn0].
  - unfold top_spec, head. cbv zeta. simpl. exists [].
    repeat split; simpl; try solve [constructor | intros; tauto | reflexivity].
  - destruct (Nat.leb_spec (List.length (keys t c)) n) as [Hle | Hlt].
    + now apply sort_head_spec.
    + apply nlargest_fast_spec; lia.
Qed.

(** ** numpy's quicksort returns as many indices as items *)

Lemma upd_length (a : list nat) (i x : nat) : List.length (upd a i x) = List.length a.
Proof.
  revert i. induction a as [| y a IH]; intros [| i]; simpl; auto.
Qed.

Lemma swap_length (a : list nat) (i j : nat) : List.length (swap a i j) = List.length a.
Proof. unfold swap. now rewrite !upd_length. Qed.

Section ArgsortLength.
Variable A : Type.
Variable less : A -> A -> bool.
Variable v : list A.
Variable dflt : A.

Lemma part_loop_length fuel a vp pi pj :
  List.length (fst (part_loop A less v dflt fuel a vp pi pj)) = List.length a.
Proof.
  revert a pi pj. induction fuel as [| f IH]; intros a pi pj; simpl; auto.
  destruct (_ <=? _)%nat; simpl; auto. rewrite IH. apply swap_length.
Qed.

Lemma partition_length fuel a pl pr :
  List.length (fst (partition A less v dflt fuel a pl pr)) = List.length a.
Proof.
  unfold partition.
  set (a1 := if less _ _ then _ else a).
  set (a2 := if less _ _ then _ else a1).
  set (a3 := if less _ _ then _ else a2).
  assert (E : List.length a3 = List.length a).
  { unfold a3, a2, a1. repeat (destruct (less _ _)); rewrite ?swap_length; reflexivity. }
  destruct (part_loop _ _ _ _ _ _ _ _ _) as [a4 pi] eqn:Hp. simpl.
  rewrite swap_length.
  pose proof (part_loop_length fuel (swap a3 (pl + (pr - pl) / 2) (pr - 1)) (val A v dflt a3 (pl + (pr - pl) / 2)) pl (pr - 1)) as L.
  rewrite Hp in L. simpl in L. now rewrite L, swap_length.
Qed.

Lemma qs_inner_length fuel a pl pr stk cdepth :
  List.length (fst (fst (fst (qs_inner A less v dflt fuel a pl pr stk cdepth)))) = List.length a.
Proof.
  revert a pl pr stk cdepth. induction fuel as [| f IH]; intros a pl pr stk cdepth; simpl; auto.
  destruct (_ <? _)%nat; simpl; auto.
  pose proof (partition_length (S f) a pl pr) as L.
  destruct (partition _ _ _ _ _ a pl pr) as [a' pi]. simpl in L.
  destruct (_ <? _)%nat; rewrite IH; exact L.
Qed.

Lemma ins_shift_length fuel a vp pj pl vi :
  List.length (ins_shift A less v dflt fuel a vp pj pl vi) = List.length a.
Proof.
  revert a pj. induction fuel as [| f IH]; intros a pj; simpl.
  - apply upd_length.
  - destruct (_ && _); [rewrite IH |]; apply upd_length.
Qed.

Lemma ins_sort_length a pl pr :
  List.length (ins_sort A less v dflt a pl pr) = List.length a.
Proof.
  unfold ins_sort. generalize (seq (S pl) (pr - pl)) as l. intros l. revert a.
  induction l as [| p l IH]; intros a; simpl; auto. rewrite IH. apply ins_shift_length.
Qed.

Lemma sift_length fuel a pl n tmp i j :
  List.length (sift A less v dflt fuel a pl n tmp i j) = List.length a.
Proof.
  revert a i j. induction fuel as [| f IH]; intros a i j; simpl.
  - apply upd_length.
  - unfold hset. destruct (j <=? n)%nat; [| apply upd_length].
    destruct (less _ _); [rewrite IH |]; apply upd_length.
Qed.

Lemma aheapsort_length a pl n :
  List.length (aheapsort A less v dflt a pl n) = List.length a.
Proof.
  unfold aheapsort.
  generalize (rev (seq 2 (n - 1))) as l2. generalize (rev (seq 1 (n / 2))) as l1.
  intros l1 l2.
  assert (E1 : forall l a, List.length (fold_left (fun a l0 =>
     sift A less v dflt n a pl n (hget a pl l0) l0 (l0 + l0)) l a) = List.length a).
  { induction l as [| x l IH]; intros a'; simpl; auto. rewrite IH. apply sift_length. }
  assert (E2 : forall l a, List.length (fold_left (fun a k =>
     let tmp := hget a pl k in
     let a := hset a pl k (hget a pl 1) in
     sift A less v dflt k a pl (k - 1) tmp 1 2) l a) = List.length a).
  { induction l as [| x l IH]; intros a'; simpl; auto. rewrite IH, sift_length.
    apply upd_length. }
  now rewrite E2, E1.
Qed.

Lemma qs_outer_length fuel a pl pr stk cdepth :
  List.length (qs_outer A less v dflt fuel a pl pr stk cdepth) = List.length a.
Proof.
  revert a pl pr stk cdepth. induction fuel as [| f IH]; intros a pl pr stk cdepth;
    [reflexivity |].
  assert (E : forall a' stk', List.length a' = List.length a ->
    List.length (match stk' with
                 | [] => a'
                 | (pl0, pr0, cd) :: stk0 => qs_outer A less v dflt f a' pl0 pr0 stk0 cd
                 end) = List.length a).
  { intros a' [| [[pl0 pr0] cd] stk0] H; auto. now rewrite IH. }
  cbn [qs_outer]. destruct (cdepth <? 0).
  - apply E. apply aheapsort_length.
  - pose proof (qs_inner_length (S f) a pl pr stk cdepth) as L.
    destruct (qs_inner _ _ _ _ (S f) a pl pr stk cdepth) as [[[a' pl'] pr'] stk'].
    simpl in L. apply E. now rewrite ins_sort_length.
Qed.

Lemma aquicksort_length : List.length (aquicksort A less v dflt) = List.length v.
Proof. unfold aquicksort. now rewrite qs_outer_length, length_seq. Qed.

End ArgsortLength.

(** ** numpy's introsort returns a sorted permutation *)

Ltac eqb_dec :=
  repeat match goal with
  | |- context [Nat.eqb ?x ?y] =>
      lazymatch x with context [Nat.eqb _ _] => fail | _ =>
      lazymatch y with context [Nat.eqb _ _] => fail | _ =>
        destruct (Nat.eqb_spec x y); cbv beta iota; try lia end end
  end.

Section IndexArray.
Local Open Scope nat_scope.

Lemma div2_spec c : 2 * (c / 2) <= c <= 2 * (c / 2) + 1.
Proof. pose proof (Nat.div_mod_eq c 2). pose proof (Nat.mod_upper_bound c 2). lia. Qed.

Lemma at_upd (a : list nat) i x k :
  i < List.length a -> at_ (upd a i x) k = if k =? i then x else at_ a k.
Proof.
  unfold at_. revert i k. induction a as [| y a IH]; intros i k Hi; simpl in Hi; [lia |].
  destruct i as [| i], k as [| k]; simpl; auto. apply IH. lia.
Qed.

Lemma at_swap (a : list nat) i j k :
  i < List.length a -> j < List.length a ->
  at_ (swap a i j) k = at_ a (if k =? j then i else if k =? i then j else k).
Proof.
  intros Hi Hj. unfold swap. rewrite at_upd by (rewrite upd_length; lia).
  rewrite at_upd by lia.
  destruct (Nat.eqb_spec k j); [reflexivity |]. destruct (Nat.eqb_spec k i); reflexivity.
Qed.

Lemma list_eq_at (a b : list nat) :
  List.length a = List.length b -> (forall k, k < List.length a -> at_ a k = at_ b k) -> a = b.
Proof. intros Hl H. apply (nth_ext a b 0 0 Hl). exact H. Qed.

Lemma upd_same (a : list nat) i : i < List.length a -> upd a i (at_ a i) = a.
Proof.
  intros Hi. apply list_eq_at; [apply upd_length |]. intros k Hk.
  rewrite upd_length in Hk. rewrite at_upd by lia.
  destruct (Nat.eqb_spec k i); subst; reflexivity.
Qed.

(** Moving the hole: [*pj = *pk; pj = pk] on the array with [x] at [pj]. *)
Lemma swap_hole (a : list nat) p q x :
  p < List.length a -> q < List.length a -> p <> q ->
  swap (upd a p x) p q = upd (upd a p (at_ a q)) q x.
Proof.
  intros Hp Hq Hpq. apply list_eq_at; [now rewrite swap_length, !upd_length |].
  intros k Hk. rewrite swap_length, upd_length in Hk.
  rewrite at_swap by (rewrite upd_length; lia).
  rewrite !at_upd by (rewrite ?upd_length; lia).
  eqb_dec; congruence.
Qed.

Lemma swaps_length l r a b : swaps l r a b -> List.length b = List.length a.
Proof. induction 1; auto. now rewrite swap_length. Qed.

Lemma swaps_out l r a b :
  r < List.length a -> swaps l r a b -> forall k, (k < l \/ r < k) -> at_ b k = at_ a k.
Proof.
  intros Hr. induction 1 as [| b i j Hi Hj Hs IH]; intros k Hk; auto.
  pose proof (swaps_length _ _ _ _ Hs).
  rewrite at_swap by lia.
  rewrite (proj2 (Nat.eqb_neq k j)), (proj2 (Nat.eqb_neq k i)) by lia. auto.
Qed.

Lemma swaps_fwd l r a b :
  r < List.length a -> swaps l r a b ->
  forall k, l <= k <= r -> exists k', l <= k' <= r /\ at_ b k = at_ a k'.
Proof.
  intros Hr. induction 1 as [| b i j Hi Hj Hs IH]; intros k Hk; eauto.
  pose proof (swaps_length _ _ _ _ Hs).
  rewrite at_swap by lia.
  destruct (k =? j); [apply IH; lia |]. destruct (k =? i); apply IH; lia.
Qed.

Lemma swaps_bwd l r a b :
  r < List.length a -> swaps l r a b ->
  forall k', l <= k' <= r -> exists k, l <= k <= r /\ at_ b k = at_ a k'.
Proof.
  intros Hr. induction 1 as [| b i j Hi Hj Hs IH]; intros k' Hk'; eauto.
  pose proof (swaps_length _ _ _ _ Hs).
  destruct (IH k' Hk') as (k & Hk & Heq).
  exists (if k =? j then i else if k =? i then j else k). split.
  - destruct (k =? j); [lia |]. destruct (k =? i); lia.
  - rewrite at_swap by lia. rewrite <- Heq. f_equal. eqb_dec; lia.
Qed.

Lemma swaps_trans l r a b c : swaps l r a b -> swaps l r b c -> swaps l r a c.
Proof. intros Hab Hbc. induction Hbc; auto. econstructor; eauto. Qed.

Lemma swaps_widen l r l' r' a b : l' <= l -> r <= r' -> swaps l r a b -> swaps l' r' a b.
Proof. intros Hl Hr. induction 1; econstructor; eauto; lia. Qed.

Lemma swaps_one l r a i j : l <= i <= r -> l <= j <= r -> swaps l r a (swap a i j).
Proof. intros. econstructor; eauto. constructor. Qed.

End IndexArray.

Ltac half_facts :=
  repeat match goal with
  | |- context [Nat.div ?c 2%nat] =>
      lazymatch goal with _ : (2 * (c / 2) <= c <= _)%nat |- _ => fail | _ => pose proof (div2_spec c) end
  | _ : context [Nat.div ?c 2%nat] |- _ =>
      lazymatch goal with _ : (2 * (c / 2) <= c <= _)%nat |- _ => fail | _ => pose proof (div2_spec c) end
  end.

Section QsCorrect.
Local Open Scope nat_scope.
Variable A : Type.
Variable less : A -> A -> bool.
Variable v : list A.
Variable dflt : A.
Hypothesis less_irrefl : forall x, less x x = false.
Hypothesis less_trans : forall x y z, less x y = true -> less y z = true -> less x z = true.
Hypothesis le_trans : forall x y z, less y x = false -> less z y = false -> less z x = false.

Local Abbreviation vl := (val A v dflt).
Local Abbreviation lq := (le_ A less).

Lemma lq_refl x : lq x x.
Proof. apply less_irrefl. Qed.

Lemma lq_of_less x y : less x y = true -> lq x y.
Proof.
  unfold le_. intros H. destruct (less y x) eqn:E; auto.
  pose proof (less_trans _ _ _ H E). now rewrite less_irrefl in H0.
Qed.

Lemma lq_trans x y z : lq x y -> lq y z -> lq x z.
Proof. unfold le_. intros H1 H2. exact (le_trans _ _ _ H1 H2). Qed.

Lemma val_swap a i j k :
  i < List.length a -> j < List.length a ->
  vl (swap a i j) k = vl a (if k =? j then i else if k =? i then j else k).
Proof. intros. unfold val. now rewrite at_swap. Qed.

Lemma val_upd a i x k :
  i < List.length a -> vl (upd a i x) k = if k =? i then nth x v dflt else vl a k.
Proof. intros. unfold val. rewrite at_upd by auto. now destruct (k =? i). Qed.

Lemma swaps_val_out l r a b :
  r < List.length a -> swaps l r a b -> forall k, (k < l \/ r < k) -> vl b k = vl a k.
Proof. intros. unfold val. now rewrite (swaps_out l r a b). Qed.

Lemma swaps_val_fwd l r a b :
  r < List.length a -> swaps l r a b ->
  forall k, l <= k <= r -> exists k', l <= k' <= r /\ vl b k = vl a k'.
Proof.
  intros Hr Hs k Hk. destruct (swaps_fwd l r a b Hr Hs k Hk) as (k' & ? & E).
  exists k'. unfold val. now rewrite E.
Qed.

Lemma segs_disj_app (N R : list (nat * nat)) :
  segs_disj N -> segs_disj R -> (forall s t, In s N -> In t R -> apart s t) ->
  segs_disj (N ++ R).
Proof.
  induction N as [| s N IH]; simpl; auto. intros [Hf Hd] HR Hap. split.
  - apply Forall_app. split; auto. apply Forall_forall. intros t Ht. auto.
  - apply IH; auto.
Qed.

Lemma same_seg_app N R i j : same_seg (N ++ R) i j <-> same_seg N i j \/ same_seg R i j.
Proof.
  unfold same_seg. split.
  - intros (s & Hs & H). apply in_app_or in Hs as [Hs | Hs]; [left | right]; eauto.
  - intros [(s & Hs & H) | (s & Hs & H)]; exists s; split; auto; apply in_or_app; auto.
Qed.

(** Sorting or partitioning the first pending range keeps the invariant. *)
Lemma inv_process n a b l r rest N :
  qs_inv A less v dflt n a ((l, r) :: rest) ->
  swaps l r a b ->
  Forall (fun s => l <= fst s /\ fst s <= snd s /\ snd s <= r) N ->
  segs_disj N ->
  (forall i j, l <= i -> i < j -> j <= r -> ~ same_seg N i j -> lq (vl b i) (vl b j)) ->
  qs_inv A less v dflt n b (N ++ rest).
Proof.
  intros (Hlen & Hsurj & Hb & Hd & Hord) Hs HN HdN Hnew.
  inversion Hb as [| ? ? [Hlr Hrn] Hbr]; subst. simpl in Hlr, Hrn.
  destruct Hd as [Hap Hdr].
  assert (Hr : r < List.length a) by lia.
  pose proof (swaps_length _ _ _ _ Hs) as Hlb.
  rewrite Forall_forall in HN, Hap.
  assert (Hnot_old : forall i j, i < j -> ~ same_seg ((l, r) :: rest) i j ->
            ~ (l <= i /\ j <= r)).
  { intros i j Hij Hns [Hi Hj]. apply Hns. exists (l, r). simpl. auto. }
  split; [lia |]. split; [| split; [| split]].
  - intros x Hx. destruct (Hsurj x Hx) as (k & Hk & E).
    destruct (Nat.le_gt_cases l k) as [Hlk |]; [destruct (Nat.le_gt_cases k r) |].
    + destruct (swaps_bwd l r a b Hr Hs k) as (k' & Hk' & E'); [lia |].
      exists k'. split; [lia | congruence].
    + exists k. split; auto. rewrite (swaps_out l r a b Hr Hs); auto.
    + exists k. split; auto. rewrite (swaps_out l r a b Hr Hs); auto.
  - apply Forall_app. split; auto. apply Forall_forall. intros s Hs'.
    specialize (HN s Hs'). lia.
  - apply segs_disj_app; auto. intros s t Hs' Ht.
    specialize (HN s Hs'). specialize (Hap t Ht). unfold apart in *. simpl in *. lia.
  - intros i j Hij Hns. rewrite same_seg_app in Hns.
    assert (HnsR : ~ same_seg rest i j) by tauto.
    assert (HnsN : ~ same_seg N i j) by tauto.
    (* [t] in [rest] meets [l .. r] only if it is apart *)
    assert (Hrest : forall k1 k2, l <= k1 <= r \/ l <= k2 <= r -> ~ same_seg rest k1 k2 \/ k1 > k2).
    { intros k1 k2 Hk. destruct (Nat.le_gt_cases k1 k2); [left | right; lia].
      intros (t & Ht & Ht1 & Ht2). specialize (Hap t Ht). unfold apart in Hap. simpl in Hap. lia. }
    destruct (Nat.le_gt_cases l i) as [Hli | Hli];
    destruct (Nat.le_gt_cases j r) as [Hjr | Hjr].
    + apply Hnew; auto; lia.
    + (* [i] inside, [j] past [r] *)
      destruct (Nat.le_gt_cases i r).
      * destruct (swaps_val_fwd l r a b Hr Hs i) as (i' & Hi' & Ei); [lia |].
        rewrite Ei, (swaps_val_out l r a b Hr Hs j) by lia.
        apply Hord; [lia |]. intros (t & Ht & Ht1 & Ht2). destruct Ht as [<- | Ht]; simpl in *; [lia |].
        destruct (Hrest i' j) as [Hc | Hc]; [lia | apply Hc; exists t; auto | lia].
      * rewrite !(swaps_val_out l r a b Hr Hs) by lia.
        apply Hord; [lia |]. intros (t & Ht & Ht1 & Ht2). destruct Ht as [<- | Ht]; simpl in *; [lia |].
        apply HnsR. exists t. auto.
    + (* [i] before [l], [j] inside *)
      destruct (Nat.le_gt_cases l j).
      * destruct (swaps_val_fwd l r a b Hr Hs j) as (j' & Hj' & Ej); [lia |].
        rewrite Ej, (swaps_val_out l r a b Hr Hs i) by lia.
        apply Hord; [lia |]. intros (t & Ht & Ht1 & Ht2). destruct Ht as [<- | Ht]; simpl in *; [lia |].
        destruct (Hrest i j') as [Hc | Hc]; [lia | apply Hc; exists t; auto | lia].
      * rewrite !(swaps_val_out l r a b Hr Hs) by lia.
        apply Hord; [lia |]. intros (t & Ht & Ht1 & Ht2). destruct Ht as [<- | Ht]; simpl in *; [lia |].
        apply HnsR. exists t. auto.
    + rewrite !(swaps_val_out l r a b Hr Hs) by lia.
      apply Hord; [lia |]. intros (t & Ht & Ht1 & Ht2). destruct Ht as [<- | Ht]; simpl in *; [lia |].
      apply HnsR. exists t. auto.
Qed.

Lemma vl_swap_i a i j : i < List.length a -> j < List.length a -> vl (swap a i j) i = vl a j.
Proof. intros. rewrite val_swap by auto. eqb_dec; congruence. Qed.

Lemma vl_swap_j a i j : i < List.length a -> j < List.length a -> vl (swap a i j) j = vl a i.
Proof. intros. rewrite val_swap by auto. now rewrite Nat.eqb_refl. Qed.

Lemma vl_swap_o a i j k :
  i < List.length a -> j < List.length a -> k <> i -> k <> j -> vl (swap a i j) k = vl a k.
Proof. intros. rewrite val_swap by auto. eqb_dec; reflexivity. Qed.

(** [do ++pi; while (Tag::less(v[*pi], vp));] stops at the first slot past
    [pi] not below the pivot. *)
Lemma scan_up_spec F a vp pi pj :
  pi < pj -> less (vl a pj) vp = false -> pj - pi <= F ->
  let q := scan_up A less v dflt F a vp pi in
  pi < q <= pj /\ less (vl a q) vp = false /\ (forall k, pi < k < q -> less (vl a k) vp = true).
Proof.
  revert pi. induction F as [| f IH]; intros pi Hp Hpj HF; [lia |].
  cbn [scan_up]. destruct (less (vl a (S pi)) vp) eqn:E.
  - assert (S pi < pj) by (destruct (Nat.eq_dec (S pi) pj); [subst; congruence | lia]).
    destruct (IH (S pi)) as (H1 & H2 & H3); [lia | auto | lia |].
    split; [lia |]. split; auto. intros k Hk.
    destruct (Nat.eq_dec k (S pi)); [subst; auto | apply H3; lia].
  - split; [lia |]. split; auto. intros k Hk; lia.
Qed.

(** [do --pj; while (Tag::less(vp, v[*pj]));] *)
Lemma scan_down_spec F a vp pi pj :
  pi < pj -> less vp (vl a pi) = false -> pj - pi <= F ->
  let q := scan_down A less v dflt F a vp pj in
  pi <= q < pj /\ less vp (vl a q) = false /\ (forall k, q < k < pj -> less vp (vl a k) = true).
Proof.
  revert pj. induction F as [| f IH]; intros pj Hp Hpi HF; [lia |].
  cbn [scan_down]. destruct (less vp (vl a (pred pj))) eqn:E.
  - assert (pi < pred pj) by (destruct (Nat.eq_dec pi (pred pj)) as [e |]; [rewrite <- e in E; congruence | lia]).
    destruct (IH (pred pj)) as (H1 & H2 & H3); [lia | auto | lia |].
    split; [lia |]. split; auto. intros k Hk.
    destruct (Nat.eq_dec k (pred pj)); [subst; auto | apply H3; lia].
  - split; [lia |]. split; auto. intros k Hk; lia.
Qed.

(** The [for (;;)] loop of the partition, between the sentinels. *)
Lemma part_loop_spec F a vp pl R pi pj :
  pl <= pi -> pi < pj -> pj <= R -> R < List.length a -> pj - pi <= F ->
  (forall k, pl <= k <= pi -> less vp (vl a k) = false) ->
  (forall k, pj <= k <= R -> less (vl a k) vp = false) ->
  let '(b, q) := part_loop A less v dflt F a vp pi pj in
  swaps (S pi) (pred pj) a b /\ pi < q <= pj /\
  (forall k, pl <= k < q -> less vp (vl b k) = false) /\
  (forall k, q <= k <= R -> less (vl b k) vp = false).
Proof.
  revert a pi pj. induction F as [| f IH]; intros a pi pj H1 H2 H3 H4 H5 Hl Hr; [lia |].
  cbn [part_loop].
  pose proof (scan_up_spec (S f) a vp pi pj H2 (Hr pj ltac:(lia)) H5) as (U1 & U2 & U3).
  pose proof (scan_down_spec (S f) a vp pi pj H2 (Hl pi ltac:(lia)) H5) as (D1 & D2 & D3).
  set (pi' := scan_up A less v dflt (S f) a vp pi) in *.
  set (pj' := scan_down A less v dflt (S f) a vp pj) in *.
  destruct (pj' <=? pi') eqn:E.
  - apply Nat.leb_le in E. split; [constructor |]. split; [lia |]. split.
    + intros k Hk. destruct (Nat.le_gt_cases k pi); [apply Hl; lia |].
      apply lq_of_less. apply U3. lia.
    + intros k Hk. destruct (Nat.eq_dec k pi') as [-> |]; auto.
      destruct (Nat.le_gt_cases pj k); [apply Hr; lia |].
      apply lq_of_less. apply D3. lia.
  - apply Nat.leb_gt in E.
    set (a' := swap a pi' pj').
    assert (La : List.length a' = List.length a) by apply swap_length.
    specialize (IH a' pi' pj'). destruct (part_loop A less v dflt f a' vp pi' pj') as [b q].
    destruct IH as (S1 & Q1 & B1 & B2); try lia.
    + intros k Hk. unfold a'. destruct (Nat.eq_dec k pi') as [-> |].
      * rewrite vl_swap_i by lia. exact D2.
      * rewrite vl_swap_o by lia. destruct (Nat.le_gt_cases k pi); [apply Hl; lia |].
        apply lq_of_less. apply U3. lia.
    + intros k Hk. unfold a'. destruct (Nat.eq_dec k pj') as [-> |].
      * rewrite vl_swap_j by lia. exact U2.
      * rewrite vl_swap_o by lia. destruct (Nat.le_gt_cases pj k); [apply Hr; lia |].
        apply lq_of_less. apply D3. lia.
    + split; [| split; [lia | split; auto]].
      apply (swaps_trans _ _ _ a'); [apply swaps_one; lia |].
      apply (swaps_widen (S pi') (pred pj')); auto; lia.
Qed.

(** The median-of-three step: [v[tosort[pl]] <= v[tosort[pm]] <= v[tosort[pr]]]. *)
Lemma med3_spec a pl pm pr :
  pl < pm < pr -> pr < List.length a ->
  let a1 := if less (vl a pm) (vl a pl) then swap a pm pl else a in
  let a2 := if less (vl a1 pr) (vl a1 pm) then swap a1 pr pm else a1 in
  let a3 := if less (vl a2 pm) (vl a2 pl) then swap a2 pm pl else a2 in
  swaps pl pr a a3 /\ lq (vl a3 pl) (vl a3 pm) /\ lq (vl a3 pm) (vl a3 pr).
Proof.
  intros Hm Hr a1 a2 a3.
  assert (P1 : swaps pl pr a a1 /\ lq (vl a1 pl) (vl a1 pm)).
  { unfold a1. destruct (less (vl a pm) (vl a pl)) eqn:E.
    - split; [apply swaps_one; lia |]. rewrite vl_swap_i, vl_swap_j by lia. now apply lq_of_less.
    - split; [constructor | exact E]. }
  destruct P1 as [S1 L1].
  assert (La1 : List.length a1 = List.length a) by (apply (swaps_length _ _ _ _ S1)).
  assert (P2 : swaps pl pr a a2 /\ lq (vl a2 pm) (vl a2 pr) /\ lq (vl a2 pl) (vl a2 pr)).
  { unfold a2. destruct (less (vl a1 pr) (vl a1 pm)) eqn:E.
    - split; [apply (swaps_trans _ _ _ a1); auto; apply swaps_one; lia |].
      rewrite vl_swap_i, vl_swap_j, vl_swap_o by lia. split; [now apply lq_of_less | exact L1].
    - split; [exact S1 |]. split; [exact E | exact (lq_trans _ _ _ L1 E)]. }
  destruct P2 as (S2 & L2 & L3).
  assert (La2 : List.length a2 = List.length a) by (apply (swaps_length _ _ _ _ S2)).
  unfold a3. destruct (less (vl a2 pm) (vl a2 pl)) eqn:E.
  - split; [apply (swaps_trans _ _ _ a2); auto; apply swaps_one; lia |].
    rewrite vl_swap_i, vl_swap_j, vl_swap_o by lia. split; [now apply lq_of_less | exact L3].
  - split; [exact S2 |]. split; [exact E | exact L2].
Qed.

(** The partition of [tosort[pl .. pr]]: a permutation of the range, with
    the pivot at slot [p] strictly inside, no larger slot before it and no
    smaller slot after it. *)
Lemma partition_spec F a pl pr :
  pl + 3 <= pr -> pr < List.length a -> pr - pl <= F ->
  let '(b, p) := partition A less v dflt F a pl pr in
  swaps pl pr a b /\ pl < p < pr /\
  (forall k, pl <= k < p -> lq (vl b k) (vl b p)) /\
  (forall k, p < k <= pr -> lq (vl b p) (vl b k)).
Proof.
  intros H1 H2 H3. unfold partition.
  set (pm := pl + (pr - pl) / 2).
  assert (Hpm : pl < pm < pr - 1) by (unfold pm; half_facts; lia).
  pose proof (med3_spec a pl pm pr ltac:(lia) H2) as M. cbv zeta in M.
  match type of M with swaps _ _ _ ?X /\ _ => set (a3 := X) in * end.
  destruct M as (S3 & M1 & M2). cbv zeta.
  pose proof (swaps_length _ _ _ _ S3) as La3.
  set (vp := vl a3 pm).
  set (a4 := swap a3 pm (pr - 1)).
  assert (La4 : List.length a4 = List.length a) by (unfold a4; rewrite swap_length; lia).
  assert (V1 : vl a4 (pr - 1) = vp) by (unfold a4; apply vl_swap_j; lia).
  assert (V2 : vl a4 pl = vl a3 pl) by (unfold a4; apply vl_swap_o; lia).
  assert (V3 : vl a4 pr = vl a3 pr) by (unfold a4; apply vl_swap_o; lia).
  pose proof (part_loop_spec F a4 vp pl (pr - 1) pl (pr - 1)) as P.
  destruct (part_loop A less v dflt F a4 vp pl (pr - 1)) as [a5 q].
  destruct P as (S5 & Q & B1 & B2); try lia.
  { intros k Hk. replace k with pl by lia. rewrite V2. exact M1. }
  { intros k Hk. replace k with (pr - 1) by lia. rewrite V1. apply less_irrefl. }
  pose proof (swaps_length _ _ _ _ S5) as La5.
  assert (W1 : vl a5 (pr - 1) = vp) by (rewrite (swaps_val_out (S pl) (pred (pr - 1)) a4 a5 ltac:(lia) S5) by lia; exact V1).
  assert (W2 : vl a5 pr = vl a3 pr) by (rewrite (swaps_val_out (S pl) (pred (pr - 1)) a4 a5 ltac:(lia) S5) by lia; exact V3).
  split; [| split; [lia | split]].
  - apply (swaps_trans _ _ _ a3); [exact S3 |].
    apply (swaps_trans _ _ _ a4); [apply swaps_one; lia |].
    apply (swaps_trans _ _ _ a5); [apply (swaps_widen (S pl) (pred (pr - 1))); auto; lia |].
    apply swaps_one; lia.
  - intros k Hk. rewrite vl_swap_i, vl_swap_o, W1 by lia. apply B1. lia.
  - intros k Hk. rewrite vl_swap_i, W1 by lia.
    destruct (Nat.eq_dec k (pr - 1)) as [-> |].
    + rewrite vl_swap_j by lia. apply B2. lia.
    + rewrite vl_swap_o by lia. destruct (Nat.eq_dec k pr) as [-> |].
      * rewrite W2. exact M2.
      * apply B2. lia.
Qed.

(** One pass of the [while ((pr - pl) > SMALL_QUICKSORT)] loop keeps the
    invariant and never grows the pending work. *)
Lemma qs_inner_spec n G a pl pr stk cd :
  qs_inv A less v dflt n a ((pl, pr) :: segs_of stk) -> pr - pl < G ->
  let '(a', pl', pr', stk') := qs_inner A less v dflt G a pl pr stk cd in
  qs_inv A less v dflt n a' ((pl', pr') :: segs_of stk') /\
  phi ((pl', pr') :: segs_of stk') <= phi ((pl, pr) :: segs_of stk).
Proof.
  revert a pl pr stk cd. induction G as [| f IH]; intros a pl pr stk cd Hinv HG; [lia |].
  cbn [qs_inner]. destruct (SMALL_QUICKSORT <? pr - pl) eqn:E; [| split; auto].
  apply Nat.ltb_lt in E. unfold SMALL_QUICKSORT in E.
  pose proof Hinv as (Hlen & Hsurj & Hb & Hd & Ho).
  inversion Hb as [| ? ? [Hlr Hrn] Hbr]. simpl in Hlr, Hrn.
  pose proof (partition_spec (S f) a pl pr ltac:(lia) ltac:(lia) ltac:(lia)) as P.
  destruct (partition A less v dflt (S f) a pl pr) as [b p].
  destruct P as (Sb & Hp & B1 & B2).
  assert (Hord : forall N, N = [(pl, p - 1); (S p, pr)] \/ N = [(S p, pr); (pl, p - 1)] ->
     qs_inv A less v dflt n b (N ++ segs_of stk)).
  { intros N HN. apply (inv_process n a b pl pr); auto.
    - destruct HN as [-> | ->]; repeat constructor; simpl; lia.
    - destruct HN as [-> | ->]; simpl; repeat split; repeat constructor; unfold apart; simpl; lia.
    - intros i j Hi Hij Hj Hns.
      assert (Hc : (i < p /\ p < j) \/ i = p \/ j = p \/ j < p \/ p < i) by lia.
      destruct Hc as [[Hi' Hj'] | [-> | [-> | [Hc | Hc]]]].
      + apply (lq_trans _ (vl b p)); [apply B1 | apply B2]; lia.
      + apply B2. lia.
      + apply B1. lia.
      + exfalso. apply Hns. exists (pl, p - 1). split; [| simpl; lia].
        destruct HN as [-> | ->]; simpl; auto.
      + exfalso. apply Hns. exists (S p, pr). split; [| simpl; lia].
        destruct HN as [-> | ->]; simpl; auto. }
  destruct (p - pl <? pr - p) eqn:E2.
  - specialize (IH b pl (p - 1) ((S p, pr, (cd - 1)%Z) :: stk) (cd - 1)%Z).
    destruct (qs_inner A less v dflt f b pl (p - 1) ((S p, pr, (cd - 1)%Z) :: stk) (cd - 1)%Z)
      as [[[a' pl'] pr'] stk'].
    destruct IH as [I1 I2]; [apply (Hord [(pl, p - 1); (S p, pr)]); auto | lia |].
    split; auto. unfold phi in *. simpl in *. lia.
  - specialize (IH b (S p) pr ((pl, p - 1, (cd - 1)%Z) :: stk) (cd - 1)%Z).
    destruct (qs_inner A less v dflt f b (S p) pr ((pl, p - 1, (cd - 1)%Z) :: stk) (cd - 1)%Z)
      as [[[a' pl'] pr'] stk'].
    destruct IH as [I1 I2]; [apply (Hord [(S p, pr); (pl, p - 1)]); auto | lia |].
    split; auto. unfold phi in *. simpl in *. lia.
Qed.

(** The insertion leaves [tosort[pl .. pi]] in order once the hole has
    reached its place. *)
Lemma ins_break a pj pl pi vi :
  pl <= pj <= pi -> pi < List.length a ->
  (forall k1 k2, pl <= k1 -> k1 < k2 -> k2 <= pi -> k1 <> pj -> k2 <> pj ->
     lq (vl a k1) (vl a k2)) ->
  (forall k, pj < k <= pi -> less (nth vi v dflt) (vl a k) = true) ->
  (pj = pl \/ less (nth vi v dflt) (vl a (pj - 1)) = false) ->
  sorted_seg A less v dflt (upd a pj vi) pl pi.
Proof.
  intros Hj Hpi HA HB Hbr i j Hi Hij Hjp. rewrite !val_upd by lia.
  destruct (Nat.eqb_spec i pj) as [Ei | Ei]; destruct (Nat.eqb_spec j pj) as [Ej | Ej]; try lia.
  - apply lq_of_less. apply HB. lia.
  - destruct Hbr as [Hbr | Hbr]; [lia |].
    destruct (Nat.eq_dec i (pj - 1)) as [-> | ]; [exact Hbr |].
    apply (lq_trans _ (vl a (pj - 1))); [apply HA; lia | exact Hbr].
  - apply HA; lia.
Qed.

(** [while (pj > pl && Tag::less(vp, v[*pk])) { *pj-- = *pk--; } *pj = vi;] *)
Lemma ins_shift_spec F a pj pl pi vi :
  pl <= pj <= pi -> pi < List.length a -> pj - pl <= F ->
  (forall k1 k2, pl <= k1 -> k1 < k2 -> k2 <= pi -> k1 <> pj -> k2 <> pj ->
     lq (vl a k1) (vl a k2)) ->
  (forall k, pj < k <= pi -> less (nth vi v dflt) (vl a k) = true) ->
  let b := ins_shift A less v dflt F a (nth vi v dflt) pj pl vi in
  swaps pl pi (upd a pj vi) b /\ sorted_seg A less v dflt b pl pi.
Proof.
  revert a pj. induction F as [| f IH]; intros a pj Hj Hpi HF HA HB; cbn [ins_shift].
  - split; [constructor |]. apply ins_break; auto. left; lia.
  - destruct ((pl <? pj) && less (nth vi v dflt) (vl a (pj - 1))) eqn:E.
    + apply andb_true_iff in E as [E1 E2]. apply Nat.ltb_lt in E1.
      set (a' := upd a pj (at_ a (pj - 1))).
      assert (La' : List.length a' = List.length a) by apply upd_length.
      assert (V : forall k, vl a' k = if k =? pj then vl a (pj - 1) else vl a k)
        by (intros k; unfold a'; rewrite val_upd by lia; reflexivity).
      destruct (IH a' (pj - 1)) as [S' Hs']; try lia.
      * intros k1 k2 H1 H2 H3 H4 H5. rewrite !V.
        destruct (Nat.eqb_spec k1 pj); destruct (Nat.eqb_spec k2 pj); try lia; apply HA; lia.
      * intros k Hk. rewrite V. destruct (Nat.eqb_spec k pj); [exact E2 | apply HB; lia].
      * split; auto. apply (swaps_trans _ _ _ (upd a' (pj - 1) vi)); [| exact S'].
        unfold a'. rewrite <- swap_hole by lia. apply swaps_one; lia.
    + split; [constructor |]. apply ins_break; auto.
      apply andb_false_iff in E as [E | E]; [left; apply Nat.ltb_ge in E; lia | right; exact E].
Qed.

(** The insertion sort of [tosort[pl .. pr]]. *)
Lemma ins_sort_spec a pl pr :
  pl <= pr -> pr < List.length a ->
  swaps pl pr a (ins_sort A less v dflt a pl pr) /\
  sorted_seg A less v dflt (ins_sort A less v dflt a pl pr) pl pr.
Proof.
  intros H1 H2. unfold ins_sort.
  match goal with |- context [fold_left ?f _ _] => set (step := f) end.
  assert (G : forall K, pl + K < List.length a ->
            swaps pl (pl + K) a (fold_left step (seq (S pl) K) a) /\
            sorted_seg A less v dflt (fold_left step (seq (S pl) K) a) pl (pl + K)).
  { induction K as [| K IH]; intros HK.
    - simpl. split; [constructor |]. intros i j; lia.
    - destruct IH as [S1 O1]; [lia |].
      rewrite seq_S, fold_left_app. cbn [fold_left].
      set (b := fold_left step (seq (S pl) K) a) in *.
      pose proof (swaps_length _ _ _ _ S1) as Lb.
      unfold step. cbv beta zeta.
      replace (pl + S K) with (S pl + K) by lia.
      assert (HA : forall k1 k2, pl <= k1 -> k1 < k2 -> k2 <= S pl + K -> k1 <> S pl + K ->
                k2 <> S pl + K -> lq (vl b k1) (vl b k2)) by (intros; apply O1; lia).
      assert (HB : forall k, S pl + K < k <= S pl + K ->
                less (nth (at_ b (S pl + K)) v dflt) (vl b k) = true) by (intros; lia).
      destruct (ins_shift_spec (S pl + K - pl) b (S pl + K) pl (S pl + K) (at_ b (S pl + K))
                  ltac:(lia) ltac:(lia) ltac:(lia) HA HB) as (S2 & O2).
      split; auto. rewrite upd_same in S2 by lia.
      apply (swaps_trans _ _ _ b); auto. apply (swaps_widen pl (pl + K)); auto; lia. }
  specialize (G (pr - pl) ltac:(lia)). replace (pl + (pr - pl)) with pr in G by lia. exact G.
Qed.

Lemma vl_upd_same a p x : p < List.length a -> vl (upd a p x) p = nth x v dflt.
Proof. intros. rewrite val_upd by auto. now rewrite Nat.eqb_refl. Qed.

Lemma vl_upd_other a p x k : p < List.length a -> k <> p -> vl (upd a p x) k = vl a k.
Proof. intros. rewrite val_upd by auto. now rewrite (proj2 (Nat.eqb_neq k p)). Qed.

Lemma nth_at a x : nth (at_ a x) v dflt = vl a x.
Proof. reflexivity. Qed.

(** The sift-down of [aheapsort_]: [tmp] goes down from the hole at [i],
    each larger child moving up, until the heap property holds again
    below [lo]. *)
Lemma sift_spec pl m lo F a tmp i :
  1 <= lo <= i -> i <= m -> pl + m <= List.length a -> m < i + F ->
  (i = lo \/ lo <= i / 2) ->
  (forall c, 2 <= c <= m -> lo <= c / 2 -> c / 2 <> i ->
     lq (vl (upd a (pl + i - 1) tmp) (pl + c - 1)) (vl (upd a (pl + i - 1) tmp) (pl + c / 2 - 1))) ->
  (i <> lo -> forall c, 2 <= c <= m -> c / 2 = i ->
     lq (vl (upd a (pl + i - 1) tmp) (pl + c - 1)) (vl (upd a (pl + i - 1) tmp) (pl + i / 2 - 1))) ->
  let b := sift A less v dflt F a pl m tmp i (i + i) in
  swaps pl (pl + m - 1) (upd a (pl + i - 1) tmp) b /\ heap_from A less v dflt b pl m lo.
Proof.
  revert a i. induction F as [| f IH]; intros a i Hi Him Hlen HF Hlo I1 I2; [lia |].
  cbn [sift]. unfold hset, hget. rewrite ?nth_at.
  set (w := upd a (pl + i - 1) tmp) in *.
  assert (Lw : List.length w = List.length a) by apply upd_length.
  assert (Wi : vl w (pl + i - 1) = nth tmp v dflt) by (apply vl_upd_same; lia).
  assert (Wo : forall k, k <> pl + i - 1 -> vl w k = vl a k) by (intros; apply vl_upd_other; lia).
  destruct (i + i <=? m) eqn:Ej.
  - apply Nat.leb_le in Ej.
    match goal with |- context [if ?cnd then S ?x else ?x] => set (jm := if cnd then S x else x) end.
    assert (J : forall c, 2 <= c <= m -> c / 2 = i ->
                  lq (vl a (pl + c - 1)) (vl a (pl + jm - 1))).
    { intros c Hc Hci. half_facts.
      assert (Hc' : c = i + i \/ c = S (i + i)) by lia.
      unfold jm. destruct ((i + i <? m) && less (vl a (pl + (i + i) - 1)) (vl a (pl + S (i + i) - 1))) eqn:E.
      - apply andb_true_iff in E as [_ E]. destruct Hc' as [-> | ->]; [now apply lq_of_less | apply lq_refl].
      - destruct Hc' as [-> | ->]; [apply lq_refl |].
        apply andb_false_iff in E as [E | E]; [apply Nat.ltb_ge in E; lia | exact E]. }
    assert (Jm : jm = i + i \/ jm = S (i + i)) by (unfold jm; destruct (_ && _); auto).
    assert (Jle : jm <= m).
    { unfold jm. destruct (_ && _) eqn:E; [| lia].
      apply andb_true_iff in E as [E _]. apply Nat.ltb_lt in E. lia. }
    clearbody jm.
    assert (Jh : jm / 2 = i) by (half_facts; lia).
    destruct (less (nth tmp v dflt) (vl a (pl + jm - 1))) eqn:Et.
    + set (a' := upd a (pl + i - 1) (at_ a (pl + jm - 1))).
      assert (Hw' : upd a' (pl + jm - 1) tmp = swap w (pl + i - 1) (pl + jm - 1))
        by (unfold a', w; rewrite swap_hole by lia; reflexivity).
      assert (La' : List.length a' = List.length a) by apply upd_length.
      destruct (IH a' jm) as [S1 H1]; try lia.
      * rewrite Hw'. intros c Hc Hlc Hcj.
        destruct (Nat.eq_dec c jm) as [-> | Hcjm].
        { rewrite Jh, vl_swap_j, vl_swap_i, Wi, Wo by lia. now apply lq_of_less. }
        destruct (Nat.eq_dec c i) as [-> | Hci].
        -- (* the edge from [i] to its parent *)
           half_facts. rewrite vl_swap_i, vl_swap_o by lia.
           apply I2; lia.
        -- destruct (Nat.eq_dec (c / 2) i) as [Hc2 | Hc2].
           ++ rewrite Hc2, vl_swap_o, vl_swap_i by (half_facts; lia).
              rewrite !Wo by (half_facts; lia). apply J; lia.
           ++ rewrite !vl_swap_o by (half_facts; lia). apply I1; lia.
      * rewrite Hw'. intros Hne c Hc Hcj. rewrite Jh.
        rewrite vl_swap_o, vl_swap_i by (half_facts; lia).
        rewrite <- Hcj. apply I1; lia.
      * split; [| exact H1].
        apply (swaps_trans _ _ _ (upd a' (pl + jm - 1) tmp)); [| exact S1].
        rewrite Hw'. apply swaps_one; lia.
    + split; [constructor |]. intros c Hc Hlc.
      destruct (Nat.eq_dec (c / 2) i) as [Hc2 | Hc2]; [| apply I1; lia].
      rewrite Hc2, Wi, Wo by (half_facts; lia).
      apply (lq_trans _ (vl a (pl + jm - 1))); [apply J; lia | exact Et].
  - apply Nat.leb_gt in Ej. split; [constructor |]. intros c Hc Hlc.
    apply I1; try lia. intros Hc2. half_facts. lia.
Qed.

(** The heap-building loop [for (l = n>>1; l > 0; --l)]. *)
Lemma heapify_spec pl n a L :
  1 <= n -> pl + n <= List.length a -> L <= n / 2 ->
  heap_from A less v dflt a pl n (S L) ->
  let b := fold_left (fun a l => sift A less v dflt n a pl n (hget a pl l) l (l + l))
             (rev (seq 1 L)) a in
  swaps pl (pl + n - 1) a b /\ heap_from A less v dflt b pl n 1.
Proof.
  revert a. induction L as [| L IH]; intros a Hn Hlen HL Hh.
  - simpl. split; [constructor | exact Hh].
  - rewrite seq_S, rev_app_distr. cbn [rev app fold_left].
    replace (1 + L) with (S L) by lia.
    pose proof (sift_spec pl n (S L) n a (hget a pl (S L)) (S L)) as P.
    unfold hget in P. rewrite upd_same in P by (half_facts; lia).
    destruct P as [S1 H1]; try (half_facts; lia); [intros c Hc Hlc Hne; apply Hh; lia |].
    + set (a1 := sift A less v dflt n a pl n (hget a pl (S L)) (S L) (S L + S L)).
      assert (La1 : List.length a1 = List.length a) by apply sift_length.
      destruct (IH a1) as [S2 H2]; try lia; [exact H1 |].
      split; [| exact H2]. apply (swaps_trans _ _ _ a1); auto.
Qed.

(** In a max-heap the root is the largest element. *)
Lemma heap_root_max a pl m :
  heap_from A less v dflt a pl m 1 ->
  forall c, 1 <= c <= m -> lq (vl a (pl + c - 1)) (vl a (pl + 1 - 1)).
Proof.
  intros H c. induction c as [c IHc] using (well_founded_induction lt_wf). intros Hc.
  destruct (Nat.eq_dec c 1) as [-> | Hc1]; [apply lq_refl |].
  apply (lq_trans _ (vl a (pl + c / 2 - 1))); [apply H; half_facts; lia |].
  apply IHc; half_facts; lia.
Qed.

Lemma rev_seq2 K : 1 <= K -> rev (seq 2 K) = S K :: rev (seq 2 (K - 1)).
Proof.
  intros HK. destruct K as [| K]; [lia |]. rewrite seq_S, rev_app_distr.
  simpl. now rewrite Nat.sub_0_r.
Qed.

(** The sort-down loop [for (n = num; n > 1;)]: the maximum of the heap
    [1 .. K] goes to slot [K] each round. *)
Lemma sortdown_spec pl n a K :
  1 <= K <= n -> pl + n <= List.length a ->
  heap_from A less v dflt a pl K 1 ->
  (forall x y, K < x -> x < y -> y <= n -> lq (vl a (pl + x - 1)) (vl a (pl + y - 1))) ->
  (forall x y, 1 <= x <= K -> K < y <= n -> lq (vl a (pl + x - 1)) (vl a (pl + y - 1))) ->
  let b := fold_left (fun a k =>
      let tmp := hget a pl k in
      let a := hset a pl k (hget a pl 1) in
      sift A less v dflt k a pl (k - 1) tmp 1 2) (rev (seq 2 (K - 1))) a in
  swaps pl (pl + n - 1) a b /\
  (forall x y, 1 <= x -> x < y -> y <= n -> lq (vl b (pl + x - 1)) (vl b (pl + y - 1))).
Proof.
  revert a. induction K as [| K IH]; intros a HK Hlen Hh Hs Hc; [lia |].
  destruct (Nat.eq_dec K 0) as [-> | HK0].
  - simpl. split; [constructor |]. intros x y Hx Hxy Hy.
    destruct (Nat.eq_dec x 1) as [-> | ]; [apply Hc; lia | apply Hs; lia].
  - replace (S K - 1) with K by lia. rewrite rev_seq2 by lia. cbn [fold_left]. cbv zeta.
    unfold hget, hset. replace (S K - 1) with K by lia.
    set (w := swap a (pl + S K - 1) (pl + 1 - 1)).
    assert (Hw : upd (upd a (pl + S K - 1) (at_ a (pl + 1 - 1))) (pl + 1 - 1) (at_ a (pl + S K - 1)) = w)
      by reflexivity.
    assert (Lw : List.length w = List.length a) by apply swap_length.
    pose proof (sift_spec pl (S K - 1) 1 (S K) (upd a (pl + S K - 1) (at_ a (pl + 1 - 1)))
                  (at_ a (pl + S K - 1)) 1) as P.
    change (1 + 1) with 2 in P. rewrite Hw in P. replace (S K - 1) with K in P by lia.
    destruct P as [S1 H1]; try rewrite upd_length; try lia.
    + intros c Hc' Hlc Hne. half_facts. unfold w. rewrite !vl_swap_o by lia. apply Hh; lia.
    + set (b1 := sift A less v dflt (S K) (upd a (pl + S K - 1) (at_ a (pl + 1 - 1))) pl K
                   (at_ a (pl + S K - 1)) 1 2) in *.
      assert (Lb1 : List.length b1 = List.length a) by (rewrite (swaps_length _ _ _ _ S1); lia).
      assert (Out : forall x, K < x -> vl b1 (pl + x - 1) = vl w (pl + x - 1))
        by (intros x Hx; apply (swaps_val_out pl (pl + K - 1) w b1); auto; lia).
      assert (WK : vl w (pl + S K - 1) = vl a (pl + 1 - 1)) by (apply vl_swap_i; lia).
      assert (Fw : forall x, 1 <= x <= K -> exists q, 1 <= q <= S K /\
                     vl b1 (pl + x - 1) = vl a (pl + q - 1)).
      { intros x Hx. destruct (swaps_val_fwd pl (pl + K - 1) w b1) with (k := pl + x - 1)
          as (k' & Hk' & E); auto; try lia.
        rewrite E. destruct (Nat.eq_dec k' (pl + 1 - 1)) as [-> | Hk1].
        - exists (S K). split; [lia |]. apply vl_swap_j; lia.
        - exists (k' - pl + 1). split; [lia |]. unfold w. rewrite vl_swap_o by lia. f_equal. lia. }
      destruct (IH b1) as [S2 O2]; try lia; auto.
      * intros x y Hx Hxy Hy. rewrite !Out by lia.
        destruct (Nat.eq_dec x (S K)) as [-> | Hx'].
        -- rewrite WK. unfold w. rewrite vl_swap_o by lia. apply Hc; lia.
        -- unfold w. rewrite !vl_swap_o by lia. apply Hs; lia.
      * intros x y Hx Hy. destruct (Fw x Hx) as (q & Hq & ->). rewrite Out by lia.
        destruct (Nat.eq_dec y (S K)) as [-> | Hy'].
        -- rewrite WK. apply (heap_root_max a pl (S K)); auto; lia.
        -- unfold w. rewrite vl_swap_o by lia. apply Hc; lia.
      * split; [| exact O2].
        apply (swaps_trans _ _ _ w); [apply swaps_one; lia |].
        apply (swaps_trans _ _ _ b1); [| exact S2].
        apply (swaps_widen pl (pl + K - 1)); auto; lia.
Qed.

(** [aheapsort_] sorts [tosort[pl .. pl+n-1]] in place. *)
Lemma aheapsort_spec a pl n :
  1 <= n -> pl + n <= List.length a ->
  swaps pl (pl + n - 1) a (aheapsort A less v dflt a pl n) /\
  sorted_seg A less v dflt (aheapsort A less v dflt a pl n) pl (pl + n - 1).
Proof.
  intros Hn Hlen. unfold aheapsort. cbv zeta.
  destruct (heapify_spec pl n a (n / 2) Hn Hlen (le_n _)) as [S1 H1].
  { intros c Hc Hlc. exfalso. half_facts. lia. }
  match type of S1 with swaps _ _ _ ?X => set (b1 := X) in * end.
  pose proof (swaps_length _ _ _ _ S1) as Lb1.
  destruct (sortdown_spec pl n b1 n) as [S2 O2]; try lia; auto.
  split; [apply (swaps_trans _ _ _ b1); auto |].
  intros i j Hi Hij Hj.
  replace i with (pl + (i - pl + 1) - 1) by lia. replace j with (pl + (j - pl + 1) - 1) by lia.
  apply O2; lia.
Qed.

(** The main loop of [aquicksort_]: when the stack is empty, [tosort] is a
    sorted permutation. *)
Lemma qs_outer_spec n F a pl pr stk cd :
  qs_inv A less v dflt n a ((pl, pr) :: segs_of stk) -> phi ((pl, pr) :: segs_of stk) <= F ->
  qs_inv A less v dflt n (qs_outer A less v dflt F a pl pr stk cd) [].
Proof.
  revert a pl pr stk cd. induction F as [| f IH]; intros a pl pr stk cd Hinv HF.
  { unfold phi in HF. simpl in HF. lia. }
  assert (Hnext : forall b stk', qs_inv A less v dflt n b (segs_of stk') -> phi (segs_of stk') <= f ->
            qs_inv A less v dflt n (match stk' with
                                    | [] => b
                                    | (pl, pr, cd) :: stk => qs_outer A less v dflt f b pl pr stk cd
                                    end) []).
  { intros b [| [[l r] c] stk'] Hb Hphi; [exact Hb |]. apply IH; auto. }
  cbn [qs_outer].
  pose proof Hinv as (Hlen & _ & Hb & _). inversion Hb as [| ? ? [Hlr Hrn] _]. simpl in Hlr, Hrn.
  destruct (cd <? 0)%Z.
  - destruct (aheapsort_spec a pl (pr - pl + 1)) as [S1 O1]; try lia.
    replace (pl + (pr - pl + 1) - 1) with pr in S1, O1 by lia.
    apply Hnext.
    + apply (inv_process n a _ pl pr (segs_of stk) [] Hinv S1); [constructor | exact I |].
      intros i j Hi Hij Hj _. apply O1; lia.
    + unfold phi in *. simpl in HF. lia.
  - pose proof (qs_inner_spec n (S f) a pl pr stk cd Hinv) as Q.
    destruct (qs_inner A less v dflt (S f) a pl pr stk cd) as [[[a' pl'] pr'] stk'].
    destruct Q as [Q1 Q2]; [unfold phi in HF; simpl in HF; lia |].
    pose proof Q1 as (Hlen' & _ & Hb' & _). inversion Hb' as [| ? ? [Hlr' Hrn'] _]. simpl in Hlr', Hrn'.
    destruct (ins_sort_spec a' pl' pr') as [S1 O1]; try lia.
    apply Hnext.
    + apply (inv_process n a' _ pl' pr' (segs_of stk') [] Q1 S1); [constructor | exact I |].
      intros i j Hi Hij Hj _. apply O1; lia.
    + unfold phi in *. simpl in *. lia.
Qed.

(** [np.argsort(v, kind="quicksort")] returns a permutation of the
    indices that lists [v] in ascending order. *)
Lemma aquicksort_correct :
  let s := aquicksort A less v dflt in
  List.length s = List.length v /\
  (forall x, x < List.length v -> exists k, k < List.length v /\ nth k s 0 = x) /\
  (forall i j, i < j < List.length v -> lq (nth (nth i s 0) v dflt) (nth (nth j s 0) v dflt)).
Proof.
  intros s. unfold s, aquicksort. cbv zeta.
  set (n := List.length v).
  destruct (Nat.eq_dec n 0) as [E | E].
  - rewrite qs_outer_length, length_seq. split; [lia |]. split; intros; lia.
  - assert (I0 : qs_inv A less v dflt n (seq 0 n) [(0, n - 1)]).
    { split; [apply length_seq |]. split; [| split; [| split]].
      - intros x Hx. exists x. split; auto. unfold at_. rewrite seq_nth; auto.
      - repeat constructor; simpl; lia.
      - simpl. split; auto.
      - intros i j Hij Hns. exfalso. apply Hns. exists (0, n - 1). simpl. split; auto. lia. }
    destruct (qs_outer_spec n (2 * n + 2) (seq 0 n) 0 (n - 1) [] (npy_get_msb n * 2) I0)
      as (L & Sj & _ & _ & O); [unfold phi; simpl; lia |].
    split; [exact L | split; [exact Sj |]]. intros i j Hij. apply O; auto.
    intros (s' & Hs' & _). inversion Hs'.
Qed.

End QsCorrect.


Lemma Qltb_lt_iff (x y : Q) : Qltb x y = true <-> (x < y)%Q.
Proof.
  unfold Qltb. rewrite negb_true_iff. split.
  - intros H. apply Qnot_le_lt. intros H'. apply Qle_bool_iff in H'. congruence.
  - intros H. destruct (Qle_bool y x) eqn:E; auto. apply Qle_bool_iff in E.
    exfalso. exact (Qlt_not_le _ _ H E).
Qed.

Lemma Qltb_ge_iff (x y : Q) : Qltb x y = false <-> (y <= x)%Q.
Proof. unfold Qltb. rewrite negb_false_iff. apply Qle_bool_iff. Qed.

Lemma sorted_asc_b_nth (key : nat -> Q) (s : list nat) :
  (forall i, (S i < List.length s)%nat -> (key (nth i s 0%nat) <= key (nth (S i) s 0%nat))%Q) ->
  sorted_asc_b key s = true.
Proof.
  induction s as [| x s IH]; intros H; [reflexivity |].
  destruct s as [| y s]; [reflexivity |].
  cbn [sorted_asc_b]. apply andb_true_iff. split.
  - apply Qle_bool_iff. apply (H 0%nat). simpl. lia.
  - apply IH. intros i Hi. apply (H (S i)). simpl in *. lia.
Qed.

(** numpy's introsort returns a valid ascending argsort on every input. *)
Lemma np_argsort_quicksort_ok (items : list Q) :
  argsort_ok (np_argsort_quicksort items) items = true.
Proof.
  unfold argsort_ok, np_argsort_quicksort.
  destruct (aquicksort_correct Q Qltb items 0%Q) as (L & Sj & O).
  - intros x. apply Qltb_ge_iff. apply Qle_refl.
  - intros x y z Hxy Hyz. apply Qltb_lt_iff in Hxy, Hyz. apply Qltb_lt_iff. exact (Qlt_trans _ _ _ Hxy Hyz).
  - intros x y z Hxy Hyz. apply Qltb_ge_iff in Hxy, Hyz. apply Qltb_ge_iff. exact (Qle_trans _ _ _ Hxy Hyz).
  - set (s := aquicksort Q Qltb items 0%Q) in *. apply andb_true_iff. split.
    + unfold is_index_perm. apply andb_true_iff. split; [apply Nat.eqb_eq; exact L |].
      apply forallb_forall. intros i Hi. apply in_seq in Hi.
      destruct (Sj i) as (k & Hk & E); [lia |].
      apply existsb_exists. exists (nth k s 0%nat). split; [apply nth_In; lia | apply Nat.eqb_eq; auto].
    + apply sorted_asc_b_nth. intros i Hi.
      specialize (O i (S i) ltac:(lia)). unfold le_ in O. apply Qltb_ge_iff in O. exact O.
Qed.


Lemma sort_values_desc_length (t : table) (c : string) :
  List.length (rows (sort_values_desc t c)) = List.length (rows t).
Proof.
  unfold sort_values_desc, take_rows, nargsort_desc, np_argsort_quicksort. simpl.
  now rewrite length_map, length_rev, length_map, aquicksort_length, length_rev, keys_length.
Qed.

Lemma head_length (n : nat) (t : table) : List.length (rows (head n t)) = Nat.min n (List.length (rows t)).
Proof. unfold head. simpl. apply length_firstn. Qed.

Lemma top_spec_length (t : table) (c : string) (n : nat) (out : table) :
  top_spec t c n out -> List.length (rows out) = Nat.min n (List.length (rows t)).
Proof. intros (sel & Hr & _ & Hl & _). now rewrite Hr, length_map. Qed.

Lemma nlargest_length (t : table) (c : string) (n : nat) :
  List.length (rows (nlargest n t c)) = Nat.min n (List.length (rows t)).
Proof.
  unfold nlargest. pose proof (keys_length t c) as Hk.
  destruct (Nat.eqb_spec n 0) as [-> | Hn0]; [apply head_length |].
  destruct (Nat.leb_spec (List.length (keys t c)) n) as [Hle | Hlt].
  - now rewrite head_length, sort_values_desc_length.
  - eapply top_spec_length. apply nlargest_fast_spec; lia.
Qed.

(** ** Facts about one run *)


Lemma mapM_col_values (c : string) (rs : list row) :
  (vs <- mapM to_datetime_cell (map (fun r => get r c) rs) ;;
   Some (map (fun rv => put (fst rv) c (snd rv)) (combine rs vs))) =
  mapM (fun r => v <- to_datetime_cell (get r c) ;; Some (put r c v)) rs.
Proof.
  induction rs as [| r rs IH]; simpl; [reflexivity |].
  destruct (to_datetime_cell (get r c)) as [w |]; simpl; [| reflexivity].
  destruct (mapM to_datetime_cell (map (fun r => get r c) rs)) as [vs |];
  destruct (mapM (fun r => v <- to_datetime_cell (get r c) ;; Some (put r c v)) rs) as [rs' |];
  simpl in IH |- *; try discriminate; try reflexivity.
  injection IH as <-. reflexivity.
Qed.

Lemma ensure_datetime_eq (t : table) (c : string) :
  ensure_datetime t c = if has_col t c then to_datetime_col t c else Some t.
Proof.
  unfold ensure_datetime, ensure_datetime_with. destruct (has_col t c); [| reflexivity].
  unfold to_datetime_col, to_datetime_values, set_col, col_values.
  rewrite <- mapM_col_values.
  destruct (mapM to_datetime_cell (map (fun r => get r c) (rows t))); reflexivity.
Qed.

Lemma ensure_datetimes_eq (s : store) :
  ensure_datetimes s =
  (ch <- ensure_datetime (channel_history_df s) "fetched_at" ;;
   v1 <- ensure_datetime (videos_df s) "fetched_at" ;;
   v2 <- ensure_datetime v1 "published_at" ;;
   Some (mk_store (channel_df s) ch v2)).
Proof. reflexivity. Qed.

Lemma ensure_datetime_spec (t t' : table) (c : string) :
  ensure_datetime t c = Some t' ->
  cols t' = cols t /\
  Forall2 (fun r r' =>
    (has_col t c = true -> to_datetime_cell (get r c) = Some (get r' c)) /\
    (has_col t c = false -> get r' c = get r c) /\
    (forall d, c <> d -> get r' d = get r d)) (rows t) (rows t').
Proof.
  rewrite ensure_datetime_eq. destruct (has_col t c) eqn:Hc.
  - unfold to_datetime_col. intros H.
    destruct (mapM _ (rows t)) as [rs |] eqn:Em; simpl in H; [| discriminate].
    injection H as <-. simpl. split; [reflexivity |].
    apply mapM_Forall2 in Em. eapply Forall2_impl; [| exact Em].
    intros r r' Hr. cbv beta in Hr. unfold bind in Hr.
    destruct (to_datetime_cell (get r c)) as [w |] eqn:Ew; [| discriminate].
    injection Hr as <-. split; [| split].
    + intros _. now rewrite get_put_same.
    + discriminate.
    + intros d Hd. now apply get_put_other.
  - intros H. injection H as <-. split; [reflexivity |].
    induction (rows t) as [| r rs IH]; constructor; auto.
    split; [congruence | split; [reflexivity | intros; reflexivity]].
Qed.

Lemma run_with_unfold (todt : list cell -> option (list cell)) (s : store) ud ut s' o :
  run_with todt s ud ut = Some (s', o) ->
  ensure_datetimes_with todt s = Some s' /\ derive s' ud ut = Some o.
Proof.
  unfold run_with. destruct (ensure_datetimes_with todt s) as [s1 |]; simpl; [| discriminate].
  destruct (derive s1 ud ut) as [o1 |] eqn:E; simpl; [| discriminate].
  intros H. injection H as <- <-. split; [reflexivity | exact E].
Qed.

Lemma run_unfold (s : store) ud ut s' o :
  run s ud ut = Some (s', o) -> ensure_datetimes s = Some s' /\ derive s' ud ut = Some o.
Proof. apply run_with_unfold. Qed.

Lemma derive_unfold (s : store) ud ut o :
  derive s ud ut = Some o ->
  exists fv0,
  coerce_numeric (filter_by_date (videos_df s) (date_col_of (videos_df s))
                    (sidebar_dates (videos_df s) ud)) = Some fv0 /\
  let fv := add_engagement fv0 in
  let n := Z.to_nat (top_n_of ut) in
  o = mk_outputs (top_n_of ut) fv (nlargest n fv "views")
        (head n (sort_values_desc fv "engagement_rate")) (nlargest 10 fv "likes")
        (if Qltb 0 (sum_q (keys fv "dislikes")) then Some (nlargest 10 fv "dislikes") else None)
        (py_int (sum_q (keys fv "likes"))) (py_int (sum_q (keys fv "dislikes")))
        (py_int (sum_q (keys fv "comments"))) (py_int (sum_q (keys fv "views")))
        (if df_empty fv then 0%Q
         else (sum_q (keys fv "engagement_rate") /
               inject_Z (Z.of_nat (List.length (rows fv))))%Q)
        (most fv (videos_df s) "views") (most fv (videos_df s) "likes")
        (most fv (videos_df s) "dislikes")
        (avg_views_kpi (channel_df s)).
Proof.
  unfold derive. cbv zeta.
  destruct (coerce_numeric _) as [fv0 |]; simpl; [| discriminate].
  intros H. injection H as <-. exists fv0. split; reflexivity.
Qed.

Lemma st_slider_range (lo hi d : Z) (ui : option Z) :
  lo <= d <= hi -> lo <= hi -> lo <= st_slider lo hi d ui <= hi.
Proof. destruct ui; simpl; lia. Qed.

(** ** Claims *)

(** Claim C10.  In every run the top-N count taken from the slider lies in
    [[3, 50]] and is 10 while the user has not moved the slider; the views
    and engagement rankings receive that count and the likes and dislikes
    rankings receive the constant 10, so no ranking is called with a
    count outside [[3, 50]]. *)
Theorem ranking_counts_in_range (s : store) ud ut s' o :
  run s ud ut = Some (s', o) ->
  (3 <= o_top_n o <= 50) /\
  (ut = None -> o_top_n o = 10) /\
  o_df_top_n o = nlargest (Z.to_nat (o_top_n o)) (o_filtered o) "views" /\
  o_top_eng o = head (Z.to_nat (o_top_n o)) (sort_values_desc (o_filtered o) "engagement_rate") /\
  o_top_likes o = nlargest 10 (o_filtered o) "likes" /\
  (forall td, o_top_dislikes o = Some td -> td = nlargest 10 (o_filtered o) "dislikes").
Proof.
  intros H. apply run_unfold in H as [_ Hd]. apply derive_unfold in Hd as (fv0 & Hcn & Ho). cbv zeta in Ho. subst o. simpl.
  repeat split.
  - apply st_slider_range; lia.
  - apply st_slider_range; lia.
  - intros ->. reflexivity.
  - intros td. destruct (Qltb _ _); [| discriminate]. now intros [= <-].
Qed.

Lemma ranking_counts_in_range_witness :
  exists s' o, run two_videos_store None None = Some (s', o) /\
  (3 <= o_top_n o <= 50) /\
  (None = @None Z -> o_top_n o = 10) /\
  o_df_top_n o = nlargest (Z.to_nat (o_top_n o)) (o_filtered o) "views" /\
  o_top_eng o = head (Z.to_nat (o_top_n o)) (sort_values_desc (o_filtered o) "engagement_rate") /\
  o_top_likes o = nlargest 10 (o_filtered o) "likes" /\
  (forall td, o_top_dislikes o = Some td -> td = nlargest 10 (o_filtered o) "dislikes").
Proof.
  destruct (run two_videos_store None None) as [[s' o] |] eqn:E.
  - exists s', o. split; [reflexivity |].
    exact (ranking_counts_in_range two_videos_store None None s' o E).
  - vm_compute in E. discriminate.
Defined.

(** A one-day range on 2024-01-01 over the two sample videos. *)
Lemma filter_single_day_witness :
  sidebar_dates dated_and_undated
    (Some [days_from_civil 2024 1 1; days_from_civil 2024 1 1]) =
    Some (days_from_civil 2024 1 1, days_from_civil 2024 1 1) /\
  rows (filter_by_date dated_and_undated (date_col_of dated_and_undated)
          (sidebar_dates dated_and_undated
             (Some [days_from_civil 2024 1 1; days_from_civil 2024 1 1]))) =
  filter (fun r => match get r (date_col_of dated_and_undated) with
                   | CTime ts =>
                       (days_from_civil 2024 1 1 * day_ns <=? ts) &&
                       (ts <=? days_from_civil 2024 1 1 * day_ns
                               + (23 * 3600 + 59 * 60 + 59) * sec_ns)
                   | _ => false
                   end) (rows dated_and_undated).
Proof.
  split.
  - vm_compute. reflexivity.
  - apply (filter_single_day dated_and_undated
             (Some [days_from_civil 2024 1 1; days_from_civil 2024 1 1])
             (days_from_civil 2024 1 1)).
    vm_compute. reflexivity.
Defined.

(** The sample video B has no publication date. *)
Lemma filter_drops_null_dates_witness :
  sidebar_dates dated_and_undated None =
    Some (days_from_civil 2024 1 1, days_from_civil 2024 1 1) /\
  In (nth 1 (rows dated_and_undated) []) (rows dated_and_undated) /\
  get (nth 1 (rows dated_and_undated) []) (date_col_of dated_and_undated) = CNull /\
  all_null dated_and_undated (date_col_of dated_and_undated) = false /\
  ~ In (nth 1 (rows dated_and_undated) [])
       (rows (filter_by_date dated_and_undated (date_col_of dated_and_undated)
                (Some (days_from_civil 2024 1 1, days_from_civil 2024 1 1)))).
Proof.
  split; [vm_compute; reflexivity |].
  split; [vm_compute; right; left; reflexivity |].
  split; [vm_compute; reflexivity |].
  apply (filter_drops_null_dates dated_and_undated None
           (days_from_civil 2024 1 1) (days_from_civil 2024 1 1)
           (nth 1 (rows dated_and_undated) [])).
  - vm_compute. reflexivity.
  - vm_compute. right. left. reflexivity.
  - vm_compute. reflexivity.
Defined.

(** Claim C6.  When the latest channel snapshot carries numbers in
    [total_views] and [total_videos], the average-views KPI is
    [total_views / max(total_videos, 1)]: the denominator is at least 1, so
    no division by zero happens, and with [total_videos = 0] the KPI is
    [total_views] itself. *)
Theorem avg_views_per_video (t : table) (tv vids : Q) :
  iloc0 t "total_views" = Some (CNum tv) ->
  iloc0 t "total_videos" = Some (CNum vids) ->
  avg_views_kpi t = KVal (tv / py_max vids 1) /\
  (py_max vids 1 == Qmax vids 1)%Q /\
  (1 <= py_max vids 1)%Q /\
  (vids == 0 -> tv / py_max vids 1 == tv)%Q.
Proof.
  intros Hv Hn. unfold avg_views_kpi. rewrite Hv, Hn.
  split; [reflexivity |].
  unfold py_max, Qltb. destruct (Qle_bool 1 vids) eqn:E; simpl.
  - apply Qle_bool_iff in E. repeat split.
    + symmetry. now apply Q.max_l.
    + exact E.
    + intros Hz. exfalso. rewrite Hz in E. apply (Qle_not_lt _ _ E). reflexivity.
  - assert (Hlt : (vids < 1)%Q).
    { apply Qnot_le_lt. intros Hle. apply Qle_bool_iff in Hle. congruence. }
    repeat split.
    + symmetry. apply Q.max_r. now apply Qlt_le_weak.
    + apply Qle_refl.
    + intros _. field.
Qed.

Lemma avg_views_per_video_witness :
  iloc0 one_channel "total_views" = Some (CNum 50000) /\
  iloc0 one_channel "total_videos" = Some (CNum 0) /\
  avg_views_kpi one_channel = KVal (50000 / py_max 0 1) /\
  (py_max 0 1 == Qmax 0 1)%Q /\
  (1 <= py_max 0 1)%Q /\
  (0 == 0 -> 50000 / py_max 0 1 == 50000)%Q.
Proof.
  split; [vm_compute; reflexivity |].
  split; [vm_compute; reflexivity |].
  apply (avg_views_per_video one_channel 50000 0); vm_compute; reflexivity.
Defined.

Lemma keys_nil (t : table) (c : string) : rows t = [] -> keys t c = [].
Proof. unfold keys. intros ->. reflexivity. Qed.

Lemma df_empty_nil (t : table) : rows t = [] -> df_empty t = true.
Proof. unfold df_empty. intros ->. reflexivity. Qed.

(** Claim C2 (as the code does it).  When the filtered table is empty, the
    four totals and the mean engagement rate are 0, with no error; the three
    "most viewed / liked / disliked" picks are not absent in general: they
    are taken from the unfiltered [videos_df] (the table after the date
    conversion), and they are absent only when that table is empty as well. *)
Theorem rollups_on_empty_filtered (s : store) ud ut s' o :
  run s ud ut = Some (s', o) ->
  rows (o_filtered o) = [] ->
  o_total_likes o = 0 /\ o_total_dislikes o = 0 /\
  o_total_comments o = 0 /\ o_total_views o = 0 /\
  o_avg_engagement o = 0%Q /\
  o_mv o = (if df_empty (videos_df s') then Absent else raw_pick_max (videos_df s') "views") /\
  o_ml o = (if df_empty (videos_df s') then Absent else raw_pick_max (videos_df s') "likes") /\
  o_md o = (if df_empty (videos_df s') then Absent else raw_pick_max (videos_df s') "dislikes") /\
  (rows (videos_df s') = [] -> o_mv o = Absent /\ o_ml o = Absent /\ o_md o = Absent).
Proof.
  intros H Hr. apply run_unfold in H as [_ Hd]. apply derive_unfold in Hd as (fv0 & Hcn & Ho). cbv zeta in Ho.
  set (fv := add_engagement _) in Ho. subst o.
  cbn [o_filtered o_total_likes o_total_dislikes o_total_comments o_total_views
       o_avg_engagement o_mv o_ml o_md] in *.
  rewrite !(keys_nil fv) by exact Hr.
  assert (He : df_empty fv = true) by (now apply df_empty_nil).
  unfold most. rewrite He. simpl.
  assert (Hm : forall c, (if df_empty (videos_df s') then Absent else raw_pick_max (videos_df s') c)
                       = (if negb (df_empty (videos_df s')) then raw_pick_max (videos_df s') c
                          else Absent))
    by (intros c; now destruct (df_empty (videos_df s'))).
  rewrite !Hm.
  repeat split; try reflexivity.
  all: match goal with
       | Hv : rows (videos_df _) = [] |- _ => rewrite (df_empty_nil _ Hv); reflexivity
       end.
Qed.

Lemma rollups_on_empty_filtered_witness :
  exists s' o,
  run two_videos_store (Some [days_from_civil 2024 1 2; days_from_civil 2024 1 2]) None
    = Some (s', o) /\
  rows (o_filtered o) = [] /\
  o_total_likes o = 0 /\ o_total_dislikes o = 0 /\
  o_total_comments o = 0 /\ o_total_views o = 0 /\
  o_avg_engagement o = 0%Q /\
  o_mv o = (if df_empty (videos_df s') then Absent else raw_pick_max (videos_df s') "views") /\
  o_ml o = (if df_empty (videos_df s') then Absent else raw_pick_max (videos_df s') "likes") /\
  o_md o = (if df_empty (videos_df s') then Absent else raw_pick_max (videos_df s') "dislikes") /\
  (rows (videos_df s') = [] -> o_mv o = Absent /\ o_ml o = Absent /\ o_md o = Absent).
Proof.
  destruct (run two_videos_store (Some [days_from_civil 2024 1 2; days_from_civil 2024 1 2]) None)
    as [[s' o] |] eqn:E.
  - assert (Hr : rows (o_filtered o) = []).
    { vm_compute in E. injection E as _ <-. vm_compute. reflexivity. }
    exists s', o. split; [reflexivity |]. split; [exact Hr |].
    exact (rollups_on_empty_filtered two_videos_store _ None s' o E Hr).
  - vm_compute in E. discriminate.
Defined.

(** Counterexample to claim C2: the videos of 2024-01-01 and 2024-01-03 with
    the single day 2024-01-02 selected.  The filtered table is empty, yet
    the most-viewed pick is a row of the unfiltered table, not absent. *)
Lemma rollups_fallback_counterexample :
  match run two_videos_store (Some [days_from_civil 2024 1 2; days_from_civil 2024 1 2]) None with
  | Some (_, o) => rows (o_filtered o) = [] /\ o_mv o <> Absent /\ o_ml o <> Absent
  | None => False
  end.
Proof.
  vm_compute. split; [reflexivity |]. split; intros Habs; discriminate Habs.
Defined.

(** Claim C5 (as the code does it).  The run builds four rankings, each over
    its own column.  Only the views and engagement rankings take the slider
    count [top_n]: each holds [min(top_n, len)] rows.  The likes ranking
    always takes 10 and holds [min(10, len)] rows.  The dislikes ranking also
    takes 10, and it is built only when the dislikes total is positive. *)
Theorem ranking_sizes (s : store) ud ut s' o :
  run s ud ut = Some (s', o) ->
  List.length (rows (o_df_top_n o)) =
    Nat.min (Z.to_nat (o_top_n o)) (List.length (rows (o_filtered o))) /\
  List.length (rows (o_top_eng o)) =
    Nat.min (Z.to_nat (o_top_n o)) (List.length (rows (o_filtered o))) /\
  List.length (rows (o_top_likes o)) = Nat.min 10 (List.length (rows (o_filtered o))) /\
  (o_top_dislikes o = None <-> (sum_q (keys (o_filtered o) "dislikes") <= 0)%Q) /\
  (forall td, o_top_dislikes o = Some td ->
     List.length (rows td) = Nat.min 10 (List.length (rows (o_filtered o)))).
Proof.
  intros H. apply run_unfold in H as [_ Hd]. apply derive_unfold in Hd as (fv0 & Hcn & Ho). cbv zeta in Ho.
  set (fv := add_engagement _) in Ho. subst o.
  cbn [o_filtered o_top_n o_df_top_n o_top_eng o_top_likes o_top_dislikes].
  split; [apply nlargest_length |].
  split; [now rewrite head_length, sort_values_desc_length |].
  split; [apply nlargest_length |].
  unfold Qltb. destruct (Qle_bool (sum_q (keys fv "dislikes")) 0) eqn:E; simpl.
  - apply Qle_bool_iff in E. split; [tauto | discriminate].
  - split.
    + split; [discriminate |]. intros Hle. apply Qle_bool_iff in Hle. congruence.
    + intros td [= <-]. apply nlargest_length.
Qed.

Lemma ranking_sizes_witness :
  exists s' o, run five_store None (Some 3) = Some (s', o) /\
  List.length (rows (o_df_top_n o)) =
    Nat.min (Z.to_nat (o_top_n o)) (List.length (rows (o_filtered o))) /\
  List.length (rows (o_top_eng o)) =
    Nat.min (Z.to_nat (o_top_n o)) (List.length (rows (o_filtered o))) /\
  List.length (rows (o_top_likes o)) = Nat.min 10 (List.length (rows (o_filtered o))) /\
  (o_top_dislikes o = None <-> (sum_q (keys (o_filtered o) "dislikes") <= 0)%Q) /\
  (forall td, o_top_dislikes o = Some td ->
     List.length (rows td) = Nat.min 10 (List.length (rows (o_filtered o)))).
Proof.
  destruct (run five_store None (Some 3)) as [[s' o] |] eqn:E.
  - exists s', o. split; [reflexivity |].
    exact (ranking_sizes five_store None (Some 3) s' o E).
  - vm_compute in E. discriminate.
Defined.

(** Counterexample to claim C5: five videos and the slider at 3.  The views
    ranking holds 3 rows, the likes ranking 5 (its count is 10, not 3), and
    there is no dislikes ranking since no video has a dislike. *)
Lemma ranking_counts_counterexample :
  match run five_store None (Some 3) with
  | Some (_, o) =>
      o_top_n o = 3 /\ List.length (rows (o_df_top_n o)) = 3%nat /\
      List.length (rows (o_top_likes o)) = 5%nat /\ o_top_dislikes o = None
  | None => False
  end.
Proof. vm_compute. repeat split. Defined.

(** Claim C3 (as the code does it).  Both rankings return [min(n, len)]
    distinct rows of the table, in non-increasing order of the ranking
    column, each at least as large there as every row left out.  Ties are
    not broken by input order in general: the engagement ranking (and the
    views ranking when [n >= len]) orders rows with numpy's quicksort, which
    is not stable (its result is a sorting permutation, proved in
    [np_argsort_quicksort_ok]). *)
Theorem top_n_selection (t : table) (c : string) (n : nat) :
  top_spec t c n (nlargest n t c) /\
  top_spec t "engagement_rate" n (head n (sort_values_desc t "engagement_rate")).
Proof.
  split; [apply nlargest_spec | apply sort_head_spec]; apply np_argsort_quicksort_ok.
Qed.

(** Counterexample to claim C3: eighteen unviewed videos, all with
    engagement rate 0, and the default count 10.  The engagement ranking
    keeps v16 and leaves out v2, which comes before it in the input. *)
Lemma top_eng_unstable_counterexample :
  match run tie_store None None with
  | Some (_, o) =>
      map (fun r => get r "title") (rows (o_filtered o)) =
        map (fun k => CStr ("v" ++ k))
          ["0"; "1"; "2"; "3"; "4"; "5"; "6"; "7"; "8"; "9";
           "10"; "11"; "12"; "13"; "14"; "15"; "16"; "17"] /\
      forallb (fun q => Qeq_bool q 0) (keys (o_filtered o) "engagement_rate") = true /\
      map (fun r => get r "title") (rows (o_top_eng o)) =
        map (fun k => CStr ("v" ++ k))
          ["0"; "1"; "16"; "15"; "14"; "13"; "12"; "11"; "10"; "9"]
  | None => False
  end.
Proof. vm_compute. repeat split. Defined.

Lemma has_col_cols (t t' : table) (c : string) : cols t' = cols t -> has_col t' c = has_col t c.
Proof. unfold has_col. now intros ->. Qed.

Lemma set_col_rows (rs : list row) (vs : list cell) (c : string) :
  List.length vs = List.length rs ->
  let rs' := map (fun rv => put (fst rv) c (snd rv)) (combine rs vs) in
  map (fun r => get r c) rs' = vs /\
  Forall2 (fun r r' => forall d, c <> d -> get r' d = get r d) rs rs'.
Proof.
  revert vs. induction rs as [| r rs IH]; intros [| v vs] Hl; simpl in Hl |- *;
    try discriminate; [split; constructor |].
  injection Hl as Hl. destruct (IH vs Hl) as [H1 H2]. rewrite get_put_same, H1.
  split; [reflexivity |]. constructor; [| exact H2].
  intros d Hd. now apply get_put_other.
Qed.

Lemma col_values_other (rs rs' : list row) (c d : string) :
  Forall2 (fun r r' => forall d, c <> d -> get r' d = get r d) rs rs' -> c <> d ->
  map (fun r => get r d) rs' = map (fun r => get r d) rs.
Proof. induction 1; intros Hcd; simpl; f_equal; auto. Qed.

Lemma ensure_datetime_with_spec (todt : list cell -> option (list cell)) (t t' : table) (c : string) :
  (forall vs ws, todt vs = Some ws -> List.length ws = List.length vs) ->
  ensure_datetime_with todt t c = Some t' ->
  cols t' = cols t /\ List.length (rows t') = List.length (rows t) /\
  (has_col t c = true -> todt (col_values t c) = Some (col_values t' c)) /\
  (has_col t c = false -> t' = t) /\
  Forall2 (fun r r' => forall d, c <> d -> get r' d = get r d) (rows t) (rows t').
Proof.
  intros Hlen. unfold ensure_datetime_with. destruct (has_col t c) eqn:Hc.
  - destruct (todt (col_values t c)) as [vs |] eqn:E; simpl; [| discriminate].
    intros H. injection H as <-.
    assert (Hl : List.length vs = List.length (rows t)).
    { rewrite (Hlen _ _ E). unfold col_values. apply length_map. }
    destruct (set_col_rows (rows t) vs c Hl) as [H1 H2].
    unfold set_col, col_values in *; cbn [cols rows].
    split; [reflexivity |]. split; [| split; [| split]].
    + rewrite length_map, length_combine, Hl. lia.
    + intros _. now rewrite H1.
    + discriminate.
    + exact H2.
  - intros H. injection H as <-. repeat split; try reflexivity; [congruence |].
    induction (rows t) as [| r rs IH]; constructor; auto.
Qed.

(** Claim C8 (as the code does it).  Lines 34-39 write the converted date
    columns back into the loaded tables.  Whatever [pd.to_datetime] makes
    of a column (any converter [todt] that keeps the column's length), a
    run that raises no exception leaves [channel_df] as loaded and gives
    [channel_history_df] and [videos_df] the same columns and number of
    rows, but with [fetched_at] (and [published_at] in [videos_df])
    replaced by the converted column when the table has it; every other
    cell is kept, and the derived tables and values are computed from
    these converted tables. *)
Theorem inputs_converted_in_place (todt : list cell -> option (list cell)) (s : store) ud ut s' o :
  (forall vs ws, todt vs = Some ws -> List.length ws = List.length vs) ->
  run_with todt s ud ut = Some (s', o) ->
  channel_df s' = channel_df s /\
  cols (channel_history_df s') = cols (channel_history_df s) /\
  List.length (rows (channel_history_df s')) = List.length (rows (channel_history_df s)) /\
  (has_col (channel_history_df s) "fetched_at" = true ->
     todt (col_values (channel_history_df s) "fetched_at") =
       Some (col_values (channel_history_df s') "fetched_at")) /\
  (has_col (channel_history_df s) "fetched_at" = false ->
     channel_history_df s' = channel_history_df s) /\
  Forall2 (fun r r' => forall d, "fetched_at" <> d -> get r' d = get r d)
    (rows (channel_history_df s)) (rows (channel_history_df s')) /\
  cols (videos_df s') = cols (videos_df s) /\
  List.length (rows (videos_df s')) = List.length (rows (videos_df s)) /\
  (has_col (videos_df s) "fetched_at" = true ->
     todt (col_values (videos_df s) "fetched_at") = Some (col_values (videos_df s') "fetched_at")) /\
  (has_col (videos_df s) "fetched_at" = false ->
     col_values (videos_df s') "fetched_at" = col_values (videos_df s) "fetched_at") /\
  (has_col (videos_df s) "published_at" = true ->
     todt (col_values (videos_df s) "published_at") =
       Some (col_values (videos_df s') "published_at")) /\
  (has_col (videos_df s) "published_at" = false ->
     col_values (videos_df s') "published_at" = col_values (videos_df s) "published_at") /\
  Forall2 (fun r r' => forall d, "fetched_at" <> d -> "published_at" <> d -> get r' d = get r d)
    (rows (videos_df s)) (rows (videos_df s')) /\
  derive s' ud ut = Some o.
Proof.
  intros Hlen H. apply run_with_unfold in H as [Hs Hd]. unfold ensure_datetimes_with in Hs.
  destruct (ensure_datetime_with todt (channel_history_df s) "fetched_at") as [ch |] eqn:Ech;
    simpl in Hs; [| discriminate].
  destruct (ensure_datetime_with todt (videos_df s) "fetched_at") as [v1 |] eqn:Ev1;
    simpl in Hs; [| discriminate].
  destruct (ensure_datetime_with todt v1 "published_at") as [v2 |] eqn:Ev2;
    simpl in Hs; [| discriminate].
  injection Hs as <-. cbn [channel_df channel_history_df videos_df].
  apply (ensure_datetime_with_spec _ _ _ _ Hlen) in Ech as (Cch & Lch & Tch & Nch & Fch).
  apply (ensure_datetime_with_spec _ _ _ _ Hlen) in Ev1 as (C1 & L1 & T1 & N1 & F1).
  apply (ensure_datetime_with_spec _ _ _ _ Hlen) in Ev2 as (C2 & L2 & T2 & N2 & F2).
  rewrite (has_col_cols _ _ "published_at" C1) in T2, N2.
  assert (Hfp : "fetched_at" <> "published_at") by discriminate.
  assert (Hpf : "published_at" <> "fetched_at") by discriminate.
  assert (P1 : col_values v1 "published_at" = col_values (videos_df s) "published_at")
    by exact (col_values_other _ _ _ _ F1 Hfp).
  assert (P2 : col_values v2 "fetched_at" = col_values v1 "fetched_at")
    by exact (col_values_other _ _ _ _ F2 Hpf).
  split; [reflexivity |]. split; [exact Cch |]. split; [exact Lch |].
  split; [exact Tch |]. split; [exact Nch |]. split; [exact Fch |].
  split; [congruence |]. split; [congruence |].
  split; [intros Hh; rewrite P2; now apply T1 |].
  split; [intros Hh; rewrite P2, (N1 Hh); reflexivity |].
  split; [intros Hh; rewrite <- P1; now apply T2 |].
  split; [intros Hh; rewrite (N2 Hh); exact P1 |].
  split; [| exact Hd].
  eapply Forall2_compose; [| exact F1 | exact F2].
  intros r r1 r2 Ha Hb d Hd1 Hd2. rewrite (Hb _ Hd2). now apply Ha.
Qed.

Lemma to_datetime_values_length (vs ws : list cell) :
  to_datetime_values vs = Some ws -> List.length ws = List.length vs.
Proof.
  intros H. apply mapM_Forall2 in H. symmetry. exact (Forall2_length H).
Qed.

Lemma inputs_converted_in_place_witness :
  exists s' o, run_with to_datetime_values two_videos_store None None = Some (s', o) /\
  channel_df s' = channel_df two_videos_store /\
  cols (channel_history_df s') = cols (channel_history_df two_videos_store) /\
  List.length (rows (channel_history_df s')) =
    List.length (rows (channel_history_df two_videos_store)) /\
  (has_col (channel_history_df two_videos_store) "fetched_at" = true ->
     to_datetime_values (col_values (channel_history_df two_videos_store) "fetched_at") =
       Some (col_values (channel_history_df s') "fetched_at")) /\
  (has_col (channel_history_df two_videos_store) "fetched_at" = false ->
     channel_history_df s' = channel_history_df two_videos_store) /\
  Forall2 (fun r r' => forall d, "fetched_at" <> d -> get r' d = get r d)
    (rows (channel_history_df two_videos_store)) (rows (channel_history_df s')) /\
  cols (videos_df s') = cols (videos_df two_videos_store) /\
  List.length (rows (videos_df s')) = List.length (rows (videos_df two_videos_store)) /\
  (has_col (videos_df two_videos_store) "fetched_at" = true ->
     to_datetime_values (col_values (videos_df two_videos_store) "fetched_at") =
       Some (col_values (videos_df s') "fetched_at")) /\
  (has_col (videos_df two_videos_store) "fetched_at" = false ->
     col_values (videos_df s') "fetched_at" = col_values (videos_df two_videos_store) "fetched_at") /\
  (has_col (videos_df two_videos_store) "published_at" = true ->
     to_datetime_values (col_values (videos_df two_videos_store) "published_at") =
       Some (col_values (videos_df s') "published_at")) /\
  (has_col (videos_df two_videos_store) "published_at" = false ->
     col_values (videos_df s') "published_at" =
       col_values (videos_df two_videos_store) "published_at") /\
  Forall2 (fun r r' => forall d, "fetched_at" <> d -> "published_at" <> d -> get r' d = get r d)
    (rows (videos_df two_videos_store)) (rows (videos_df s')) /\
  derive s' None None = Some o.
Proof.
  destruct (run_with to_datetime_values two_videos_store None None) as [[s' o] |] eqn:E.
  - exists s', o. split; [reflexivity |].
    exact (inputs_converted_in_place to_datetime_values two_videos_store None None s' o
             to_datetime_values_length E).
  - vm_compute in E. discriminate.
Defined.

(** Counterexample to claim C8: after a run on the two sample videos the
    first row of [videos_df] no longer holds the string ["2024-01-01"] it
    was loaded with, but the timestamp of that day. *)
Lemma inputs_mutated_counterexample :
  get (nth 0 (rows (videos_df two_videos_store)) []) "published_at" = CStr "2024-01-01" /\
  match run two_videos_store None None with
  | Some (s', _) =>
      get (nth 0 (rows (videos_df s')) []) "published_at" =
        CTime (days_from_civil 2024 1 1 * day_ns)
  | None => False
  end.
Proof. split; vm_compute; reflexivity. Defined.

(** * More of the script *)

(** ** Converting the date columns a second time changes nothing *)

Lemma put_put_same (r : row) (c : string) (v w : cell) : put (put r c v) c w = put r c w.
Proof.
  induction r as [| [k x] r IH]; simpl.
  - now rewrite String.eqb_refl.
  - destruct (String.eqb k c) eqn:E; simpl; rewrite E; [reflexivity | now rewrite IH].
Qed.

Lemma in_keys_put_same (r : row) (c : string) (v : cell) : In c (map fst (put r c v)).
Proof.
  induction r as [| [k x] r IH]; simpl; [now left |].
  destruct (String.eqb_spec k c) as [-> | _]; simpl; auto.
Qed.

Lemma in_keys_put (r : row) (c d : string) (v : cell) :
  In c (map fst r) -> In c (map fst (put r d v)).
Proof.
  induction r as [| [k x] r IH]; simpl; [tauto |].
  destruct (String.eqb k d); simpl; intuition.
Qed.

Lemma put_get_present (r : row) (c : string) : In c (map fst r) -> put r c (get r c) = r.
Proof.
  induction r as [| [k x] r IH]; simpl; [tauto |].
  destruct (String.eqb_spec k c) as [-> | Hne]; [reflexivity |].
  intros [Heq | Hin]; [congruence |]. now rewrite IH.
Qed.

Lemma to_datetime_cell_fixed (v w : cell) : to_datetime_cell v = Some w -> to_datetime_cell w = Some w.
Proof.
  destruct v as [q | s | t |]; simpl.
  - now intros [= <-].
  - destruct (parse_iso_date s); simpl; [now intros [= <-] | discriminate].
  - now intros [= <-].
  - now intros [= <-].
Qed.

Lemma mapM_id {B} (f : B -> option B) (l : list B) :
  Forall (fun x => f x = Some x) l -> mapM f l = Some l.
Proof.
  induction 1 as [| x l Hx _ IH]; simpl; [reflexivity |].
  rewrite Hx. simpl. rewrite IH. reflexivity.
Qed.

Lemma to_datetime_col_again (t : table) (c : string) :
  Forall (converted c) (rows t) -> to_datetime_col t c = Some t.
Proof.
  intros H. unfold to_datetime_col. rewrite mapM_id; [now destruct t |].
  eapply Forall_impl; [| exact H]. intros r [Hin Hfix]. cbv beta.
  rewrite Hfix. simpl. now rewrite put_get_present.
Qed.

Lemma to_datetime_col_converted (t t' : table) (c : string) :
  to_datetime_col t c = Some t' -> Forall (converted c) (rows t').
Proof.
  unfold to_datetime_col. intros H.
  destruct (mapM _ (rows t)) as [rs |] eqn:Em; simpl in H; [| discriminate].
  injection H as <-. simpl. apply mapM_Forall2 in Em.
  induction Em as [| r r' l l' Hr _ IH]; constructor; auto.
  cbv beta in Hr. unfold bind in Hr.
  destruct (to_datetime_cell (get r c)) as [w |] eqn:Ew; [| discriminate].
  injection Hr as <-. split; [apply in_keys_put_same |].
  rewrite get_put_same. now apply to_datetime_cell_fixed in Ew.
Qed.

Lemma converted_put_other (r : row) (c d : string) (v : cell) :
  c <> d -> converted c r -> converted c (put r d v).
Proof.
  intros Hcd [Hin Hfix]. split; [now apply in_keys_put |].
  rewrite get_put_other by congruence. exact Hfix.
Qed.

Lemma ensure_datetime_again (t t' : table) (c : string) :
  ensure_datetime t c = Some t' ->
  (has_col t' c = true -> Forall (converted c) (rows t')) /\ ensure_datetime t' c = Some t'.
Proof.
  rewrite !ensure_datetime_eq. destruct (has_col t c) eqn:Hc.
  - intros H. pose proof (to_datetime_col_converted _ _ _ H) as Hconv.
    split; [intros _; exact Hconv |].
    destruct (has_col t' c); [now apply to_datetime_col_again | reflexivity].
  - intros [= <-]. rewrite Hc. split; [discriminate | reflexivity].
Qed.

Lemma ensure_datetime_keeps_converted (t t' : table) (c d : string) :
  c <> d -> ensure_datetime t d = Some t' ->
  Forall (converted c) (rows t) -> Forall (converted c) (rows t').
Proof.
  intros Hcd. rewrite ensure_datetime_eq. destruct (has_col t d); [| now intros [= <-]].
  unfold to_datetime_col. intros H Hall.
  destruct (mapM _ (rows t)) as [rs |] eqn:Em; simpl in H; [| discriminate].
  injection H as <-. simpl. apply mapM_Forall2 in Em.
  induction Em as [| r r' l l' Hr _ IH]; constructor; inversion Hall; subst; auto.
  cbv beta in Hr. unfold bind in Hr.
  destruct (to_datetime_cell (get r d)) as [w |]; [| discriminate].
  injection Hr as <-. now apply converted_put_other.
Qed.

(** Extra.  The conversion of lines 34-39 is idempotent: run again on the
    tables it produced, it succeeds and returns them unchanged.  So the
    second [pd.to_datetime] of line 173 on the history's [fetched_at]
    changes nothing either. *)
Theorem ensure_datetimes_idempotent (s s' : store) :
  ensure_datetimes s = Some s' ->
  ensure_datetimes s' = Some s' /\
  (has_col (channel_history_df s') "fetched_at" = true ->
   to_datetime_col (channel_history_df s') "fetched_at" = Some (channel_history_df s')).
Proof.
  rewrite !ensure_datetimes_eq.
  destruct (ensure_datetime (channel_history_df s) "fetched_at") as [ch |] eqn:Ech;
    simpl; [| discriminate].
  destruct (ensure_datetime (videos_df s) "fetched_at") as [v1 |] eqn:Ev1;
    simpl; [| discriminate].
  destruct (ensure_datetime v1 "published_at") as [v2 |] eqn:Ev2;
    simpl; [| discriminate].
  intros [= <-]. cbn [channel_df channel_history_df videos_df].
  destruct (ensure_datetime_again _ _ _ Ech) as [Hch Ech'].
  destruct (ensure_datetime_again _ _ _ Ev2) as [_ Ev2'].
  destruct (ensure_datetime_again _ _ _ Ev1) as [Hv1 _].
  pose proof (proj1 (ensure_datetime_spec _ _ _ Ev2)) as Hcols.
  assert (Ev2fa : ensure_datetime v2 "fetched_at" = Some v2).
  { rewrite ensure_datetime_eq. destruct (has_col v2 "fetched_at") eqn:Hc; [| reflexivity].
    apply to_datetime_col_again.
    apply (ensure_datetime_keeps_converted v1 v2 "fetched_at" "published_at");
      [discriminate | exact Ev2 |].
    apply Hv1. now rewrite (has_col_cols v1 v2 _ Hcols) in Hc. }
  rewrite Ech', Ev2fa. simpl. rewrite Ev2'. simpl.
  split; [reflexivity |].
  intros Hc. apply to_datetime_col_again. now apply Hch.
Qed.

Lemma ensure_datetimes_idempotent_witness :
  exists s', ensure_datetimes two_videos_store = Some s' /\
  ensure_datetimes s' = Some s' /\
  (has_col (channel_history_df s') "fetched_at" = true ->
   to_datetime_col (channel_history_df s') "fetched_at" = Some (channel_history_df s')).
Proof.
  destruct (ensure_datetimes two_videos_store) as [s' |] eqn:E.
  - exists s'. split; [reflexivity |].
    exact (ensure_datetimes_idempotent two_videos_store s' E).
  - vm_compute in E. discriminate.
Defined.

(** ** The date filter *)

Lemma filter_filter_impl {B} (f g : B -> bool) (l : list B) :
  (forall x, f x = true -> g x = true) -> filter f (filter g l) = filter f l.
Proof.
  intros H. induction l as [| x l IH]; simpl; [reflexivity |].
  destruct (g x) eqn:Eg; simpl.
  - destruct (f x); now rewrite IH.
  - destruct (f x) eqn:Ef; [rewrite (H x Ef) in Eg; discriminate | exact IH].
Qed.

Lemma day_ns_pos : 0 < day_ns.
Proof. unfold day_ns. lia. Qed.

(** Extra.  The date filter keeps the columns and an order-preserving
    selection of the rows; and a narrower range keeps exactly those rows of
    a wider range's result that fall in the narrower one, so widening the
    range never drops a video. *)
Theorem filter_by_date_widening (t : table) (c : string) (s1 e1 s2 e2 : Z) :
  s2 <= s1 -> e1 <= e2 ->
  cols (filter_by_date t c (Some (s1, e1))) = cols t /\
  (exists keep, rows (filter_by_date t c (Some (s1, e1))) = filter keep (rows t)) /\
  exists keep, rows (filter_by_date t c (Some (s1, e1))) =
               filter keep (rows (filter_by_date t c (Some (s2, e2)))).
Proof.
  intros Hs He. unfold filter_by_date. destruct (has_col t c); simpl.
  - split; [reflexivity |]. split; [eexists; reflexivity |].
    eexists. symmetry. apply filter_filter_impl.
    intros r. destruct (get r c) as [| | x |]; simpl; try discriminate.
    unfold date_ts. pose proof day_ns_pos.
    rewrite !andb_true_iff, !Z.leb_le. nia.
  - split; [reflexivity |]. split; exists (fun _ => true); induction (rows t) as [| r l IH];
      simpl; congruence.
Qed.

Lemma filter_by_date_widening_witness :
  days_from_civil 2024 1 1 <= days_from_civil 2024 1 1 /\
  days_from_civil 2024 1 1 <= days_from_civil 2024 1 3 /\
  cols (filter_by_date dated_and_undated "published_at"
          (Some (days_from_civil 2024 1 1, days_from_civil 2024 1 1))) = cols dated_and_undated /\
  (exists keep, rows (filter_by_date dated_and_undated "published_at"
                  (Some (days_from_civil 2024 1 1, days_from_civil 2024 1 1))) =
                filter keep (rows dated_and_undated)) /\
  exists keep, rows (filter_by_date dated_and_undated "published_at"
                 (Some (days_from_civil 2024 1 1, days_from_civil 2024 1 1))) =
               filter keep (rows (filter_by_date dated_and_undated "published_at"
                 (Some (days_from_civil 2024 1 1, days_from_civil 2024 1 3)))).
Proof.
  split; [vm_compute; discriminate |]. split; [vm_compute; discriminate |].
  apply filter_by_date_widening; vm_compute; discriminate.
Defined.

Lemma col_extreme_fold (pick : Z -> Z -> Z) (le : Z -> Z -> Prop) (c : string) :
  (forall a b, le (pick a b) a /\ le (pick a b) b) -> (forall a, le a a) ->
  (forall a b d, le a b -> le b d -> le a d) ->
  forall (l : list row) acc,
  (forall r x, In r l -> get r c = CTime x ->
     exists m, fold_left (fun acc r =>
       match get r c, acc with
       | CTime x, Some m => Some (pick m x)
       | CTime x, None => Some x
       | _, _ => acc
       end) l acc = Some m /\ le m x) /\
  (forall a, acc = Some a ->
     exists m, fold_left (fun acc r =>
       match get r c, acc with
       | CTime x, Some m => Some (pick m x)
       | CTime x, None => Some x
       | _, _ => acc
       end) l acc = Some m /\ le m a).
Proof.
  intros Hp Hrefl Htrans l. induction l as [| r l IH]; intros acc; simpl.
  - split; [tauto |]. intros a ->. eauto.
  - split.
    + intros r' x [<- | Hin] Hx.
      * rewrite Hx. destruct acc as [a |].
        -- destruct (proj2 (IH (Some (pick a x))) _ eq_refl) as (m & Hm & Hle).
           exists m. split; [exact Hm |]. eapply Htrans; [exact Hle | apply Hp].
        -- apply (proj2 (IH (Some x)) _ eq_refl).
      * exact (proj1 (IH _) r' x Hin Hx).
    + intros a ->. destruct (get r c) as [| | x |].
      1, 2, 4: apply (proj2 (IH _)); reflexivity.
      destruct (proj2 (IH (Some (pick a x))) _ eq_refl) as (m & Hm & Hle).
      exists m. split; [exact Hm |]. eapply Htrans; [exact Hle | apply Hp].
Qed.

Lemma col_extreme_min (t : table) (c : string) (r : row) (x : Z) :
  In r (rows t) -> get r c = CTime x ->
  exists m, col_extreme Z.min t c = Some m /\ m <= x.
Proof.
  intros Hin Hx. unfold col_extreme.
  apply (proj1 (col_extreme_fold Z.min Z.le c ltac:(intros; lia) ltac:(intros; lia)
                  ltac:(intros; lia) (rows t) None) r x Hin Hx).
Qed.

Lemma col_extreme_max (t : table) (c : string) (r : row) (x : Z) :
  In r (rows t) -> get r c = CTime x ->
  exists m, col_extreme Z.max t c = Some m /\ x <= m.
Proof.
  intros Hin Hx. unfold col_extreme.
  apply (proj1 (col_extreme_fold Z.max (fun a b => b <= a) c ltac:(intros; cbv beta in *; lia)
                  ltac:(intros; cbv beta in *; lia) ltac:(intros; cbv beta in *; lia) (rows t) None) r x Hin Hx).
Qed.

(** Extra.  With the date control untouched (its default is the column's
    own [[min_date, max_date]]), a video is kept exactly when it has a
    timestamp no later than 23:59:59 on the latest day.  So every video
    with a timestamp in whole seconds is kept, and only one stamped within
    the last second of that day (after 23:59:59) is dropped. *)
Theorem default_range_keeps (t : table) (r : row) :
  has_col t (date_col_of t) = true -> all_null t (date_col_of t) = false ->
  In r (rows t) ->
  (In r (rows (filter_by_date t (date_col_of t) (sidebar_dates t None))) <->
   exists x, get r (date_col_of t) = CTime x /\
     x <= date_ts (ts_date (match col_extreme Z.max t (date_col_of t) with
                            | Some m => m | None => 0 end)) + day_ns - sec_ns) /\
  (forall x, get r (date_col_of t) = CTime x -> x mod sec_ns = 0 ->
   In r (rows (filter_by_date t (date_col_of t) (sidebar_dates t None)))).
Proof.
  intros Hc Hn Hin. unfold sidebar_dates. rewrite Hc, Hn. simpl.
  unfold filter_by_date. rewrite Hc. simpl.
  set (dc := date_col_of t) in *.
  assert (Hiff : forall r, In r (rows t) ->
    In r (filter (fun r0 => ts_ge (get r0 dc)
        (date_ts (ts_date match col_extreme Z.min t dc with Some m => m | None => 0 end)) &&
      ts_le (get r0 dc)
        (date_ts (ts_date match col_extreme Z.max t dc with Some m => m | None => 0 end)
         + day_ns - sec_ns)) (rows t)) <->
    exists x, get r dc = CTime x /\
      x <= date_ts (ts_date match col_extreme Z.max t dc with Some m => m | None => 0 end)
           + day_ns - sec_ns).
  { intros r0 Hin0. rewrite filter_In. split.
    - intros [_ Hb]. destruct (get r0 dc) as [| | x |] eqn:Hx; simpl in Hb; try discriminate.
      apply andb_true_iff in Hb as [_ Hb]. apply Z.leb_le in Hb. eauto.
    - intros (x & Hx & Hle). split; [exact Hin0 |]. rewrite Hx. simpl.
      destruct (col_extreme_min t dc r0 x Hin0 Hx) as (m & -> & Hm).
      apply andb_true_iff. split; apply Z.leb_le; [| exact Hle].
      unfold date_ts, ts_date. pose proof day_ns_pos.
      pose proof (Z.mul_div_le m day_ns H). lia. }
  split; [now apply Hiff |].
  intros x Hx Hmod. apply Hiff; [exact Hin |]. exists x. split; [exact Hx |].
  destruct (col_extreme_max t dc r x Hin Hx) as (m & -> & Hm).
  unfold date_ts, ts_date, day_ns, sec_ns in *.
  pose proof (Z.div_mod m (86400 * 1000000000) ltac:(lia)) as Hdm.
  pose proof (Z.mod_pos_bound m (86400 * 1000000000) ltac:(lia)) as Hb.
  pose proof (Z.div_mod x 1000000000 ltac:(lia)) as Hdx.
  rewrite Hmod in Hdx. lia.
Qed.

Lemma default_range_keeps_witness :
  has_col dated_and_undated (date_col_of dated_and_undated) = true /\
  all_null dated_and_undated (date_col_of dated_and_undated) = false /\
  In (nth 0 (rows dated_and_undated) []) (rows dated_and_undated) /\
  (In (nth 0 (rows dated_and_undated) [])
      (rows (filter_by_date dated_and_undated (date_col_of dated_and_undated)
               (sidebar_dates dated_and_undated None))) <->
   exists x, get (nth 0 (rows dated_and_undated) []) (date_col_of dated_and_undated) = CTime x /\
     x <= date_ts (ts_date (match col_extreme Z.max dated_and_undated
                                   (date_col_of dated_and_undated) with
                            | Some m => m | None => 0 end)) + day_ns - sec_ns) /\
  (forall x, get (nth 0 (rows dated_and_undated) []) (date_col_of dated_and_undated) = CTime x ->
   x mod sec_ns = 0 ->
   In (nth 0 (rows dated_and_undated) [])
      (rows (filter_by_date dated_and_undated (date_col_of dated_and_undated)
               (sidebar_dates dated_and_undated None)))).
Proof.
  split; [vm_compute; reflexivity |]. split; [vm_compute; reflexivity |].
  split; [vm_compute; left; reflexivity |].
  apply default_range_keeps; [vm_compute; reflexivity | vm_compute; reflexivity |].
  vm_compute. left. reflexivity.
Defined.

(** ** The argmax picks (lines 143-151) *)

Lemma Qltb_lt (x y : Q) : Qltb x y = true -> (x < y)%Q.
Proof.
  unfold Qltb. intros H. apply negb_true_iff in H.
  apply Qnot_le_lt. intros Hle. apply Qle_bool_iff in Hle. congruence.
Qed.

Lemma idxmax_aux_spec (ks : list Q) :
  forall (pre : list Q) (best : option (nat * Q)),
  (match best with
   | None => pre = []
   | Some (j, m) => (j < List.length pre)%nat /\ nth j pre 0%Q = m /\
       (forall k, (k < List.length pre)%nat -> nth k pre 0 <= m)%Q /\
       (forall k, (k < j)%nat -> nth k pre 0 < m)%Q
   end) ->
  match idxmax_aux ks (List.length pre) best with
  | None => pre ++ ks = []
  | Some i => (i < List.length (pre ++ ks))%nat /\
      (forall k, (k < List.length (pre ++ ks))%nat -> nth k (pre ++ ks) 0 <= nth i (pre ++ ks) 0)%Q /\
      (forall k, (k < i)%nat -> nth k (pre ++ ks) 0 < nth i (pre ++ ks) 0)%Q
  end.
Proof.
  induction ks as [| x ks IH]; intros pre best Hinv; simpl.
  - rewrite app_nil_r. destruct best as [[j m] |]; simpl; [| exact Hinv].
    destruct Hinv as (Hj & Hm & Hle & Hlt). subst m. auto.
  - replace (S (List.length pre)) with (List.length (pre ++ [x]))
      by (rewrite length_app; simpl; lia).
    replace (pre ++ x :: ks) with ((pre ++ [x]) ++ ks) by now rewrite <- app_assoc.
    assert (Hx : nth (List.length pre) (pre ++ [x]) 0%Q = x)
      by (rewrite app_nth2, Nat.sub_diag by lia; reflexivity).
    assert (Hpre : forall k, (k < List.length pre)%nat -> nth k (pre ++ [x]) 0%Q = nth k pre 0%Q)
      by (intros; now apply app_nth1).
    assert (Hlen : List.length (pre ++ [x]) = S (List.length pre))
      by (rewrite length_app; simpl; lia).
    destruct best as [[j m] |].
    + destruct Hinv as (Hj & Hm & Hle & Hlt).
      destruct (Qltb m x) eqn:E.
      * apply IH. rewrite Hlen. split; [lia |]. split; [exact Hx |].
        apply Qltb_lt in E.
        split.
        -- intros k Hk. destruct (Nat.eq_dec k (List.length pre)) as [-> | Hne];
             [rewrite Hx; apply Qle_refl |].
           rewrite Hpre by lia. apply Qle_trans with m; [apply Hle; lia | now apply Qlt_le_weak].
        -- intros k Hk. rewrite Hpre by lia. apply Qle_lt_trans with m; [apply Hle; lia | exact E].
      * apply IH. rewrite Hlen. split; [lia |].
        apply Qltb_false in E. split; [now rewrite Hpre |]. split.
        -- intros k Hk. destruct (Nat.eq_dec k (List.length pre)) as [-> | Hne];
             [now rewrite Hx |].
           rewrite Hpre by lia. apply Hle. lia.
        -- intros k Hk. rewrite Hpre by lia. apply Hlt. exact Hk.
    + subst pre. apply IH. simpl. split; [lia |]. split; [reflexivity |].
      split; intros k Hk; [| lia]. destruct k; [apply Qle_refl | lia].
Qed.

Lemma idxmax_spec (ks : list Q) :
  match idxmax ks with
  | None => ks = []
  | Some i => (i < List.length ks)%nat /\
      (forall k, (k < List.length ks)%nat -> nth k ks 0 <= nth i ks 0)%Q /\
      (forall k, (k < i)%nat -> nth k ks 0 < nth i ks 0)%Q
  end.
Proof. exact (idxmax_aux_spec ks [] None eq_refl). Qed.

Lemma has_col_add_engagement (t : table) (d : string) :
  has_col (add_engagement t) d = has_col t d || String.eqb d "engagement_rate".
Proof.
  unfold add_engagement, has_col. cbn [cols].
  destruct (existsb (String.eqb "engagement_rate") (cols t)) eqn:He.
  - destruct (String.eqb_spec d "engagement_rate") as [-> | _];
      [now rewrite He | now rewrite orb_false_r].
  - rewrite existsb_app. simpl. now rewrite orb_false_r.
Qed.

Lemma has_col_derived (t t0 : table) (d : string) :
  coerce_numeric t = Some t0 ->
  has_col (add_engagement t0) d =
  has_col t d || existsb (String.eqb d) numeric_cols || String.eqb d "engagement_rate".
Proof.
  intros H. rewrite has_col_add_engagement. unfold coerce_numeric in H.
  now rewrite (has_col_coerce_cols _ _ _ _ H).
Qed.

Lemma filter_by_date_cols (t : table) (c : string) (d : option (Z * Z)) :
  cols (filter_by_date t c d) = cols t.
Proof. unfold filter_by_date. destruct d as [[s e] |]; [destruct (has_col t c) |]; reflexivity. Qed.

Lemma has_col_filter_by_date (t : table) (c : string) (d : option (Z * Z)) (e : string) :
  has_col (filter_by_date t c d) e = has_col t e.
Proof. apply has_col_cols, filter_by_date_cols. Qed.

Lemma run_filtered_not_empty (s : store) ud ut s' o :
  run s ud ut = Some (s', o) -> rows (o_filtered o) <> [] -> df_empty (o_filtered o) = false.
Proof.
  intros H Hr. apply run_unfold in H as [_ Hd]. apply derive_unfold in Hd as (fv0 & Hcn & Ho). cbv zeta in Ho. subst o.
  cbn [o_filtered] in *. unfold df_empty.
  destruct (rows _) as [| r rs]; [congruence |].
  set (fv := add_engagement _).
  assert (Hv : has_col fv "views" = true)
    by (unfold fv; rewrite (has_col_derived _ _ _ Hcn); simpl; now rewrite orb_true_r).
  unfold has_col in Hv. destruct (cols fv); [discriminate | reflexivity].
Qed.

(** Extra.  When the filtered table has rows, each of the "most viewed",
    "most liked" and "most disliked" picks is a row of that table holding
    the largest value of its column, and the first such row in table order
    (every earlier row has a strictly smaller value). *)
Theorem most_picks_first_max (s : store) ud ut s' o :
  run s ud ut = Some (s', o) -> rows (o_filtered o) <> [] ->
  forall p c, In (p, c) [(o_mv o, "views"); (o_ml o, "likes"); (o_md o, "dislikes")] ->
  exists i, (i < List.length (rows (o_filtered o)))%nat /\
    p = Found (nth i (rows (o_filtered o)) []) /\
    (forall k, (k < List.length (rows (o_filtered o)))%nat ->
       nth k (keys (o_filtered o) c) 0 <= nth i (keys (o_filtered o) c) 0)%Q /\
    (forall k, (k < i)%nat ->
       nth k (keys (o_filtered o) c) 0 < nth i (keys (o_filtered o) c) 0)%Q.
Proof.
  intros H Hr p c Hin.
  pose proof (run_filtered_not_empty _ _ _ _ _ H Hr) as He.
  assert (Hp : p = most (o_filtered o) (videos_df s') c).
  { apply run_unfold in H as [_ Hd]. apply derive_unfold in Hd as (fv0 & Hcn & Ho). cbv zeta in Ho. subst o.
    simpl in Hin. destruct Hin as [[= <- <-] | [[= <- <-] | [[= <- <-] | []]]]; reflexivity. }
  subst p. unfold most. rewrite He. simpl. unfold pick_max.
  pose proof (idxmax_spec (keys (o_filtered o) c)) as Hs.
  destruct (idxmax (keys (o_filtered o) c)) as [i |].
  - rewrite keys_length in Hs. destruct Hs as (Hi & Hle & Hlt).
    exists i. auto.
  - apply (f_equal (@List.length Q)) in Hs. rewrite keys_length in Hs.
    destruct (rows (o_filtered o)); [congruence | discriminate].
Qed.

Lemma most_picks_first_max_witness :
  exists s' o, run two_videos_store None None = Some (s', o) /\
  rows (o_filtered o) <> [] /\
  forall p c, In (p, c) [(o_mv o, "views"); (o_ml o, "likes"); (o_md o, "dislikes")] ->
  exists i, (i < List.length (rows (o_filtered o)))%nat /\
    p = Found (nth i (rows (o_filtered o)) []) /\
    (forall k, (k < List.length (rows (o_filtered o)))%nat ->
       nth k (keys (o_filtered o) c) 0 <= nth i (keys (o_filtered o) c) 0)%Q /\
    (forall k, (k < i)%nat ->
       nth k (keys (o_filtered o) c) 0 < nth i (keys (o_filtered o) c) 0)%Q.
Proof.
  destruct (run two_videos_store None None) as [[s' o] |] eqn:E.
  - assert (Hr : rows (o_filtered o) <> []).
    { vm_compute in E. injection E as _ <-. vm_compute. discriminate. }
    exists s', o. split; [reflexivity |]. split; [exact Hr |].
    exact (most_picks_first_max two_videos_store None None s' o E Hr).
  - vm_compute in E. discriminate.
Defined.

Lemma in_combine_seq {B} (l : list B) (k : nat) (x : B) :
  In x l -> exists i, In (i, x) (combine (seq k (List.length l)) l).
Proof.
  revert k. induction l as [| y l IH]; intros k; simpl; [tauto |].
  intros [-> | Hin]; [exists k; now left |].
  destruct (IH (S k) Hin) as [i Hi]. exists i. now right.
Qed.

Lemma filter_nil_all {B} (f : B -> bool) (l : list B) :
  (forall x, In x l -> f x = false) -> filter f l = [].
Proof.
  induction l as [| x l IH]; simpl; intros H; [reflexivity |].
  rewrite (H x (or_introl eq_refl)). apply IH. auto.
Qed.

Lemma str_ltb_irrefl (a : string) : str_ltb a a = false.
Proof.
  induction a as [| x a IH]; simpl; [reflexivity |].
  rewrite Nat.ltb_irrefl, Ascii.eqb_refl. exact IH.
Qed.

Lemma str_ltb_trans (a b c : string) :
  str_ltb a b = true -> str_ltb b c = true -> str_ltb a c = true.
Proof.
  revert b c. induction a as [| x a IH]; intros [| y b] [| z c]; simpl; try discriminate; auto.
  destruct (Nat.ltb_spec (nat_of_ascii x) (nat_of_ascii y));
  destruct (Nat.ltb_spec (nat_of_ascii y) (nat_of_ascii z));
  destruct (Nat.ltb_spec (nat_of_ascii x) (nat_of_ascii z));
  destruct (Ascii.eqb_spec x y); destruct (Ascii.eqb_spec y z); destruct (Ascii.eqb_spec x z);
  subst; intros Ha Hb; try lia; try discriminate; eauto.
Qed.

Lemma str_idxmax_aux_spec (l pre : list string) (best : option (nat * string)) :
  match best with
  | None => pre = []
  | Some (j, m) => (j < List.length pre)%nat /\ nth j pre EmptyString = m /\
                   forall y, In y pre -> str_ltb m y = false
  end ->
  l <> [] \/ best <> None ->
  exists j, str_idxmax_aux l (List.length pre) best = Some j /\
    (j < List.length (pre ++ l))%nat /\
    forall y, In y (pre ++ l) -> str_ltb (nth j (pre ++ l) EmptyString) y = false.
Proof.
  revert pre best. induction l as [| x l IH]; intros pre best Hb Hne.
  - destruct best as [[j m] |]; [| destruct Hne as [Hne | Hne]; congruence].
    destruct Hb as (Hj & Hm & Hle). simpl. exists j. rewrite app_nil_r.
    split; [reflexivity |]. split; [exact Hj |]. rewrite Hm. exact Hle.
  - replace (pre ++ x :: l) with ((pre ++ [x]) ++ l) by now rewrite <- app_assoc.
    assert (Hlen : S (List.length pre) = List.length (pre ++ [x]))
      by (rewrite length_app; simpl; lia).
    assert (Hx : nth (List.length pre) (pre ++ [x]) EmptyString = x)
      by (rewrite app_nth2, Nat.sub_diag by lia; reflexivity).
    simpl. destruct best as [[j m] |].
    + destruct Hb as (Hj & Hm & Hle).
      destruct (str_ltb m x) eqn:Emx; rewrite Hlen; apply IH; try (right; discriminate).
      * split; [rewrite length_app; simpl; lia |]. split; [exact Hx |].
        intros y Hy. apply in_app_or in Hy as [Hy | [<- | []]]; [| apply str_ltb_irrefl].
        destruct (str_ltb x y) eqn:Exy; [| reflexivity].
        pose proof (Hle y Hy) as Hmy. rewrite (str_ltb_trans _ _ _ Emx Exy) in Hmy.
        discriminate.
      * split; [rewrite length_app; lia |]. split; [rewrite app_nth1 by lia; exact Hm |].
        intros y Hy. apply in_app_or in Hy as [Hy | [<- | []]]; [now apply Hle | exact Emx].
    + subst pre. simpl. apply (IH [x] (Some (0%nat, x))); [| right; discriminate].
      split; [simpl; lia |]. split; [reflexivity |].
      intros y [<- | []]. apply str_ltb_irrefl.
Qed.

Lemma str_idxmax_spec (l : list string) :
  l <> [] ->
  exists j, str_idxmax l = Some j /\ (j < List.length l)%nat /\
    forall y, In y l -> str_ltb (nth j l EmptyString) y = false.
Proof.
  intros Hne. exact (str_idxmax_aux_spec l [] None eq_refl (or_introl Hne)).
Qed.

Lemma nth_map_lt {B C} (f : B -> C) (l : list B) (i : nat) (d : B) (d' : C) :
  (i < List.length l)%nat -> nth i (map f l) d' = f (nth i l d).
Proof.
  intros Hi. rewrite (nth_indep _ d' (f d)) by now rewrite length_map. apply map_nth.
Qed.

(** Extra.  The fallback pick on the unfiltered [videos_df] (used when the
    filtered table is empty) is never "absent"; when it raises, the
    exception escapes the script, as it is not inside a [try].  It raises
    when the column is missing, when text sits next to a cell that is not
    text, when numbers sit next to timestamps, and when every cell is null.
    A column of text only, in a table with rows, gives a row: one whose
    string no string of the column exceeds.  Any row it returns is a row
    of [videos_df]: either such a largest string, or a non-null cell of a
    column without text that is at least every non-null cell of the
    column. *)
Theorem fallback_pick_spec (t : table) (c : string) :
  raw_pick_max t c <> Absent /\
  (has_col t c = false -> raw_pick_max t c = Raised) /\
  (forall r r' s, In r (rows t) -> In r' (rows t) -> get r c = CStr s ->
     is_text (get r' c) = false -> raw_pick_max t c = Raised) /\
  (forall r r' q z, In r (rows t) -> In r' (rows t) -> get r c = CNum q ->
     get r' c = CTime z -> raw_pick_max t c = Raised) /\
  ((forall r, In r (rows t) -> get r c = CNull) -> raw_pick_max t c = Raised) /\
  (has_col t c = true -> rows t <> [] ->
     (forall r, In r (rows t) -> is_text (get r c) = true) ->
     exists r, raw_pick_max t c = Found r) /\
  (forall r, raw_pick_max t c = Found r ->
     In r (rows t) /\
     ((exists s, get r c = CStr s /\
         forall r' s', In r' (rows t) -> get r' c = CStr s' -> str_ltb s s' = false) \/
      (is_text (get r c) = false /\ is_null (get r c) = false /\
         forall r', In r' (rows t) -> is_null (get r' c) = false ->
           (order_key (get r' c) <= order_key (get r c))%Q))).
Proof.
  unfold raw_pick_max.
  set (vs := map (fun r => get r c) (rows t)).
  set (valued := filter _ (combine (seq 0 (List.length (rows t))) (rows t))).
  assert (Hvs : forall r, In r (rows t) -> In (get r c) vs)
    by (intros r Hr; unfold vs; exact (in_map (fun r => get r c) _ _ Hr)).
  split; [| split; [| split; [| split; [| split; [| split]]]]].
  - destruct (has_col t c); [| discriminate].
    destruct (existsb is_text vs); [destruct (forallb is_text vs); [destruct (str_idxmax _) |] |];
      try discriminate.
    destruct (existsb is_number vs && existsb is_time vs); [discriminate |].
    destruct (idxmax _); discriminate.
  - now intros ->.
  - intros r r' s Hr Hr' Hs Hn. destruct (has_col t c); [| reflexivity].
    replace (existsb is_text vs) with true.
    + replace (forallb is_text vs) with false; [reflexivity |].
      symmetry. apply Bool.not_true_iff_false. intros Hall.
      rewrite forallb_forall in Hall. rewrite (Hall _ (Hvs r' Hr')) in Hn. discriminate.
    + symmetry. apply existsb_exists. exists (get r c). split; [now apply Hvs | now rewrite Hs].
  - intros r r' q z Hr Hr' Hq Hz. destruct (has_col t c); [| reflexivity].
    destruct (existsb is_text vs).
    + replace (forallb is_text vs) with false; [reflexivity |].
      symmetry. apply Bool.not_true_iff_false. intros Hall.
      rewrite forallb_forall in Hall. specialize (Hall _ (Hvs r Hr)). now rewrite Hq in Hall.
    + replace (existsb is_number vs && existsb is_time vs) with true; [reflexivity |].
      symmetry. apply andb_true_intro. split; apply existsb_exists.
      * exists (get r c). split; [now apply Hvs | now rewrite Hq].
      * exists (get r' c). split; [now apply Hvs | now rewrite Hz].
  - intros Hnull. destruct (has_col t c); [| reflexivity].
    replace (existsb is_text vs) with false.
    + replace (existsb is_number vs && existsb is_time vs) with false.
      * replace valued with (@nil (nat * row)); [reflexivity |].
        unfold valued. symmetry. apply filter_nil_all.
        intros [i r] Hin. simpl. rewrite (Hnull r (in_combine_r _ _ _ _ Hin)). reflexivity.
      * symmetry. apply andb_false_intro1. apply Bool.not_true_iff_false. intros Hex.
        apply existsb_exists in Hex as (v & Hv & Hnum). unfold vs in Hv.
        apply in_map_iff in Hv as (r & <- & Hr). now rewrite (Hnull r Hr) in Hnum.
    + symmetry. apply Bool.not_true_iff_false. intros Hex.
      apply existsb_exists in Hex as (v & Hv & Htx). unfold vs in Hv.
      apply in_map_iff in Hv as (r & <- & Hr). now rewrite (Hnull r Hr) in Htx.
  - intros Hc Hne Htext. rewrite Hc.
    assert (Hall : forallb is_text vs = true).
    { apply forallb_forall. intros v Hv. unfold vs in Hv.
      apply in_map_iff in Hv as (r & <- & Hr). now apply Htext. }
    replace (existsb is_text vs) with true.
    + rewrite Hall.
      assert (Hl : map text_of vs <> []).
      { unfold vs. destruct (rows t); [congruence | discriminate]. }
      destruct (str_idxmax_spec _ Hl) as (j & Hj & _). rewrite Hj. eauto.
    + symmetry. destruct (rows t) as [| r0 rs] eqn:Er; [congruence |].
      apply existsb_exists. exists (get r0 c). split; [apply Hvs; now left |].
      apply Htext. now left.
  - intros r. destruct (has_col t c); [| discriminate].
    destruct (existsb is_text vs) eqn:Etx.
    + destruct (forallb is_text vs) eqn:Eall; [| discriminate].
      assert (Hl : map text_of vs <> []).
      { intros E. apply map_eq_nil in E. now rewrite E in Etx. }
      destruct (str_idxmax_spec _ Hl) as (j & Hj & Hjl & Hmax). rewrite Hj.
      intros [= <-]. unfold vs in Hjl. rewrite !length_map in Hjl.
      split; [now apply nth_In |]. left.
      assert (Hjt : is_text (get (nth j (rows t) []) c) = true).
      { rewrite forallb_forall in Eall. apply Eall, Hvs, nth_In, Hjl. }
      destruct (get (nth j (rows t) []) c) as [| s | |] eqn:Es; try discriminate.
      exists s. split; [reflexivity |].
      intros r' s' Hr' Hs'.
      assert (Hn : nth j (map text_of vs) EmptyString = s).
      { unfold vs. rewrite map_map.
        rewrite (nth_indep _ EmptyString (text_of (get [] c))) by (rewrite length_map; exact Hjl).
        rewrite (map_nth (fun x => text_of (get x c))). now rewrite Es. }
      rewrite <- Hn. apply Hmax. unfold vs. rewrite map_map. apply in_map_iff.
      exists r'. now rewrite Hs'.
    + destruct (existsb is_number vs && existsb is_time vs); [discriminate |].
      pose proof (idxmax_spec (map (fun ir => order_key (get (snd ir) c)) valued)) as Hs.
      destruct (idxmax _) as [k |]; [| discriminate].
      intros [= <-]. rewrite length_map in Hs. destruct Hs as (Hk & Hle & _).
      destruct (nth k valued (0%nat, [])) as [i r] eqn:Ek. simpl.
      assert (Hin : In (i, r) valued) by (rewrite <- Ek; apply nth_In; exact Hk).
      unfold valued in Hin. apply filter_In in Hin as [Hc Hnn]. simpl in Hnn.
      apply negb_true_iff in Hnn.
      pose proof (in_combine_r _ _ _ _ Hc) as Hr.
      split; [exact Hr |]. right.
      split.
      { apply Bool.not_true_iff_false. intros Ht. apply Bool.not_true_iff_false in Etx.
        apply Etx, existsb_exists. exists (get r c). split; [now apply Hvs | exact Ht]. }
      split; [exact Hnn |].
      intros r' Hr' Hn'.
      destruct (in_combine_seq (rows t) 0 r' Hr') as [i' Hi'].
      assert (Hv' : In (i', r') valued).
      { unfold valued. apply filter_In. split; [exact Hi' |]. simpl. now rewrite Hn'. }
      apply In_nth with (d := (0%nat, [])) in Hv' as (k' & Hk' & Ek').
      specialize (Hle k' Hk').
      rewrite (nth_map_lt _ _ _ ((0%nat, []) : nat * row)) in Hle by exact Hk'.
      rewrite (nth_map_lt _ _ _ ((0%nat, []) : nat * row)) in Hle by exact Hk.
      rewrite Ek', Ek in Hle. exact Hle.
Qed.

(** ** The latest-video table and the chart titles *)

Lemma forallb_table_cols (t : table) (dc : string) :
  (forall c, In c numeric_cols -> has_col t c = true) ->
  forallb (has_col t) (table_cols t dc) = has_col t "title".
Proof.
  intros Hn. unfold table_cols.
  assert (Hv : has_col t "views" = true) by (apply Hn; simpl; tauto).
  assert (Hl : has_col t "likes" = true) by (apply Hn; simpl; tauto).
  assert (Hd : has_col t "dislikes" = true) by (apply Hn; simpl; tauto).
  assert (Hc : has_col t "comments" = true) by (apply Hn; simpl; tauto).
  destruct (has_col t dc) eqn:Hdc; simpl; rewrite Hv, Hl, Hd, Hc; simpl;
    [rewrite Hdc |]; now rewrite ?andb_true_r.
Qed.

(** Extra.  The "Latest Video Stats" table (lines 241-242) raises
    [KeyError] exactly when [videos_df] has no [title] column.  Otherwise it
    shows, for every filtered video in order, its title, the four counts
    (coerced to numbers) and, when the table has it, the date column. *)
Theorem latest_table_spec (s : store) ud ut s' o :
  run s ud ut = Some (s', o) ->
  (latest_table (o_filtered o) (date_col_of (videos_df s')) = None <->
   has_col (videos_df s') "title" = false) /\
  (has_col (videos_df s') "title" = true ->
   exists lt, latest_table (o_filtered o) (date_col_of (videos_df s')) = Some lt /\
   cols lt = table_cols (o_filtered o) (date_col_of (videos_df s')) /\
   rows lt = map (fun r => map (fun c => (c, get r c)) (cols lt)) (rows (o_filtered o))).
Proof.
  intros H. apply run_unfold in H as [_ Hd]. apply derive_unfold in Hd as (fv0 & Hcn & Ho). cbv zeta in Ho. subst o. cbn [o_filtered].
  set (v := videos_df s').
  set (fv := add_engagement _).
  assert (Hn : forall c, In c numeric_cols -> has_col fv c = true).
  { intros c Hc. unfold fv. rewrite (has_col_derived _ _ _ Hcn).
    replace (existsb (String.eqb c) numeric_cols) with true; [now rewrite orb_true_r |].
    symmetry. apply existsb_exists. exists c. split; [exact Hc | apply String.eqb_refl]. }
  assert (Ht : has_col fv "title" = has_col v "title").
  { unfold fv. rewrite (has_col_derived _ _ _ Hcn), has_col_filter_by_date. simpl.
    now rewrite !orb_false_r. }
  unfold latest_table, select_cols. rewrite (forallb_table_cols fv _ Hn), Ht.
  split.
  - destruct (has_col v "title"); split; congruence.
  - intros ->. eexists. split; [reflexivity |]. split; reflexivity.
Qed.

Lemma latest_table_spec_witness :
  exists s' o, run two_videos_store None None = Some (s', o) /\
  (latest_table (o_filtered o) (date_col_of (videos_df s')) = None <->
   has_col (videos_df s') "title" = false) /\
  (has_col (videos_df s') "title" = true ->
   exists lt, latest_table (o_filtered o) (date_col_of (videos_df s')) = Some lt /\
   cols lt = table_cols (o_filtered o) (date_col_of (videos_df s')) /\
   rows lt = map (fun r => map (fun c => (c, get r c)) (cols lt)) (rows (o_filtered o))).
Proof.
  destruct (run two_videos_store None None) as [[s' o] |] eqn:E.
  - exists s', o. split; [reflexivity |].
    exact (latest_table_spec two_videos_store None None s' o E).
  - vm_compute in E. discriminate.
Defined.

(** Extra.  The engagement chart's title (line 206) always gives the number
    of bars it draws.  The views chart's title (line 194) gives [top_n],
    which is at least its number of bars, and equal to it exactly when the
    filtered table has at least [top_n] videos. *)
Theorem chart_title_counts (s : store) ud ut s' o :
  run s ud ut = Some (s', o) ->
  eng_title_count (o_top_n o) (o_top_eng o) = Z.of_nat (List.length (rows (o_top_eng o))) /\
  Z.of_nat (List.length (rows (o_df_top_n o))) <= views_title_count (o_top_n o) /\
  (Z.of_nat (List.length (rows (o_df_top_n o))) = views_title_count (o_top_n o) <->
   views_title_count (o_top_n o) <= Z.of_nat (List.length (rows (o_filtered o)))).
Proof.
  intros H. apply run_unfold in H as [_ Hd]. apply derive_unfold in Hd as (fv0 & Hcn & Ho). cbv zeta in Ho.
  set (fv := add_engagement _) in Ho. subst o.
  cbn [o_top_n o_top_eng o_df_top_n o_filtered]. unfold eng_title_count, views_title_count.
  rewrite head_length, sort_values_desc_length, nlargest_length.
  assert (Hn : 3 <= top_n_of ut <= 50) by (apply st_slider_range; lia).
  rewrite Nat2Z.inj_min, Z2Nat.id by lia. lia.
Qed.

Lemma chart_title_counts_witness :
  exists s' o, run five_store None (Some 3) = Some (s', o) /\
  eng_title_count (o_top_n o) (o_top_eng o) = Z.of_nat (List.length (rows (o_top_eng o))) /\
  Z.of_nat (List.length (rows (o_df_top_n o))) <= views_title_count (o_top_n o) /\
  (Z.of_nat (List.length (rows (o_df_top_n o))) = views_title_count (o_top_n o) <->
   views_title_count (o_top_n o) <= Z.of_nat (List.length (rows (o_filtered o)))).
Proof.
  destruct (run five_store None (Some 3)) as [[s' o] |] eqn:E.
  - exists s', o. split; [reflexivity |].
    exact (chart_title_counts five_store None (Some 3) s' o E).
  - vm_compute in E. discriminate.
Defined.

(** ** Ties in the [nlargest] fast path *)

Lemma lex_trans (a : nat -> Q) (x y z : nat) :
  (a x < a y \/ a x == a y /\ (x < y)%nat)%Q ->
  (a y < a z \/ a y == a z /\ (y < z)%nat)%Q ->
  (a x < a z \/ a x == a z /\ (x < z)%nat)%Q.
Proof.
  intros [H1 | [H1 H1']] [H2 | [H2 H2']].
  - left. eapply Qlt_trans; eauto.
  - left. rewrite <- H2. exact H1.
  - left. rewrite H1. exact H2.
  - right. split; [eapply Qeq_trans; eauto | lia].
Qed.

Lemma insert_by_lex (a : nat -> Q) (x : nat) (l : list nat) :
  StronglySorted (fun i j => a i < a j \/ a i == a j /\ (i < j)%nat)%Q l ->
  Forall (fun y => (y < x)%nat) l ->
  StronglySorted (fun i j => a i < a j \/ a i == a j /\ (i < j)%nat)%Q (insert_by a x l).
Proof.
  induction l as [| y l IH]; simpl; intros Hs Hlt; [repeat constructor |].
  inversion Hs as [| ? ? Hs' Hf]; subst. inversion Hlt as [| ? ? Hyx Hlt']; subst.
  destruct (Qltb (a x) (a y)) eqn:E.
  - apply Qltb_lt in E. constructor; [exact Hs |].
    constructor; [now left |]. rewrite Forall_forall in *.
    intros z Hz. apply (lex_trans a x y z); [now left | auto].
  - apply Qltb_false in E. constructor; [now apply IH |].
    rewrite Forall_forall in *. intros z Hz.
    apply (Permutation_in _ (Permutation_sym (insert_by_perm a x l))) in Hz.
    destruct Hz as [<- | Hz]; [| auto].
    destruct (Qlt_le_dec (a y) (a x)) as [Hl | Hl]; [now left |].
    right. split; [now apply Qle_antisym | exact Hyx].
Qed.

(** Sorting indices listed in increasing order with the stable insertion
    sort orders them by key, and equal keys by index. *)
Lemma stable_sort_lex (a : nat -> Q) (l : list nat) :
  StronglySorted lt l ->
  StronglySorted (fun i j => a i < a j \/ a i == a j /\ (i < j)%nat)%Q (stable_sort_by a l).
Proof.
  unfold stable_sort_by.
  assert (G : forall l acc,
    StronglySorted (fun i j => a i < a j \/ a i == a j /\ (i < j)%nat)%Q acc ->
    StronglySorted lt l -> (forall y z, In y acc -> In z l -> (y < z)%nat) ->
    StronglySorted (fun i j => a i < a j \/ a i == a j /\ (i < j)%nat)%Q
      (fold_left (fun acc x => insert_by a x acc) l acc)).
  { induction l0 as [| x l0 IH]; simpl; intros acc Hacc Hl Hlt; [exact Hacc |].
    inversion Hl as [| ? ? Hl' Hf]; subst. rewrite Forall_forall in Hf.
    apply IH; [| exact Hl' |].
    - apply insert_by_lex; [exact Hacc |]. apply Forall_forall. intros y Hy. auto.
    - intros y z Hy Hz.
      apply (Permutation_in _ (Permutation_sym (insert_by_perm a x acc))) in Hy.
      destruct Hy as [<- | Hy]; auto. }
  intros Hl. apply G; [constructor | exact Hl | contradiction].
Qed.

Lemma seq_strongly_sorted (s n : nat) : StronglySorted lt (seq s n).
Proof.
  revert s. induction n as [| n IH]; simpl; intros s; constructor; [apply IH |].
  apply Forall_forall. intros x Hx. apply in_seq in Hx. lia.
Qed.

Lemma filter_strongly_sorted {B} (R : B -> B -> Prop) (f : B -> bool) (l : list B) :
  StronglySorted R l -> StronglySorted R (filter f l).
Proof.
  induction 1 as [| x l Hs IH Hf]; simpl; [constructor |].
  destruct (f x); [| exact IH]. constructor; [exact IH |].
  rewrite Forall_forall in *. intros y Hy. apply filter_In in Hy. now apply Hf.
Qed.

Lemma Qopp_lt_iff (x y : Q) : (- x < - y)%Q <-> (y < x)%Q.
Proof. unfold Qlt. simpl. nia. Qed.

Lemma Qopp_eq_iff (x y : Q) : (- x == - y)%Q <-> (x == y)%Q.
Proof. unfold Qeq. simpl. nia. Qed.

(** [df.nlargest(n, c)] with [0 < n < len(df)] (line 94 when the filtered
    table has more than [top_n] videos, line 223 with more than 10): the
    selected rows are ordered by decreasing value and, between equal
    values, by their position in [df]; a row left out is below every
    selected row, or equal to it and later in [df].  So ties are broken by
    input order on this path (keep="first"). *)
Theorem nlargest_ties_first (t : table) (c : string) (n : nat) :
  (0 < n)%nat -> (n < List.length (rows t))%nat ->
  let key i := nth i (keys t c) 0%Q in
  exists sel : list nat,
    rows (nlargest n t c) = map (fun i => nth i (rows t) []) sel /\
    List.length sel = n /\ NoDup sel /\
    (forall i, In i sel -> (i < List.length (rows t))%nat) /\
    StronglySorted (fun i j => key j < key i \/ key j == key i /\ (i < j)%nat)%Q sel /\
    (forall i j, In i sel -> (j < List.length (rows t))%nat -> ~ In j sel ->
       key j < key i \/ key j == key i /\ (i < j)%nat)%Q.
Proof.
  intros Hn0 Hnl key. unfold nlargest. pose proof (keys_length t c) as Hk.
  destruct (Nat.eqb_spec n 0) as [-> | _]; [lia |].
  destruct (Nat.leb_spec (List.length (keys t c)) n) as [Hle | _]; [lia |].
  set (arr := map Qopp (keys t c)). set (kth_val := kth_smallest arr (n - 1)).
  set (a := fun i => nth i arr 0%Q).
  set (ns := filter (fun i => Qle_bool (a i) kth_val) (seq 0 (List.length (keys t c)))).
  set (inds := stable_sort_by a ns).
  assert (Ha : forall i, a i = Qopp (key i)) by (intros i; apply nth_map_opp).
  assert (Harr : List.length arr = List.length (rows t)).
  { unfold arr. now rewrite length_map. }
  destruct (stable_sort_by_spec a ns) as [Hp _]. fold inds in Hp.
  assert (Hs : StronglySorted (fun i j => a i < a j \/ a i == a j /\ (i < j)%nat)%Q inds).
  { apply stable_sort_lex, filter_strongly_sorted, seq_strongly_sorted. }
  assert (Hns : forall i, In i ns <-> (i < List.length (rows t))%nat /\ (a i <= kth_val)%Q).
  { intros i. unfold ns. rewrite filter_In, in_seq, Hk, Qle_bool_iff.
    split; intros [H1 H2]; split; auto; lia. }
  assert (Hcount : (n <= List.length ns)%nat).
  { unfold ns. rewrite Hk, <- Harr.
    pose proof (length_filter_seq_nth (fun q => Qle_bool q kth_val) arr 0%Q) as E.
    cbv beta in E. unfold a. rewrite E.
    pose proof (kth_smallest_count arr (n - 1) ltac:(lia)) as K.
    unfold kth_val. lia. }
  assert (Hnd : NoDup inds).
  { eapply Permutation_NoDup; [exact Hp |]. apply NoDup_filter, seq_NoDup. }
  assert (Hin : forall i, In i inds -> In i ns).
  { intros i Hi. exact (Permutation_in _ (Permutation_sym Hp) Hi). }
  assert (Hconv : forall i j, (a i < a j \/ a i == a j /\ (i < j)%nat)%Q ->
            (key j < key i \/ key j == key i /\ (i < j)%nat)%Q).
  { intros i j H. rewrite !Ha in H. destruct H as [H | [H H']].
    - left. now apply Qopp_lt_iff.
    - right. split; [symmetry; now apply Qopp_eq_iff | exact H']. }
  unfold take_rows. simpl.
  exists (firstn n inds). split; [reflexivity |]. split.
  { rewrite length_firstn, <- (Permutation_length Hp). lia. }
  split; [now apply NoDup_firstn' |]. split.
  { intros i Hi. apply in_firstn_in, Hin, Hns in Hi. tauto. }
  split.
  - apply SS_firstn. eapply SS_impl_in; [| exact Hs]. intros x y _ _. apply Hconv.
  - intros i j Hi Hj Hnj. apply Hconv.
    assert (Hi' : In i ns) by (apply Hin; eapply in_firstn_in; eauto).
    apply Hns in Hi' as [_ Hik].
    destruct (Qle_bool (a j) kth_val) eqn:E.
    + assert (Hj' : In j inds).
      { apply (Permutation_in _ Hp). apply Hns. split; [exact Hj |]. now apply Qle_bool_iff. }
      rewrite <- (firstn_skipn n inds) in Hj', Hs.
      apply in_app_or in Hj' as [Hj' | Hj']; [contradiction |].
      exact (SS_app_in _ _ _ _ _ _ Hs Hi Hj').
    + left. eapply Qle_lt_trans; [exact Hik |]. apply Qnot_le_lt.
      intros Hle. apply Qle_bool_iff in Hle. congruence.
Qed.

Lemma nlargest_ties_first_witness :
  (0 < 10)%nat /\ (10 < List.length (rows (tie_videos)))%nat /\
  exists sel : list nat,
    rows (nlargest 10 (tie_videos) "views") =
      map (fun i => nth i (rows (tie_videos)) []) sel /\
    List.length sel = 10%nat /\ NoDup sel /\
    (forall i, In i sel -> (i < List.length (rows (tie_videos)))%nat) /\
    StronglySorted (fun i j =>
      nth j (keys (tie_videos) "views") 0 <
        nth i (keys (tie_videos) "views") 0 \/
      nth j (keys (tie_videos) "views") 0 ==
        nth i (keys (tie_videos) "views") 0 /\ (i < j)%nat)%Q sel /\
    (forall i j, In i sel -> (j < List.length (rows (tie_videos)))%nat ->
       ~ In j sel ->
       nth j (keys (tie_videos) "views") 0 <
         nth i (keys (tie_videos) "views") 0 \/
       nth j (keys (tie_videos) "views") 0 ==
         nth i (keys (tie_videos) "views") 0 /\ (i < j)%nat)%Q.
Proof.
  split; [lia |]. split; [apply Nat.ltb_lt; vm_compute; reflexivity |].
  apply (nlargest_ties_first (tie_videos) "views" 10);
    [lia | apply Nat.ltb_lt; vm_compute; reflexivity].
Defined.

(** ** Thousands separators (lines 133-139 and 155-163) *)

Lemma digits_value_snoc (ds : list Z) (d : Z) :
  digits_value (ds ++ [d]) = digits_value ds * 10 + d.
Proof. unfold digits_value. now rewrite fold_left_app. Qed.

Lemma digits_fuel_spec (f : nat) (n : Z) :
  0 <= n < 10 ^ (Z.of_nat f + 1) ->
  digits_fuel f n <> [] /\ Forall (fun d => 0 <= d <= 9) (digits_fuel f n) /\
  digits_value (digits_fuel f n) = n /\ (hd 0 (digits_fuel f n) = 0 -> n = 0).
Proof.
  revert n. induction f as [| f IH]; intros n Hn.
  - simpl in Hn |- *. repeat split; [discriminate | repeat constructor; lia | auto].
  - simpl. destruct (Z.ltb_spec n 10) as [Hl | Hl].
    + repeat split; [discriminate | repeat constructor; lia | auto].
    + assert (Hpow : 10 ^ (Z.of_nat (S f) + 1) = 10 ^ (Z.of_nat f + 1) * 10).
      { rewrite Nat2Z.inj_succ, <- Z.add_1_r, (Z.pow_add_r 10 (Z.of_nat f + 1) 1) by lia.
        reflexivity. }
      destruct (IH (n / 10)) as (Hne & Hd & Hv & Hh).
      { split; [apply Z.div_pos; lia |]. apply Z.div_lt_upper_bound; lia. }
      split; [destruct (digits_fuel f (n / 10)); simpl; discriminate |].
      split; [apply Forall_app; split; [exact Hd | constructor; [| constructor]];
              pose proof (Z.mod_pos_bound n 10); lia |].
      split; [rewrite digits_value_snoc, Hv; pose proof (Z.div_mod n 10); lia |].
      destruct (digits_fuel f (n / 10)) as [| d ds]; [congruence |].
      simpl. intros H0. specialize (Hh H0). pose proof (Z.div_mod n 10).
      pose proof (Z.mod_pos_bound n 10). lia.
Qed.

Lemma dec_digits_spec (n : Z) :
  0 <= n ->
  dec_digits n <> [] /\ Forall (fun d => 0 <= d <= 9) (dec_digits n) /\
  digits_value (dec_digits n) = n /\ (hd 0 (dec_digits n) = 0 -> n = 0).
Proof.
  intros Hn. unfold dec_digits. apply digits_fuel_spec. split; [exact Hn |].
  pose proof (Z.log2_nonneg n) as Hl.
  rewrite Nat2Z.inj_succ, Z2Nat.id by exact Hl.
  destruct (Z.eq_dec n 0) as [-> | Hn0]; [apply Z.pow_pos_nonneg; lia |].
  destruct (Z.log2_spec n ltac:(lia)) as [_ Hup].
  eapply Z.lt_le_trans; [exact Hup |].
  eapply Z.le_trans; [apply (Z.pow_le_mono_l 2 10); lia |].
  apply Z.pow_le_mono_r; lia.
Qed.

Lemma join_commas_cons (g : list ascii) (gs : list (list ascii)) :
  gs <> [] -> join_commas (g :: gs) = g ++ ","%char :: join_commas gs.
Proof. destruct gs; [congruence | reflexivity]. Qed.

Lemma join_commas_snoc (gs : list (list ascii)) (h : list ascii) :
  gs <> [] -> join_commas (gs ++ [h]) = join_commas gs ++ ","%char :: h.
Proof.
  induction gs as [| g gs IH]; intros Hne; [congruence |].
  destruct gs as [| g' gs]; [reflexivity |].
  change ((g :: g' :: gs) ++ [h]) with (g :: ((g' :: gs) ++ [h])).
  rewrite (join_commas_cons g ((g' :: gs) ++ [h])) by (simpl; discriminate).
  rewrite IH by discriminate. rewrite (join_commas_cons g (g' :: gs)) by discriminate.
  now rewrite <- app_assoc.
Qed.

Lemma rev_join_commas (gs : list (list ascii)) :
  rev (join_commas gs) = join_commas (rev (map (@rev ascii) gs)).
Proof.
  induction gs as [| g gs IH]; [reflexivity |].
  destruct gs as [| g' gs]; [simpl; reflexivity |].
  rewrite join_commas_cons by discriminate. rewrite rev_app_distr.
  change (rev (","%char :: join_commas (g' :: gs)))
    with (rev (join_commas (g' :: gs)) ++ [","%char]).
  rewrite IH.
  change (rev (map (@rev ascii) (g :: g' :: gs)))
    with (rev (map (@rev ascii) (g' :: gs)) ++ [rev g]).
  rewrite join_commas_snoc.
  - simpl. now rewrite <- app_assoc.
  - simpl. destruct (rev (map (@rev ascii) gs)); discriminate.
Qed.

Lemma concat_rev_map_rev {B} (gs : list (list B)) :
  List.concat (rev (map (@rev B) gs)) = rev (List.concat gs).
Proof.
  induction gs as [| g gs IH]; [reflexivity |].
  simpl. now rewrite concat_app, IH, rev_app_distr; simpl; rewrite app_nil_r.
Qed.

Lemma group3_rev_groups_le (k : nat) (l : list ascii) :
  l <> [] -> (List.length l <= k)%nat ->
  exists gs g, l = List.concat gs ++ g /\ group3_rev l = join_commas (gs ++ [g]) /\
    Forall (fun h => List.length h = 3%nat) gs /\ (1 <= List.length g <= 3)%nat.
Proof.
  revert l. induction k as [| k IH]; intros l Hne Hk.
  { destruct l; [congruence | simpl in Hk; lia]. }
  destruct l as [| a [| b [| c [| x l']]]]; [congruence | | | | ].
  - exists [], [a]. repeat split; simpl; auto.
  - exists [], [a; b]. repeat split; simpl; auto.
  - exists [], [a; b; c]. repeat split; simpl; auto.
  - destruct (IH (x :: l')) as (gs & g & Hl & Hg & Hf & Hlen);
      [discriminate | simpl in Hk |- *; lia |].
    exists ([a; b; c] :: gs), g. split; [simpl; now rewrite Hl |]. split.
    + change (group3_rev (a :: b :: c :: x :: l'))
        with (a :: b :: c :: ","%char :: group3_rev (x :: l')).
      rewrite Hg. change (([a; b; c] :: gs) ++ [g]) with ([a; b; c] :: (gs ++ [g])).
      rewrite join_commas_cons by (destruct gs; discriminate). reflexivity.
    + split; [constructor; [reflexivity | exact Hf] | exact Hlen].
Qed.

(** [f"{n:,}"] (lines 133-139 and 155-163): the text is the sign followed by
    groups of digits separated by commas, the first group of one to three
    digits and every later one of exactly three; the digits, read without
    the commas, are the decimal digits of [|n|] with no leading zero (the
    single digit 0 for 0).  So removing the commas gives back [n]. *)
Theorem fmt_thousands_groups (n : Z) :
  exists g gs ds,
    fmt_thousands n =
      ((if (n <? 0)%Z then "-" else "") ++ string_of_list_ascii (join_commas (g :: gs)))%string /\
    (1 <= List.length g <= 3)%nat /\ Forall (fun h => List.length h = 3%nat) gs /\
    g ++ List.concat gs = map digit_char ds /\ Forall (fun d => 0 <= d <= 9) ds /\
    digits_value ds = Z.abs n /\ (hd 0 ds = 0 -> n = 0).
Proof.
  destruct (dec_digits_spec (Z.abs n) (Z.abs_nonneg n)) as (Hne & Hd & Hv & Hh).
  set (ds := dec_digits (Z.abs n)) in *.
  destruct (group3_rev_groups_le (List.length (rev (map digit_char ds)))
              (rev (map digit_char ds))) as (gs & g & Hl & Hg & Hf & Hlen).
  { destruct ds; [congruence | simpl; destruct (rev (map digit_char ds)); discriminate]. }
  { lia. }
  exists (rev g), (rev (map (@rev ascii) gs)), ds.
  split.
  { unfold fmt_thousands. fold ds. rewrite Hg, rev_join_commas, map_app, rev_app_distr.
    reflexivity. }
  split; [now rewrite length_rev |].
  split.
  { apply Forall_rev, Forall_map. eapply Forall_impl; [| exact Hf].
    intros h Hh'. now rewrite length_rev. }
  split.
  { rewrite concat_rev_map_rev, <- rev_app_distr, <- Hl. apply rev_involutive. }
  split; [exact Hd |]. split; [exact Hv |].
  intros H0. apply Z.abs_0_iff. exact (Hh H0).
Qed.

(** ** Months: [dt.to_period("M")] and [to_timestamp()] (lines 180-182) *)

Lemma all_from_spec (f : Z -> bool) (lo : Z) (n : nat) :
  all_from f lo n = true -> forall z, lo <= z < lo + Z.of_nat n -> f z = true.
Proof.
  revert lo. induction n as [| n IH]; simpl; intros lo H z Hz; [lia |].
  apply andb_true_iff in H as [H1 H2].
  destruct (Z.eq_dec z lo) as [-> | Hne]; [exact H1 |].
  apply (IH (lo + 1) H2). lia.
Qed.

Lemma yoe_num_step (x : Z) : 0 <= x ->
  x - x / 1460 + x / 36524 - x / 146096 <=
  (x + 1) - (x + 1) / 1460 + (x + 1) / 36524 - (x + 1) / 146096.
Proof.
  intros Hx.
  assert (H1 : (x + 1) / 1460 <= x / 1460 + 1).
  { pose proof (Z.div_mod (x + 1) 1460) as D1. pose proof (Z.div_mod x 1460) as D2.
    pose proof (Z.mod_pos_bound (x + 1) 1460) as B1.
    pose proof (Z.mod_pos_bound x 1460) as B2. lia. }
  assert (H2 : x / 36524 <= (x + 1) / 36524) by (apply Z.div_le_mono; lia).
  destruct (Z.eq_dec ((x + 1) mod 146096) 0) as [E | E].
  - apply Z.mod_divide in E as [c Hc]; [| lia].
    assert (Ha : (x + 1) / 36524 = 4 * c) by (rewrite Hc; symmetry; apply Z.div_unique_exact; lia).
    assert (Hb : (x + 1) / 146096 = c) by (rewrite Hc; symmetry; apply Z.div_unique_exact; lia).
    assert (Hc' : x / 36524 = 4 * c - 1) by (symmetry; apply (Z.div_unique _ _ _ 36523); lia).
    assert (Hd : x / 146096 = c - 1) by (symmetry; apply (Z.div_unique _ _ _ 146095); lia).
    lia.
  - assert (Hb : (x + 1) / 146096 = x / 146096).
    { pose proof (Z.div_mod (x + 1) 146096) as D1. pose proof (Z.div_mod x 146096) as D2.
      pose proof (Z.mod_pos_bound (x + 1) 146096) as B1.
      pose proof (Z.mod_pos_bound x 146096) as B2. lia. }
    lia.
Qed.

Lemma yoe_num_mono (x x' : Z) : 0 <= x <= x' ->
  x - x / 1460 + x / 36524 - x / 146096 <=
  x' - x' / 1460 + x' / 36524 - x' / 146096.
Proof.
  intros Hx. replace x' with (x + Z.of_nat (Z.to_nat (x' - x))) by lia.
  induction (Z.to_nat (x' - x)) as [| k IH]; [rewrite Z.add_0_r; lia |].
  eapply Z.le_trans; [exact IH |].
  replace (x + Z.of_nat (S k)) with (x + Z.of_nat k + 1) by lia.
  apply yoe_num_step. lia.
Qed.

(** The first and the last day of each of the 400 years of a cycle (years
    counted from March) get their own year number; the last year of the
    cycle ends on day 146096, one day after [365 * 400 + 400 / 4 - 400 / 100]. *)
Lemma year_ends_check :
  all_from (fun y =>
    let s := 365 * y + y / 4 - y / 100 in
    let e := if y =? 399 then 146096 else 365 * (y + 1) + (y + 1) / 4 - (y + 1) / 100 - 1 in
    ((s - s / 1460 + s / 36524 - s / 146096) / 365 =? y) &&
    ((e - e / 1460 + e / 36524 - e / 146096) / 365 =? y)) 0 400 = true.
Proof. vm_compute. reflexivity. Qed.

Lemma yoe_spec (doe : Z) : 0 <= doe < 146097 ->
  let yoe := (doe - doe / 1460 + doe / 36524 - doe / 146096) / 365 in
  0 <= yoe < 400 /\ 365 * yoe + yoe / 4 - yoe / 100 <= doe /\
  doe < (if yoe =? 399 then 146097 else 365 * (yoe + 1) + (yoe + 1) / 4 - (yoe + 1) / 100).
Proof.
  intros Hd yoe.
  assert (Hex : forall k : nat, (k <= 399)%nat ->
    doe < 365 * Z.of_nat k + Z.of_nat k / 4 - Z.of_nat k / 100 ->
    exists y, 0 <= y < Z.of_nat k /\
      365 * y + y / 4 - y / 100 <= doe < 365 * (y + 1) + (y + 1) / 4 - (y + 1) / 100).
  { induction k as [| k IH]; intros Hk399 Hk; [simpl in Hk; lia |].
    destruct (Z.lt_ge_cases doe (365 * Z.of_nat k + Z.of_nat k / 4 - Z.of_nat k / 100)) as [Hl | Hl].
    - destruct (IH ltac:(lia) Hl) as (y & Hy & Hb). exists y. split; [lia | exact Hb].
    - exists (Z.of_nat k). split; [lia |]. split; [exact Hl |].
      replace (Z.of_nat k + 1) with (Z.of_nat (S k)) by lia.
      exact Hk. }
  assert (Hy : exists y, 0 <= y < 400 /\ 365 * y + y / 4 - y / 100 <= doe /\
    doe <= (if y =? 399 then 146096 else 365 * (y + 1) + (y + 1) / 4 - (y + 1) / 100 - 1)).
  { destruct (Z.lt_ge_cases doe 145731) as [Hl | Hl].
    - destruct (Hex 399%nat) as (y & Hy & Hlo & Hhi); [lia | |].
      { replace (365 * Z.of_nat 399 + Z.of_nat 399 / 4 - Z.of_nat 399 / 100) with 145731
          by reflexivity. exact Hl. }
      exists y. split; [lia |]. split; [exact Hlo |].
      destruct (Z.eqb_spec y 399); [lia | lia].
    - exists 399. split; [lia |]. split; [exact Hl | simpl; lia]. }
  destruct Hy as (y & Hy & Hlo & Hhi).
  pose proof (all_from_spec _ _ _ year_ends_check y ltac:(simpl; lia)) as Hc.
  cbv zeta in Hc. apply andb_true_iff in Hc as [Hc1 Hc2]. apply Z.eqb_eq in Hc1, Hc2.
  assert (Hs0 : 0 <= 365 * y + y / 4 - y / 100).
  { pose proof (Z.div_le_compat_l y 4 100 ltac:(lia) ltac:(lia)). lia. }
  assert (Hyoe : yoe = y).
  { apply Z.le_antisymm.
    - rewrite <- Hc2 at 1. unfold yoe. apply Z.div_le_mono; [lia |]. apply yoe_num_mono.
      destruct (Z.eqb_spec y 399); lia.
    - rewrite <- Hc1 at 1. unfold yoe. apply Z.div_le_mono; [lia |]. apply yoe_num_mono. lia. }
  rewrite Hyoe. split; [exact Hy |]. split; [exact Hlo |].
  destruct (Z.eqb_spec y 399); lia.
Qed.


Lemma div_succ_bounds (x k : Z) : 0 < k -> x / k <= (x + 1) / k <= x / k + 1.
Proof.
  intros Hk. pose proof (Z.div_mod (x + 1) k ltac:(lia)). pose proof (Z.div_mod x k ltac:(lia)).
  pose proof (Z.mod_pos_bound (x + 1) k Hk). pose proof (Z.mod_pos_bound x k Hk). nia.
Qed.

Lemma mp_spec (doy : Z) : 0 <= doy <= 365 ->
  0 <= (5 * doy + 2) / 153 <= 11 /\ (153 * ((5 * doy + 2) / 153) + 2) / 5 <= doy /\
  ((5 * doy + 2) / 153 < 11 -> doy < (153 * ((5 * doy + 2) / 153 + 1) + 2) / 5).
Proof.
  intros H. set (mp := (5 * doy + 2) / 153).
  pose proof (Z.div_mod (5 * doy + 2) 153 ltac:(lia)) as D1.
  pose proof (Z.mod_pos_bound (5 * doy + 2) 153 ltac:(lia)) as B1. fold mp in D1.
  pose proof (Z.div_mod (153 * mp + 2) 5 ltac:(lia)) as D2.
  pose proof (Z.mod_pos_bound (153 * mp + 2) 5 ltac:(lia)) as B2.
  pose proof (Z.div_mod (153 * (mp + 1) + 2) 5 ltac:(lia)) as D3.
  pose proof (Z.mod_pos_bound (153 * (mp + 1) + 2) 5 ltac:(lia)) as B3.
  clearbody mp. lia.
Qed.

Lemma civil_month_bounds (d : Z) :
  let '(y, m, dd) := civil_from_days d in
  1 <= m <= 12 /\ days_from_civil y m 1 <= d /\
  d < days_from_civil (if m =? 12 then y + 1 else y) (if m =? 12 then 1 else m + 1) 1 /\
  days_from_civil y m dd = d.
Proof.
  unfold civil_from_days. cbv beta iota zeta.
  set (z := d + 719468). set (era := z / 146097). set (doe := z - era * 146097).
  assert (Hdoe : 0 <= doe < 146097).
  { pose proof (Z.div_mod z 146097). pose proof (Z.mod_pos_bound z 146097). unfold doe, era. lia. }
  pose proof (yoe_spec doe Hdoe) as Hy. cbv zeta in Hy.
  set (yoe := (doe - doe / 1460 + doe / 36524 - doe / 146096) / 365) in *.
  set (doy := doe - (365 * yoe + yoe / 4 - yoe / 100)).
  assert (Hdoy : 0 <= doy <= 365).
  { unfold doy. destruct Hy as (Hy1 & Hy2 & Hy3).
    destruct (Z.eqb_spec yoe 399) as [E | E].
    - rewrite E in Hy2 |- *.
      change (365 * 399 + 399 / 4 - 399 / 100) with 145731 in Hy2 |- *. lia.
    - pose proof (div_succ_bounds yoe 4 ltac:(lia)).
      pose proof (div_succ_bounds yoe 100 ltac:(lia)). lia. }
  set (mp := (5 * doy + 2) / 153).
  pose proof (mp_spec doy Hdoy) as Hmp. fold mp in Hmp.
  assert (Hd : d = era * 146097 + (365 * yoe + yoe / 4 - yoe / 100) + doy - 719468)
    by (unfold doy, doe, z; lia).
  assert (Hdoy' : doy = doe - (365 * yoe + yoe / 4 - yoe / 100)) by reflexivity.
  clearbody z era doe yoe doy mp.
  unfold days_from_civil. cbv zeta.
  destruct Hy as (Hy1 & Hy2 & Hy3). destruct Hmp as (Hm1 & Hm2 & Hm3).
  assert (E1 : (yoe + era * 400) / 400 = era).
  { rewrite Z.div_add, Z.div_small; lia. }
  assert (E2 : (yoe + era * 400 + 1) / 400 = (yoe + 1) / 400 + era).
  { rewrite <- Z.div_add by lia. f_equal. ring. }
  repeat match goal with
  | |- context [?a <=? ?b] => destruct (Z.leb_spec a b); try lia
  | |- context [?a <? ?b] => destruct (Z.ltb_spec a b); try lia
  | |- context [?a =? ?b] => destruct (Z.eqb_spec a b); try lia
  end.
  all: repeat first [rewrite Z.add_simpl_r | rewrite E1 | rewrite E2 | rewrite Z.sub_simpl_r].
  - replace (mp - 9 + 1 + 9) with (mp + 1) by ring. lia.
  - assert (mp = 11) by lia. subst mp. destruct (Z.eqb_spec yoe 399) as [-> | E].
    + simpl in Hy3. change ((399 + 1) / 400) with 1.
      replace (399 + era * 400 + 1 - (1 + era) * 400) with 0 by ring.
      change (365 * 399 + 399 / 4 - 399 / 100) with 145731 in Hd, Hy2, Hdoy'.
      change (399 * 365 + 399 / 4 - 399 / 100) with 145731.
      clear E1 E2. change ((153 * 11 + 2) / 5) with 337 in *.
      change ((153 * (11 - 9 + 1 - 3) + 2) / 5) with 0.
      change (0 / 4) with 0. change (0 / 100) with 0. lia.
    + rewrite (Z.div_small (yoe + 1) 400) by lia.
      replace (yoe + era * 400 + 1 - (0 + era) * 400) with (yoe + 1) by ring.
      clear E1 E2.
      change ((153 * 11 + 2) / 5) with 337 in *.
      change ((153 * (11 - 9 + 1 - 3) + 2) / 5) with 0. lia.
  - assert (mp = 9) by lia. subst mp.
    change ((153 * (1 + 9) + 2) / 5) with 306.
    change ((153 * (9 + 1) + 2) / 5) with 306 in Hm3. lia.
  - replace (mp + 3 + 1 - 3) with (mp + 1) by ring. lia.
Qed.

Lemma month_of_ts_bounds (t : Z) :
  month_start (month_of_ts t) <= t < month_start (month_of_ts t + 1).
Proof.
  unfold month_of_ts. pose proof (civil_month_bounds (ts_date t)) as Hb.
  destruct (civil_from_days (ts_date t)) as [[y m] dd]. destruct Hb as (Hm & Hlo & Hhi & _).
  assert (Ht : day_ns * ts_date t <= t < day_ns * ts_date t + day_ns).
  { unfold ts_date. pose proof (Z.div_mod t day_ns ltac:(unfold day_ns; lia)).
    pose proof (Z.mod_pos_bound t day_ns ltac:(unfold day_ns; lia)). lia. }
  unfold month_start.
  rewrite <- (Z.div_unique ((y - 1970) * 12 + (m - 1)) 12 (y - 1970) (m - 1)) by lia.
  rewrite <- (Z.mod_unique ((y - 1970) * 12 + (m - 1)) 12 (y - 1970) (m - 1)) by lia.
  replace (1970 + (y - 1970)) with y by ring. replace (m - 1 + 1) with m by ring.
  destruct (Z.eqb_spec m 12) as [-> | Hne].
  - rewrite <- (Z.div_unique ((y - 1970) * 12 + (12 - 1) + 1) 12 (y + 1 - 1970) 0) by lia.
    rewrite <- (Z.mod_unique ((y - 1970) * 12 + (12 - 1) + 1) 12 (y + 1 - 1970) 0) by lia.
    replace (1970 + (y + 1 - 1970)) with (y + 1) by ring.
    change (0 + 1) with 1. simpl in Hhi.
    set (a := days_from_civil y 12 1) in *. set (b := days_from_civil (y + 1) 1 1) in *.
    clearbody a b. unfold day_ns in *. nia.
  - rewrite <- (Z.div_unique ((y - 1970) * 12 + (m - 1) + 1) 12 (y - 1970) m) by lia.
    rewrite <- (Z.mod_unique ((y - 1970) * 12 + (m - 1) + 1) 12 (y - 1970) m) by lia.
    replace (1970 + (y - 1970)) with y by ring.
    set (a := days_from_civil y m 1) in *. set (b := days_from_civil y (m + 1) 1) in *.
    fold b in Hhi.
    clearbody a b. unfold day_ns in *. nia.
Qed.

Lemma days_from_civil_shift (y m dd k : Z) :
  days_from_civil (y + 400 * k) m dd = days_from_civil y m dd + 146097 * k.
Proof.
  unfold days_from_civil. cbv zeta.
  set (mp := if 2 <? m then m - 3 else m + 9).
  destruct (m <=? 2).
  - replace (y + 400 * k - 1) with ((y - 1) + k * 400) by ring.
    rewrite Z.div_add by lia.
    replace (y - 1 + k * 400 - ((y - 1) / 400 + k) * 400) with (y - 1 - (y - 1) / 400 * 400) by ring.
    ring.
  - replace (y + 400 * k) with (y + k * 400) by ring.
    rewrite Z.div_add by lia.
    replace (y + k * 400 - (y / 400 + k) * 400) with (y - y / 400 * 400) by ring.
    ring.
Qed.

Lemma month_start_shift (p k : Z) :
  month_start (p + 4800 * k) = month_start p + 146097 * k * day_ns.
Proof.
  unfold month_start.
  replace (p + 4800 * k) with (p + (400 * k) * 12) by ring.
  rewrite Z.div_add, Z_mod_plus_full by lia.
  replace (1970 + (p / 12 + 400 * k)) with ((1970 + p / 12) + 400 * k) by ring.
  rewrite days_from_civil_shift. ring.
Qed.

Lemma month_start_check :
  all_from (fun p => month_start p <? month_start (p + 1)) 0 4800 = true.
Proof. vm_compute. reflexivity. Qed.

Lemma month_start_lt (p : Z) : month_start p < month_start (p + 1).
Proof.
  set (k := p / 4800). set (p0 := p mod 4800).
  assert (Hp : p = p0 + 4800 * k) by (unfold p0, k; pose proof (Z.div_mod p 4800); lia).
  assert (H0 : 0 <= p0 < 4800) by (apply Z.mod_pos_bound; lia).
  pose proof (all_from_spec _ _ _ month_start_check p0 ltac:(simpl; lia)) as Hc.
  apply Z.ltb_lt in Hc.
  rewrite Hp. replace (p0 + 4800 * k + 1) with ((p0 + 1) + 4800 * k) by ring.
  rewrite !month_start_shift. lia.
Qed.

Lemma month_start_mono (p q : Z) : p < q -> month_start p < month_start q.
Proof.
  intros H. replace q with (p + 1 + Z.of_nat (Z.to_nat (q - p - 1))) by lia.
  induction (Z.to_nat (q - p - 1)) as [| n IH].
  - rewrite Z.add_0_r. apply month_start_lt.
  - eapply Z.lt_trans; [exact IH |].
    replace (p + 1 + Z.of_nat (S n)) with (p + 1 + Z.of_nat n + 1) by lia.
    apply month_start_lt.
Qed.

Lemma month_of_ts_start (p : Z) : month_of_ts (month_start p) = p.
Proof.
  pose proof (month_of_ts_bounds (month_start p)) as [Hlo Hhi].
  set (q := month_of_ts (month_start p)) in *.
  destruct (Z.lt_trichotomy q p) as [Hl | [E | Hg]]; [| exact E |].
  - assert (Hle : q + 1 <= p) by lia.
    destruct (Z.eq_dec (q + 1) p) as [E | Hne]; [rewrite E in Hhi; lia |].
    pose proof (month_start_mono (q + 1) p ltac:(lia)). lia.
  - pose proof (month_start_mono p q Hg). lia.
Qed.

(** ** The monthly subscriber chart (lines 171-185) *)

Lemma insert_key_spec (k : Z) (l : list Z) :
  StronglySorted Z.lt l ->
  StronglySorted Z.lt (insert_key k l) /\ (forall x, In x (insert_key k l) <-> x = k \/ In x l).
Proof.
  induction l as [| y l IH]; intros Hs; simpl.
  - split; [repeat constructor | intros x; simpl; intuition (subst; auto)].
  - inversion Hs as [| ? ? Hs' Hf]; subst. rewrite Forall_forall in Hf.
    destruct (Z.ltb_spec k y) as [Hky | Hky].
    + split; [| intros x; simpl; intuition (subst; auto)].
      constructor; [exact Hs |]. constructor; [exact Hky |].
      apply Forall_forall. intros z Hz. specialize (Hf z Hz). lia.
    + destruct (Z.eqb_spec k y) as [-> | Hne].
      * split; [exact Hs | intros x; simpl; intuition (subst; auto)].
      * destruct (IH Hs') as [Hs'' Hin]. split.
        -- constructor; [exact Hs'' |]. apply Forall_forall. intros z Hz.
           apply Hin in Hz as [-> | Hz]; [lia | auto].
        -- intros x. simpl. rewrite Hin. tauto.
Qed.

Lemma group_keys_spec (ks : list (option Z)) :
  StronglySorted Z.lt (group_keys ks) /\ (forall k, In k (group_keys ks) <-> In (Some k) ks).
Proof.
  unfold group_keys.
  assert (G : forall ks acc, StronglySorted Z.lt acc ->
    StronglySorted Z.lt (fold_left (fun acc k => match k with Some k => insert_key k acc | None => acc end) ks acc) /\
    (forall k, In k (fold_left (fun acc k => match k with Some k => insert_key k acc | None => acc end) ks acc) <->
               In k acc \/ In (Some k) ks)).
  { induction ks0 as [| o ks0 IH]; intros acc Hacc; simpl.
    - split; [exact Hacc | intros k; tauto].
    - destruct o as [k0 |].
      + destruct (insert_key_spec k0 acc Hacc) as [Hs Hin].
        destruct (IH _ Hs) as [Hs' Hin']. split; [exact Hs' |].
        intros k. rewrite Hin', Hin. split; [intros [[-> | H] | H]; auto |].
        intros [H | [H | H]]; [auto | injection H as ->; auto | auto].
      + destruct (IH _ Hacc) as [Hs' Hin']. split; [exact Hs' |].
        intros k. rewrite Hin'. split; [intros [H | H]; auto |].
        intros [H | [H | H]]; [auto | discriminate | auto]. }
  destruct (G ks [] (SSorted_nil _)) as [Hs Hin]. split; [exact Hs |].
  intros k. rewrite Hin. simpl. tauto.
Qed.

(** Extra.  The monthly chart (lines 179-182): its points are listed in
    strictly increasing time; each is dated at the first instant of a month
    ([to_period("M")] then [to_timestamp()] maps the point's own date to the
    same month), and its value is the last non-null [subscribers] value
    among the snapshots of that month, in row order (null if all are null).
    Every snapshot with a timestamp [t] has the point of its month, dated
    at or before [t] and less than a month before it. *)
Theorem monthly_subs_points (h : table) (pts : list (Z * cell)) :
  monthly_subs h = Some (Some pts) ->
  exists ch, to_datetime_col h "fetched_at" = Some ch /\
    StronglySorted (fun a b => fst a < fst b) pts /\
    (forall r t, In r (rows ch) -> get r "fetched_at" = CTime t ->
       (exists v, In (month_start (month_of_ts t), v) pts) /\
       month_start (month_of_ts t) <= t < month_start (month_of_ts t + 1)) /\
    (forall x v, In (x, v) pts ->
       month_start (month_of_ts x) = x /\
       (exists r t, In r (rows ch) /\ get r "fetched_at" = CTime t /\ month_of_ts t = month_of_ts x) /\
       v = last_valid (map (fun r => get r "subscribers")
             (filter (fun r => match get r "fetched_at" with
                               | CTime t => month_of_ts t =? month_of_ts x
                               | _ => false end) (rows ch)))).
Proof.
  unfold monthly_subs.
  destruct (negb (df_empty h) && has_col h "fetched_at"); [| discriminate].
  destruct (to_datetime_col h "fetched_at") as [ch |] eqn:Ech; simpl; [| discriminate].
  destruct (negb (has_col ch "subscribers")); [discriminate |].
  intros [= <-]. exists ch. split; [reflexivity |].
  set (month := fun r => match get r "fetched_at" with CTime t => Some (month_of_ts t) | _ => None end).
  destruct (group_keys_spec (map month (rows ch))) as [Hs Hin].
  split; [| split].
  - apply SS_map. eapply SS_impl_in; [| exact Hs]. intros p q _ _ Hpq.
    cbn [fst]. now apply month_start_mono.
  - intros r t Hr Ht. split; [| apply month_of_ts_bounds].
    eexists. apply in_map_iff. exists (month_of_ts t). split; [reflexivity |].
    apply Hin, in_map_iff. exists r. split; [| exact Hr]. unfold month. now rewrite Ht.
  - intros x v Hxv. apply in_map_iff in Hxv as (p & Hp & Hpin).
    injection Hp as Hx Hv. rewrite <- Hx, month_of_ts_start.
    split; [reflexivity |]. split.
    + apply Hin, in_map_iff in Hpin as (r & Hm & Hr). unfold month in Hm.
      destruct (get r "fetched_at") as [| | t |] eqn:Ht; try discriminate.
      injection Hm as Hm. exists r, t. auto.
    + rewrite <- Hv. f_equal. f_equal. apply filter_ext. intros r. unfold month.
      destruct (get r "fetched_at"); reflexivity.
Qed.

Lemma monthly_subs_points_witness :
  exists pts, monthly_subs history = Some (Some pts) /\
  exists ch, to_datetime_col history "fetched_at" = Some ch /\
    StronglySorted (fun a b => fst a < fst b) pts /\
    (forall r t, In r (rows ch) -> get r "fetched_at" = CTime t ->
       (exists v, In (month_start (month_of_ts t), v) pts) /\
       month_start (month_of_ts t) <= t < month_start (month_of_ts t + 1)) /\
    (forall x v, In (x, v) pts ->
       month_start (month_of_ts x) = x /\
       (exists r t, In r (rows ch) /\ get r "fetched_at" = CTime t /\ month_of_ts t = month_of_ts x) /\
       v = last_valid (map (fun r => get r "subscribers")
             (filter (fun r => match get r "fetched_at" with
                               | CTime t => month_of_ts t =? month_of_ts x
                               | _ => false end) (rows ch)))).
Proof.
  destruct (monthly_subs history) as [[pts |] |] eqn:E.
  - exists pts. split; [reflexivity |]. exact (monthly_subs_points history pts E).
  - vm_compute in E. discriminate.
  - vm_compute in E. discriminate.
Defined.

(** ** The calendar date and the month of a timestamp *)

Lemma days_from_civil_day (y m d : Z) :
  days_from_civil y m d = days_from_civil y m 1 + (d - 1).
Proof. unfold days_from_civil. cbv zeta. ring. Qed.

Lemma is_leap_shift (y k : Z) : is_leap (y + 400 * k) = is_leap y.
Proof.
  unfold is_leap.
  replace (y + 400 * k) with (y + (100 * k) * 4) by ring. rewrite Z_mod_plus_full.
  replace (y + 100 * k * 4) with (y + (4 * k) * 100) by ring. rewrite Z_mod_plus_full.
  replace (y + 4 * k * 100) with (y + k * 400) by ring. rewrite Z_mod_plus_full.
  reflexivity.
Qed.

Lemma days_in_month_shift (y m k : Z) : days_in_month (y + 400 * k) m = days_in_month y m.
Proof. unfold days_in_month. rewrite is_leap_shift. reflexivity. Qed.

Lemma month_len_check :
  all_from (fun p => month_start (p + 1) - month_start p =?
                     days_in_month (1970 + p / 12) (p mod 12 + 1) * day_ns) 0 4800 = true.
Proof. vm_compute. reflexivity. Qed.

Lemma month_len (p : Z) :
  month_start (p + 1) - month_start p = days_in_month (1970 + p / 12) (p mod 12 + 1) * day_ns.
Proof.
  set (k := p / 4800). set (p0 := p mod 4800).
  assert (Hp : p = p0 + 4800 * k) by (unfold p0, k; pose proof (Z.div_mod p 4800); lia).
  assert (H0 : 0 <= p0 < 4800) by (apply Z.mod_pos_bound; lia).
  pose proof (all_from_spec _ _ _ month_len_check p0 ltac:(simpl; lia)) as Hc.
  apply Z.eqb_eq in Hc. cbv beta in Hc.
  rewrite Hp. replace (p0 + 4800 * k + 1) with ((p0 + 1) + 4800 * k) by ring.
  rewrite !month_start_shift.
  replace (p0 + 4800 * k) with (p0 + (400 * k) * 12) by ring.
  rewrite Z.div_add, Z_mod_plus_full by lia.
  replace (1970 + (p0 / 12 + 400 * k)) with ((1970 + p0 / 12) + 400 * k) by ring.
  rewrite days_in_month_shift. lia.
Qed.

Lemma month_start_index (y m : Z) : 1 <= m <= 12 ->
  month_start ((y - 1970) * 12 + (m - 1)) = days_from_civil y m 1 * day_ns.
Proof.
  intros Hm. unfold month_start.
  rewrite <- (Z.div_unique ((y - 1970) * 12 + (m - 1)) 12 (y - 1970) (m - 1)) by lia.
  rewrite <- (Z.mod_unique ((y - 1970) * 12 + (m - 1)) 12 (y - 1970) (m - 1)) by lia.
  replace (1970 + (y - 1970)) with y by ring. replace (m - 1 + 1) with m by ring.
  reflexivity.
Qed.

Lemma month_unique (p q t : Z) :
  month_start p <= t < month_start (p + 1) ->
  month_start q <= t < month_start (q + 1) -> p = q.
Proof.
  intros Hp Hq.
  assert (Hle : forall a b, a < b -> month_start (a + 1) <= month_start b).
  { intros a b Hab. destruct (Z.eq_dec (a + 1) b) as [<- | Hne]; [lia |].
    pose proof (month_start_mono (a + 1) b ltac:(lia)). lia. }
  destruct (Z.lt_trichotomy p q) as [Hl | [E | Hg]]; [| exact E |].
  - pose proof (Hle p q Hl). lia.
  - pose proof (Hle q p Hg). lia.
Qed.

Lemma civil_from_days_of_civil (y m d : Z) :
  1 <= m <= 12 -> 1 <= d <= days_in_month y m ->
  civil_from_days (days_from_civil y m d) = (y, m, d).
Proof.
  intros Hm Hd.
  set (D := days_from_civil y m d).
  set (p := (y - 1970) * 12 + (m - 1)).
  assert (Hp : month_start p <= D * day_ns < month_start (p + 1)).
  { pose proof (month_len p) as Hl. unfold p in Hl |- *.
    rewrite <- (Z.div_unique ((y - 1970) * 12 + (m - 1)) 12 (y - 1970) (m - 1)) in Hl by lia.
    rewrite <- (Z.mod_unique ((y - 1970) * 12 + (m - 1)) 12 (y - 1970) (m - 1)) in Hl by lia.
    replace (1970 + (y - 1970)) with y in Hl by ring. replace (m - 1 + 1) with m in Hl by ring.
    rewrite month_start_index in Hl |- * by exact Hm.
    unfold D. rewrite (days_from_civil_day y m d).
    set (F := days_from_civil y m 1) in *. set (L := days_in_month y m) in *.
    set (N := month_start ((y - 1970) * 12 + (m - 1) + 1)) in *.
    clearbody F L N. pose proof day_ns_pos. nia. }
  pose proof (civil_month_bounds D) as Hb.
  pose proof (month_of_ts_bounds (D * day_ns)) as Hq.
  unfold month_of_ts in Hq.
  replace (ts_date (D * day_ns)) with D in Hq
    by (unfold ts_date; rewrite Z.div_mul; [reflexivity | unfold day_ns; lia]).
  destruct (civil_from_days D) as [[y' m'] dd'].
  destruct Hb as (Hm' & _ & _ & Hex).
  pose proof (month_unique _ _ _ Hp Hq) as E. unfold p in E.
  clearbody p.
  assert (Ey : y = y' /\ m = m') by (clear - E Hm Hm'; lia). destruct Ey as [Ey Em]. subst y' m'.
  unfold D in Hex. rewrite (days_from_civil_day y m dd'), (days_from_civil_day y m d) in Hex.
  replace dd' with d by lia. reflexivity.
Qed.

(** The calendar of a timestamp: any instant [t] of the day [y-m-d] (a
    real date, from midnight to the last nanosecond) has [.date()]
    (lines 50-51) [y-m-d], [dt.to_period("M")] (line 180) the month
    [(y - 1970) * 12 + (m - 1)] counted from January 1970, and
    [to_timestamp()] (line 182) the first instant of that month. *)
Theorem timestamp_calendar_date (y m d t : Z) :
  1 <= m <= 12 -> 1 <= d <= days_in_month y m ->
  days_from_civil y m d * day_ns <= t < days_from_civil y m d * day_ns + day_ns ->
  civil_from_days (ts_date t) = (y, m, d) /\
  month_of_ts t = (y - 1970) * 12 + (m - 1) /\
  month_start (month_of_ts t) = days_from_civil y m 1 * day_ns.
Proof.
  intros Hm Hd Ht.
  assert (Hts : ts_date t = days_from_civil y m d).
  { unfold ts_date. symmetry. apply (Z.div_unique_pos t day_ns _ (t - days_from_civil y m d * day_ns));
      [| ring]. lia. }
  assert (Hcv := civil_from_days_of_civil y m d Hm Hd).
  assert (Hmo : month_of_ts t = (y - 1970) * 12 + (m - 1))
    by (unfold month_of_ts; rewrite Hts, Hcv; reflexivity).
  split; [now rewrite Hts |]. split; [exact Hmo |].
  rewrite Hmo. now apply month_start_index.
Qed.

Lemma timestamp_calendar_date_witness :
  (1 <= 2 <= 12) /\ (1 <= 29 <= days_in_month 2024 2) /\
  (days_from_civil 2024 2 29 * day_ns <= days_from_civil 2024 2 29 * day_ns + 36000000000000 <
     days_from_civil 2024 2 29 * day_ns + day_ns) /\
  civil_from_days (ts_date (days_from_civil 2024 2 29 * day_ns + 36000000000000)) = (2024, 2, 29) /\
  month_of_ts (days_from_civil 2024 2 29 * day_ns + 36000000000000) = (2024 - 1970) * 12 + (2 - 1) /\
  month_start (month_of_ts (days_from_civil 2024 2 29 * day_ns + 36000000000000)) =
    days_from_civil 2024 2 1 * day_ns.
Proof.
  assert (H1 : 1 <= 2 <= 12) by lia.
  assert (H2 : 1 <= 29 <= days_in_month 2024 2) by (split; apply Z.leb_le; vm_compute; reflexivity).
  assert (H3 : days_from_civil 2024 2 29 * day_ns <= days_from_civil 2024 2 29 * day_ns + 36000000000000 <
               days_from_civil 2024 2 29 * day_ns + day_ns) by (split; [apply Z.leb_le | apply Z.ltb_lt]; vm_compute; reflexivity).
  split; [exact H1 |]. split; [exact H2 |]. split; [exact H3 |].
  exact (timestamp_calendar_date 2024 2 29 _ H1 H2 H3).
Defined.

(** [dt.to_period("M").to_timestamp()] (lines 180-182) maps a timestamp to
    the first instant of its month, at or before it and before the next
    month's; [to_period] of a month start gives the month back; and two
    consecutive month starts lie the month's length in days apart. *)
Theorem period_timestamp_roundtrip (t p : Z) :
  month_start (month_of_ts t) <= t < month_start (month_of_ts t + 1) /\
  month_of_ts (month_start p) = p /\
  month_start (p + 1) - month_start p = days_in_month (1970 + p / 12) (p mod 12 + 1) * day_ns.
Proof.
  split; [apply month_of_ts_bounds |]. split; [apply month_of_ts_start | apply month_len].
Qed.
